(** * ld-comb-ntsc: the NTSC comb filter of [tools/ld-comb-ntsc/comb.cpp]

    A shallow embedding of the [Comb] class and the properties of its
    passes (1D/2D/3D chroma separation, IQ demodulation, chroma filter,
    noise reduction, Y clean-up, RGB output).

    Modelling conventions.
    - [qint32] values are unbounded integers ([Z]); the products the
      code forms (line offsets, buffer sizes) are assumed not to leave
      the 32-bit range, where signed overflow is undefined in C++.
    - [qreal] (IEEE double) is modelled by exact rational arithmetic
      ([Q]); rounding, infinities and NaN are outside the model, and so
      is a division by zero (the one divisor that can be zero is
      [45 * irescale] in [split2D]).  Equality of computed reals is
      [Qeq] ([==]).
    - [QByteArray] is a list of bytes; the code reads and writes 16-bit
      samples through a reinterpreted pointer, modelled little-endian.
      An access outside a buffer is undefined in C++; the model reads 0
      there and drops such writes, and a statement about what is read or
      written carries the hypotheses that keep the access inside the
      buffer ([covers_window] for the raw samples).  Two-dimensional [pixel] and YIQ
      arrays are total maps from (line, column).
    - [h % 4] and [lineNumber % 2] are C++ remainders ([Z.rem]). *)

From Stdlib Require Import ZArith QArith Qabs Qminmax Lia Lqa Bool List.
From Stdlib Require Import Strings.Byte.
From stdpp Require Import base list list_numbers.

Local Open Scope Z_scope.

(** ** Qt containers *)

Module Qt.

Definition QByteArray := list byte.

Definition byteZ (b : byte) : Z := Z.of_N (Byte.to_N b).

(** [T QVector::operator[](int)] read through a [Z] index. *)
Definition at_ {A} (d : A) (v : list A) (i : Z) : A :=
  if i <? 0 then d else default d (v !! Z.to_nat i).

(** [v[i] = x] through a [Z] index. *)
Definition set_ {A} (v : list A) (i : Z) (x : A) : list A :=
  if i <? 0 then v else <[Z.to_nat i := x]> v.

(** [QVector::resize] / [QByteArray::resize] on a fresh container: a
    negative size counts as 0. *)
Definition fresh {A} (d : A) (n : Z) : list A := replicate (Z.to_nat n) d.

(** [QByteArray::mid(pos, len)] for [0 <= pos], [0 <= len]: the bytes
    from [pos], at most [len] of them, fewer at the end of the array. *)
Definition mid (a : QByteArray) (pos len : Z) : QByteArray :=
  take (Z.to_nat len) (drop (Z.to_nat pos) a).

(** [reinterpret_cast<quint16 *>(a.data() + off)[idx]]. *)
Definition quint16At (a : QByteArray) (off idx : Z) : Z :=
  byteZ (at_ x00 a (off + 2 * idx)) + 256 * byteZ (at_ x00 a (off + 2 * idx + 1)).

Definition byte_of_Z (z : Z) : byte :=
  default x00 (Byte.of_N (Z.to_N (z mod 256))).

(** [reinterpret_cast<quint16 *>(a.data() + off)[idx] = v]. *)
Definition quint16Set (a : QByteArray) (off idx v : Z) : QByteArray :=
  set_ (set_ a (off + 2 * idx) (byte_of_Z v))
       (off + 2 * idx + 1) (byte_of_Z (v / 256)).

End Qt.
Import Qt.

(** ** Real-number helpers *)

Definition Qltb (x y : Q) : bool :=
  match (x ?= y)%Q with Lt => true | _ => false end.
Definition Qgtb (x y : Q) : bool := Qltb y x.
Definition Qleb (x y : Q) : bool := negb (Qltb y x).

(** C++ conversion of an [int] to [qreal]. *)
Definition qreal_of (z : Z) : Q := inject_Z z.

(** [static_cast<quint16>(x)]: truncation toward zero, then the 16-bit
    wrap-around of the usual targets. *)
Definition static_cast_quint16 (x : Q) : Z :=
  Z.quot (Qnum x) (Zpos (Qden x)) mod 65536.

(** [static_cast<qint32>(x)]: truncation toward zero.  The code casts
    a rounded double product; the two agree where the product is an
    integer of the 32-bit range, which is where the theorems use it. *)
Definition static_cast_qint32 (x : Q) : Z := Z.quot (Qnum x) (Zpos (Qden x)).

(** ** Loops *)

(** [for (i = lo; i < hi; i++) body], the loop state passed explicitly. *)
Definition for_range {S : Type} (lo hi : Z) (body : Z → S → S) (s : S) : S :=
  fold_left (fun acc i => body i acc) (seqZ lo (hi - lo)) s.

(** [k] is one of the indices such a loop visits. *)
Definition in_range (lo hi k : Z) : bool := (lo <=? k) && (k <? hi).

(** ** Data model *)

(** One pixel of the YIQ plane. *)
Record YIQ := mkYIQ { y : Q; i : Q; q : Q }.

(** [YiqBuffer] (its class is not among the sources): indexed
    [yiqBuffer[lineNumber][h]], copied by value. *)
Definition YiqBuffer := Z → Z → YIQ.

(** [YiqBuffer::clear()]: every pixel back to zero. *)
Definition YiqBuffer_clear : YiqBuffer := fun _ _ => mkYIQ 0 0 0.

(** [yiqBuffer[l][h] = p]. *)
Definition yiq_set (b : YiqBuffer) (l h : Z) (p : YIQ) : YiqBuffer :=
  fun l' h' => if (l' =? l) && (h' =? h) then p else b l' h'.

(** [struct PixelLine { qreal pixel[..][..]; }]. *)
Record PixelLine := mkPixelLine { pixel : Z → Z → Q }.

Definition PixelLine_default : PixelLine := mkPixelLine (fun _ _ => 0%Q).

(** [p.pixel[l][h] = v]. *)
Definition pixel_set (p : PixelLine) (l h : Z) (v : Q) : PixelLine :=
  mkPixelLine (fun l' h' => if (l' =? l) && (h' =? h) then v else pixel p l' h').

(** Taken as parameters: the [Filter] class and the filters
    [f_colorlpi], [f_colorlpq], [f_nr], [f_nrc] are declared in deemp.h,
    the [RGB] conversion in rgb.h and the optical-flow estimator in
    opticalflow.h; none of them is among the sources.  A filter is its
    state; [feed] returns the new state and the filtered value; copying
    one of the four constants gives a filter with cleared history.
    [RGB_conv whiteIre blackIre whitePoint100 blackAndWhite yiq burstLevel]
    is [RGB::conv] on a freshly constructed [RGB]. *)
Class Externals := {
  Filter : Type;
  feed : Filter → Q → Filter * Q;
  f_colorlpi : Filter;
  f_colorlpq : Filter;
  f_nr : Filter;
  f_nrc : Filter;
  RGB_conv : Q → Q → bool → bool → YIQ → Q → Q * Q * Q;
  OpticalFlow : Type;
  denseOpticalFlow : OpticalFlow → YiqBuffer → list Q → OpticalFlow * list Q
}.

(** Modelled from the spec: [struct Configuration] is declared in
    comb.h, which is not among the sources; the fields are those the
    constructor assigns.  The IRE levels are taken as reals, so that
    [irescale] is the quotient [(whiteIre - blackIre) / 100] the spec
    gives; were they integers in comb.h, that division would truncate. *)
Record Configuration := mkConfiguration {
  blackAndWhite : bool;
  whitePoint100 : bool;
  colorlpf : bool;
  colorlpf_hq : bool;
  fieldWidth : Z;
  fieldHeight : Z;
  activeVideoStart : Z;
  activeVideoEnd : Z;
  firstVisibleFrameLine : Z;
  blackIre : Q;
  whiteIre : Q;
  use3D : bool;
  showOpticalFlowMap : bool
}.

(** [struct FrameBuffer], declared in comb.h (not among the sources):
    the members comb.cpp uses. *)
Record FrameBuffer := mkFrameBuffer {
  rawbuffer : QByteArray;
  clpbuffer : list PixelLine;
  kValues : list Q;
  yiqBuffer : YiqBuffer;
  burstLevel : Q;
  firstFieldPhaseID : Z;
  secondFieldPhaseID : Z
}.

(** A default-constructed [FrameBuffer]: empty containers. *)
Definition FrameBuffer_default : FrameBuffer :=
  mkFrameBuffer [] [] [] YiqBuffer_clear 0 0 0.

Definition set_clpbuffer (fb : FrameBuffer) (c : list PixelLine) : FrameBuffer :=
  mkFrameBuffer (rawbuffer fb) c (kValues fb) (yiqBuffer fb) (burstLevel fb)
                (firstFieldPhaseID fb) (secondFieldPhaseID fb).
Definition set_kValues (fb : FrameBuffer) (k : list Q) : FrameBuffer :=
  mkFrameBuffer (rawbuffer fb) (clpbuffer fb) k (yiqBuffer fb) (burstLevel fb)
                (firstFieldPhaseID fb) (secondFieldPhaseID fb).
Definition set_yiqBuffer (fb : FrameBuffer) (b : YiqBuffer) : FrameBuffer :=
  mkFrameBuffer (rawbuffer fb) (clpbuffer fb) (kValues fb) b (burstLevel fb)
                (firstFieldPhaseID fb) (secondFieldPhaseID fb).

(** [fb->clpbuffer[n].pixel[l][h]]. *)
Definition clp (fb : FrameBuffer) (n l h : Z) : Q :=
  pixel (at_ PixelLine_default (clpbuffer fb) n) l h.

(** [fb->clpbuffer[n].pixel[l][h] = v]. *)
Definition clp_set (fb : FrameBuffer) (n l h : Z) (v : Q) : FrameBuffer :=
  set_clpbuffer fb
    (set_ (clpbuffer fb) n (pixel_set (at_ PixelLine_default (clpbuffer fb) n) l h v)).

(** [fb] and [fb0] differ at most in plane [n] of [clpbuffer]. *)
Definition agree_off (n : Z) (fb fb0 : FrameBuffer) : Prop :=
  rawbuffer fb = rawbuffer fb0
  ∧ length (clpbuffer fb) = length (clpbuffer fb0)
  ∧ (∀ m, m ≠ n →
       at_ PixelLine_default (clpbuffer fb) m = at_ PixelLine_default (clpbuffer fb0) m)
  ∧ kValues fb = kValues fb0
  ∧ yiqBuffer fb = yiqBuffer fb0
  ∧ burstLevel fb = burstLevel fb0
  ∧ firstFieldPhaseID fb = firstFieldPhaseID fb0
  ∧ secondFieldPhaseID fb = secondFieldPhaseID fb0.

(** Plane [n] exists in the frame buffer. *)
Definition has_plane (fb : FrameBuffer) (n : Z) : bool :=
  (0 <=? n) && (n <? Z.of_nat (length (clpbuffer fb))).

(** The phase-inversion flags every demodulating pass keeps. *)
Record PhaseTracker := mkPhaseTracker {
  topInvertphase : bool;
  bottomInvertphase : bool;
  invertphase : bool
}.

Definition initTracker (firstFieldPhaseID secondFieldPhaseID : Z) : PhaseTracker :=
  mkPhaseTracker ((firstFieldPhaseID =? 2) || (firstFieldPhaseID =? 3))
                 ((secondFieldPhaseID =? 1) || (secondFieldPhaseID =? 4))
                 false.

(** "Determine if the line phase should be inverted". *)
Definition trackLine (lineNumber : Z) (t : PhaseTracker) : PhaseTracker :=
  if Z.rem lineNumber 2 =? 0
  then mkPhaseTracker (negb (topInvertphase t)) (bottomInvertphase t)
                      (negb (topInvertphase t))
  else mkPhaseTracker (topInvertphase t) (negb (bottomInvertphase t))
                      (negb (bottomInvertphase t)).

(** The inversion flag a pass that starts at [firstVisibleFrameLine]
    holds while it works on [lineNumber]. *)
Definition lineInvertphase (firstVisibleFrameLine firstFieldPhaseID secondFieldPhaseID
    lineNumber : Z) : bool :=
  invertphase
    (for_range firstVisibleFrameLine (lineNumber + 1) trackLine
       (initTracker firstFieldPhaseID secondFieldPhaseID)).

(** Columns whose phase updates I, and columns whose phase updates Q. *)
Definition isIcol (h : Z) : bool := (Z.rem h 4 =? 1) || (Z.rem h 4 =? 3).
Definition isQcol (h : Z) : bool := (Z.rem h 4 =? 0) || (Z.rem h 4 =? 2).

(** The most recent column of [start..h] that satisfies [p], if any. *)
Definition last_col (p : Z → bool) (start h : Z) : option Z :=
  List.find p (rev (seqZ start (h - start + 1))).

(** The value a channel holds: the one produced at the column that last
    updated it, or 0 before the first update. *)
Definition held (f : Z → Q) (o : option Z) : Q :=
  match o with Some h' => f h' | None => 0%Q end.

(** [Comb::clamp]. *)
Definition clamp (v low high : Q) : Q :=
  if Qltb v low then low else if Qgtb v high then high else v.

(** [fabs]. *)
Definition fabs (x : Q) : Q := Qabs x.

Section Comb.
Context {E : Externals}.

(** The [Comb] object: configuration, the two values derived from it,
    and the state retained between calls of [process]. *)
Record Comb := mkComb {
  configuration : Configuration;
  irescale : Q;
  frameHeight : Z;
  opticalFlow : OpticalFlow;
  previousFrameBuffer : FrameBuffer
}.

(** [Comb::postConfigurationTasks]. *)
Definition postConfigurationTasks (c : Comb) : Comb :=
  mkComb (configuration c)
         ((whiteIre (configuration c) - blackIre (configuration c)) / 100)%Q
         (fieldHeight (configuration c) * 2 - 1)
         (opticalFlow c) (previousFrameBuffer c).

(** [Comb::setConfiguration]; the range checks only log. *)
Definition setConfiguration (c : Comb) (configurationParam : Configuration) : Comb :=
  postConfigurationTasks
    (mkComb configurationParam (irescale c) (frameHeight c)
            (opticalFlow c) (previousFrameBuffer c)).

(** [Comb::Comb()]. *)
Definition Comb_new (of0 : OpticalFlow) : Comb :=
  postConfigurationTasks
    (mkComb (mkConfiguration false false true true 910 263 40 840 43
                             15360 51200 false false)
            0 0 of0 FrameBuffer_default).

(** The 16-bit sample [line[h]] of frame line [lineNumber]. *)
Definition rawSample (c : Comb) (fb : FrameBuffer) (lineNumber h : Z) : Z :=
  quint16At (rawbuffer fb) ((lineNumber * fieldWidth (configuration c)) * 2) h.

(** The raw buffer of [fb] holds a sample for every visible line and
    active column: the reads [line[h]] of [split3D] at the pixels it
    visits stay inside the buffer.  The buffer an object retains before
    its first 3D call is empty and does not cover the window. *)
Definition covers_window (c : Comb) (fb : FrameBuffer) : bool :=
  (0 <=? firstVisibleFrameLine (configuration c))
  && (0 <=? activeVideoStart (configuration c))
  && (activeVideoEnd (configuration c) <=? fieldWidth (configuration c))
  && (fieldWidth (configuration c) * frameHeight c * 2
      <=? Z.of_nat (length (rawbuffer fb))).

(** *** split1D *)

Definition split1D_raw (c : Comb) (fb : FrameBuffer) (lineNumber h : Z) : Z :=
  Z.quot (rawSample c fb lineNumber (h + 2) + rawSample c fb lineNumber (h - 2)) 2
  - rawSample c fb lineNumber h.

Definition split1D_pixel (c : Comb) (invert : bool) (lineNumber h : Z)
    (st : Filter * Filter * FrameBuffer) : Filter * Filter * FrameBuffer :=
  let '(f_1di, f_1dq, fb) := st in
  let phase := Z.rem h 4 in
  let tc1 := qreal_of (split1D_raw c fb lineNumber h) in
  let tc1 := if negb invert then (- tc1)%Q else tc1 in
  let '(f_1di, f_1dq, tc1f) :=
    match phase with
    | 0 => let tsi := tc1 in
           let '(f, r) := feed f_1di tsi in (f, f_1dq, r)
    | 1 => let tsq := (- tc1)%Q in
           let '(f, r) := feed f_1dq tsq in (f_1di, f, (- r)%Q)
    | 2 => let tsi := (- tc1)%Q in
           let '(f, r) := feed f_1di tsi in (f, f_1dq, (- r)%Q)
    | 3 => let tsq := tc1 in
           let '(f, r) := feed f_1dq tsq in (f_1di, f, r)
    | _ => (f_1di, f_1dq, 0%Q)
    end in
  let '(tc1, tc1f) :=
    if negb invert then ((- tc1)%Q, (- tc1f)%Q) else (tc1, tc1f) in
  (f_1di, f_1dq, clp_set fb 0 lineNumber h tc1).

Definition split1D_line (c : Comb) (lineNumber : Z)
    (st : PhaseTracker * FrameBuffer) : PhaseTracker * FrameBuffer :=
  let '(t, fb) := st in
  let t := trackLine lineNumber t in
  let '(_, _, fb) :=
    for_range (activeVideoStart (configuration c)) (activeVideoEnd (configuration c))
      (split1D_pixel c (invertphase t) lineNumber)
      (f_colorlpi, f_colorlpq, fb) in
  (t, fb).

Definition split1D (c : Comb) (frameBuffer : FrameBuffer) : FrameBuffer :=
  snd (for_range (firstVisibleFrameLine (configuration c)) (frameHeight c)
         (split1D_line c)
         (initTracker (firstFieldPhaseID frameBuffer) (secondFieldPhaseID frameBuffer),
          frameBuffer)).

(** The line loop of [split1D], the filters left out. *)
Definition split1D_fill (c : Comb) (l : Z) (fb : FrameBuffer) : FrameBuffer :=
  for_range (activeVideoStart (configuration c)) (activeVideoEnd (configuration c))
    (fun h fb' => clp_set fb' 0 l h (qreal_of (split1D_raw c fb' l h))) fb.

(** *** split2D *)

(** The confidence weights and the gain of one pixel, as they stand
    where the 2D value is formed. *)
Record Weights := mkWeights { kp : Q; kn : Q; sc : Q }.

Definition split2D_kp_raw (currentLine previousLine : Z → Q) (h : Z) : Q :=
  let kp := (fabs (fabs (currentLine h) - fabs (previousLine h)))%Q in
  let kp := (kp + fabs (fabs (currentLine (h - 1)%Z) - fabs (previousLine (h - 1)%Z)))%Q in
  let kp := (kp - (fabs (currentLine h) + fabs (currentLine (h - 1)%Z)) * 0.10)%Q in
  kp.

Definition split2D_kn_raw (currentLine nextLine : Z → Q) (h : Z) : Q :=
  let kn := (fabs (fabs (currentLine h) - fabs (nextLine h)))%Q in
  let kn := (kn + fabs (fabs (currentLine (h - 1)%Z) - fabs (nextLine (h - 1)%Z)))%Q in
  let kn := (kn - (fabs (currentLine h) + fabs (nextLine (h - 1)%Z)) * 0.10)%Q in
  kn.

Definition split2D_weights (c : Comb)
    (previousLine currentLine nextLine : Z → Q) (h : Z) : Weights :=
  let kp := split2D_kp_raw currentLine previousLine h in
  let kn := split2D_kn_raw currentLine nextLine h in
  let kp := (kp / 2)%Q in
  let kn := (kn / 2)%Q in
  let p_2drange := (45 * irescale c)%Q in
  let kp := clamp (1 - (kp / p_2drange)) 0 1 in
  let kn := clamp (1 - (kn / p_2drange)) 0 1 in
  let sc := 1.0%Q in
  if Qgtb kn 0 || Qgtb kp 0 then
    let '(kp, kn) :=
      if Qgtb kn (3 * kp) then (0%Q, kn)
      else if Qgtb kp (3 * kn) then (kp, 0%Q)
      else (kp, kn) in
    let sc := (2.0 / (kn + kp))%Q in
    let sc := if Qltb sc 1.0 then 1.0%Q else sc in
    mkWeights kp kn sc
  else
    if Qleb (fabs (fabs (previousLine h) - fabs (nextLine h))
             - fabs ((nextLine h + previousLine h) * 0.2)) 0
    then mkWeights 1 1 sc
    else mkWeights kp kn sc.

(** The 2D value of one pixel. *)
Definition split2D_value (c : Comb) (fb : FrameBuffer) (lineNumber h : Z) : Q :=
  let previousLine := clp fb 0 (lineNumber - 2) in
  let currentLine := clp fb 0 lineNumber in
  let nextLine := clp fb 0 (lineNumber + 2) in
  let w := split2D_weights c previousLine currentLine nextLine h in
  let tc1 := ((clp fb 0 lineNumber h - previousLine h) * kp w * sc w)%Q in
  let tc1 := (tc1 + (clp fb 0 lineNumber h - nextLine h) * kn w * sc w)%Q in
  let tc1 := (tc1 / 8)%Q in
  tc1.

Definition split2D_pixel (c : Comb) (lineNumber h : Z) (fb : FrameBuffer) : FrameBuffer :=
  clp_set fb 1 lineNumber h (split2D_value c fb lineNumber h).

(** The 2D value without the gain [sc]: the two differences weighted by
    [kp] and [kn] alone, over 8. *)
Definition split2D_unscaled (c : Comb) (fb : FrameBuffer) (lineNumber h : Z) : Q :=
  let w := split2D_weights c (clp fb 0 (lineNumber - 2)) (clp fb 0 lineNumber)
                           (clp fb 0 (lineNumber + 2)) h in
  (((clp fb 0 lineNumber h - clp fb 0 (lineNumber - 2) h) * kp w
    + (clp fb 0 lineNumber h - clp fb 0 (lineNumber + 2) h) * kn w) / 8)%Q.

Definition split2D_line (c : Comb) (lineNumber : Z) (fb : FrameBuffer) : FrameBuffer :=
  if (4 <=? lineNumber) && (lineNumber <? frameHeight c - 1)
  then for_range (activeVideoStart (configuration c)) (activeVideoEnd (configuration c))
         (split2D_pixel c lineNumber) fb
  else fb.

Definition split2D (c : Comb) (frameBuffer : FrameBuffer) : FrameBuffer :=
  for_range (firstVisibleFrameLine (configuration c)) (frameHeight c)
    (split2D_line c) frameBuffer.

(** *** split3D *)

Definition split3D_pixel (c : Comb) (previousFrame : FrameBuffer) (lineNumber h : Z)
    (currentFrame : FrameBuffer) : FrameBuffer :=
  clp_set currentFrame 2 lineNumber h
    (qreal_of (Z.quot (rawSample c previousFrame lineNumber h
                       - rawSample c currentFrame lineNumber h) 2)).

Definition split3D (c : Comb) (currentFrame previousFrame : FrameBuffer) : FrameBuffer :=
  for_range (firstVisibleFrameLine (configuration c)) (frameHeight c)
    (fun lineNumber =>
       for_range (activeVideoStart (configuration c)) (activeVideoEnd (configuration c))
         (split3D_pixel c previousFrame lineNumber))
    currentFrame.

(** *** splitIQ *)

(** The chroma value a column demodulates: the 2D value, or the
    motion-weighted mix of the 2D and 3D values. *)
Definition splitIQ_cavg (c : Comb) (fb : FrameBuffer) (lineNumber h : Z) : Q :=
  let cavg := clp fb 1 lineNumber h in
  if use3D (configuration c) && negb (Nat.eqb (length (kValues fb)) 0)
  then
    let cavg :=
      (clp fb 1 lineNumber h * at_ 0 (kValues fb) (lineNumber * 910 + h)%Z)%Q in
    (cavg + clp fb 2 lineNumber h
            * (1 - at_ 0 (kValues fb) (lineNumber * 910 + h)%Z))%Q
  else cavg.

Definition splitIQ_pixel (c : Comb) (invert : bool) (lineNumber h : Z)
    (st : Q * Q * FrameBuffer) : Q * Q * FrameBuffer :=
  let '(si, sq, fb) := st in
  let phase := Z.rem h 4 in
  let cavg := splitIQ_cavg c fb lineNumber h in
  let cavg := if negb invert then (- cavg)%Q else cavg in
  let '(si, sq) :=
    match phase with
    | 0 => (si, cavg)
    | 1 => ((- cavg)%Q, sq)
    | 2 => (si, (- cavg)%Q)
    | 3 => (cavg, sq)
    | _ => (si, sq)
    end in
  (si, sq,
   set_yiqBuffer fb
     (yiq_set (yiqBuffer fb) lineNumber h
        (mkYIQ (qreal_of (rawSample c fb lineNumber h)) si sq))).

Definition splitIQ_line (c : Comb) (lineNumber : Z)
    (st : PhaseTracker * FrameBuffer) : PhaseTracker * FrameBuffer :=
  let '(t, fb) := st in
  let t := trackLine lineNumber t in
  let '(_, _, fb) :=
    for_range (activeVideoStart (configuration c)) (activeVideoEnd (configuration c))
      (splitIQ_pixel c (invertphase t) lineNumber) (0%Q, 0%Q, fb) in
  (t, fb).

Definition splitIQ (c : Comb) (frameBuffer : FrameBuffer) : FrameBuffer :=
  snd (for_range (firstVisibleFrameLine (configuration c)) (frameHeight c)
         (splitIQ_line c)
         (initTracker (firstFieldPhaseID frameBuffer) (secondFieldPhaseID frameBuffer),
          set_yiqBuffer frameBuffer YiqBuffer_clear)).

(** The sign-corrected chroma value of a column, and the I and Q values
    its phase produces from it (0 for a phase that leaves the channel). *)
Definition splitIQ_signed (c : Comb) (fb : FrameBuffer) (invert : bool) (l h : Z) : Q :=
  if negb invert then (- splitIQ_cavg c fb l h)%Q else splitIQ_cavg c fb l h.

Definition demod_I (c : Comb) (fb : FrameBuffer) (invert : bool) (l h : Z) : Q :=
  match Z.rem h 4 with
  | 1 => (- splitIQ_signed c fb invert l h)%Q
  | 3 => splitIQ_signed c fb invert l h
  | _ => 0%Q
  end.

Definition demod_Q (c : Comb) (fb : FrameBuffer) (invert : bool) (l h : Z) : Q :=
  match Z.rem h 4 with
  | 0 => splitIQ_signed c fb invert l h
  | 2 => (- splitIQ_signed c fb invert l h)%Q
  | _ => 0%Q
  end.

(** The pixel [splitIQ] writes at line [l], column [h]. *)
Definition splitIQ_result (c : Comb) (fb : FrameBuffer) (invert : bool) (l h : Z) : YIQ :=
  mkYIQ (qreal_of (rawSample c fb l h))
        (held (demod_I c fb invert l) (last_col isIcol (activeVideoStart (configuration c)) h))
        (held (demod_Q c fb invert l) (last_col isQcol (activeVideoStart (configuration c)) h)).

(** *** filterIQ *)

Definition filterIQ_pixel (lineNumber h : Z)
    (st : Filter * Filter * Q * Q * YiqBuffer) : Filter * Filter * Q * Q * YiqBuffer :=
  let '(f_i, f_q, filti, filtq, yiqBuffer) := st in
  let qoffset := 2 in
  let phase := Z.rem h 4 in
  let '(f_i, f_q, filti, filtq) :=
    match phase with
    | 0 => let '(f, r) := feed f_i (i (yiqBuffer lineNumber h)) in (f, f_q, r, filtq)
    | 1 => let '(f, r) := feed f_q (q (yiqBuffer lineNumber h)) in (f_i, f, filti, r)
    | 2 => let '(f, r) := feed f_i (i (yiqBuffer lineNumber h)) in (f, f_q, r, filtq)
    | 3 => let '(f, r) := feed f_q (q (yiqBuffer lineNumber h)) in (f_i, f, filti, r)
    | _ => (f_i, f_q, filti, filtq)
    end in
  (f_i, f_q, filti, filtq,
   yiq_set yiqBuffer lineNumber (h - qoffset)
     (mkYIQ (y (yiqBuffer lineNumber (h - qoffset))) filti filtq)).

Definition filterIQ_line (c : Comb) (lineNumber : Z) (yiqBuffer : YiqBuffer) : YiqBuffer :=
  let f_i := if colorlpf_hq (configuration c) then f_colorlpi else f_colorlpi in
  let f_q := if colorlpf_hq (configuration c) then f_colorlpi else f_colorlpq in
  snd (for_range (activeVideoStart (configuration c)) (activeVideoEnd (configuration c))
         (filterIQ_pixel lineNumber) (f_i, f_q, 0%Q, 0%Q, yiqBuffer)).

Definition filterIQ (c : Comb) (yiqBuffer : YiqBuffer) : YiqBuffer :=
  for_range (firstVisibleFrameLine (configuration c)) (frameHeight c)
    (filterIQ_line c) yiqBuffer.

(** The object with the quality variant of the chroma filter switched. *)
Definition set_colorlpf_hq (c : Comb) (hq : bool) : Comb :=
  mkComb
    (mkConfiguration
       (blackAndWhite (configuration c)) (whitePoint100 (configuration c))
       (colorlpf (configuration c)) hq
       (fieldWidth (configuration c)) (fieldHeight (configuration c))
       (activeVideoStart (configuration c)) (activeVideoEnd (configuration c))
       (firstVisibleFrameLine (configuration c))
       (blackIre (configuration c)) (whiteIre (configuration c))
       (use3D (configuration c)) (showOpticalFlowMap (configuration c)))
    (irescale c) (frameHeight c) (opticalFlow c) (previousFrameBuffer c).

(** Two YIQ buffers with the same Y and I everywhere. *)
Definition same_YI (b b' : YiqBuffer) : Prop :=
  ∀ l h, y (b l h) = y (b' l h) ∧ i (b l h) = i (b' l h).

(** Two states of the column loop that can differ in the Q filter, the
    filtered Q and the Q components only. *)
Definition same_I_state (st st' : Filter * Filter * Q * Q * YiqBuffer) : Prop :=
  let '(f_i, _, filti, _, b) := st in
  let '(f_i', _, filti', _, b') := st' in
  f_i = f_i' ∧ filti = filti' ∧ same_YI b b'.

(** *** doCNR and doYNR *)

(** [if (fabs(a) > nr) a = (a > 0) ? nr : -nr;] *)
Definition clip (a nr : Q) : Q :=
  if Qgtb (fabs a) nr then (if Qgtb a 0 then nr else (- nr)%Q) else a.

Definition YIQ_zero : YIQ := mkYIQ 0 0 0.

Definition doCNR_feed (lineNumber h : Z)
    (st : Filter * Filter * list YIQ * YiqBuffer) : Filter * Filter * list YIQ * YiqBuffer :=
  let '(f_hpi, f_hpq, hplinef, yiqBuffer) := st in
  let '(f_hpi, ri) := feed f_hpi (i (yiqBuffer lineNumber h)) in
  let hplinef :=
    set_ hplinef h (mkYIQ (y (at_ YIQ_zero hplinef h)) ri (q (at_ YIQ_zero hplinef h))) in
  let '(f_hpq, rq) := feed f_hpq (q (yiqBuffer lineNumber h)) in
  let hplinef :=
    set_ hplinef h (mkYIQ (y (at_ YIQ_zero hplinef h)) (i (at_ YIQ_zero hplinef h)) rq) in
  (f_hpi, f_hpq, hplinef, yiqBuffer).

Definition doCNR_pixel (nr_c : Q) (lineNumber h : Z)
    (st : Filter * Filter * list YIQ * YiqBuffer) : Filter * Filter * list YIQ * YiqBuffer :=
  let '(f_hpi, f_hpq, hplinef, yiqBuffer) := st in
  let ai := i (at_ YIQ_zero hplinef (h + 12)) in
  let aq := q (at_ YIQ_zero hplinef (h + 12)) in
  let ai := clip ai nr_c in
  let aq := clip aq nr_c in
  let p := yiqBuffer lineNumber h in
  (f_hpi, f_hpq, hplinef,
   yiq_set yiqBuffer lineNumber h (mkYIQ (y p) (i p - ai)%Q (q p - aq)%Q)).

Definition doCNR (c : Comb) (yiqBuffer : YiqBuffer) : YiqBuffer :=
  let nr_c := (0.0 * irescale c)%Q in
  let hplinef := fresh YIQ_zero (fieldWidth (configuration c) + 32) in
  snd (for_range (firstVisibleFrameLine (configuration c)) (frameHeight c)
         (fun lineNumber st =>
            let st :=
              for_range (activeVideoStart (configuration c))
                        (activeVideoEnd (configuration c) + 1)
                        (doCNR_feed lineNumber) st in
            for_range (activeVideoStart (configuration c)) (activeVideoEnd (configuration c))
                      (doCNR_pixel nr_c lineNumber) st)
         (f_nrc, f_nrc, hplinef, yiqBuffer)).

Definition doYNR_feed (lineNumber h : Z)
    (st : Filter * list YIQ * YiqBuffer) : Filter * list YIQ * YiqBuffer :=
  let '(f_hpy, hplinef, yiqBuffer) := st in
  let '(f_hpy, ry) := feed f_hpy (y (yiqBuffer lineNumber h)) in
  (f_hpy,
   set_ hplinef h (mkYIQ ry (i (at_ YIQ_zero hplinef h)) (q (at_ YIQ_zero hplinef h))),
   yiqBuffer).

Definition doYNR_pixel (nr_y : Q) (lineNumber h : Z)
    (st : Filter * list YIQ * YiqBuffer) : Filter * list YIQ * YiqBuffer :=
  let '(f_hpy, hplinef, yiqBuffer) := st in
  let a := y (at_ YIQ_zero hplinef (h + 12)) in
  let a := clip a nr_y in
  let p := yiqBuffer lineNumber h in
  (f_hpy, hplinef, yiq_set yiqBuffer lineNumber h (mkYIQ (y p - a)%Q (i p) (q p))).

Definition doYNR (c : Comb) (yiqBuffer : YiqBuffer) : YiqBuffer :=
  let nr_y := (1.0 * irescale c)%Q in
  let hplinef := fresh YIQ_zero (fieldWidth (configuration c) + 32) in
  snd (for_range (firstVisibleFrameLine (configuration c)) (frameHeight c)
         (fun lineNumber st =>
            let st :=
              for_range (activeVideoStart (configuration c))
                        (activeVideoEnd (configuration c) + 1)
                        (doYNR_feed lineNumber) st in
            for_range (activeVideoStart (configuration c)) (activeVideoEnd (configuration c))
                      (doYNR_pixel nr_y lineNumber) st)
         (f_nr, hplinef, yiqBuffer)).

(** Against [b], the buffer [s] has the same I and Q everywhere and the
    very same pixels outside [inside]. *)
Definition ynr_touched (b s : YiqBuffer) (inside : Z → Z → bool) : Prop :=
  ∀ l h,
    i (s l h) = i (b l h) ∧ q (s l h) = q (b l h)
    ∧ (inside l h = false → s l h = b l h).

(** *** adjustY *)

(** The correction the destination column's phase selects from a pixel. *)
Definition adjustY_comp (phase : Z) (p : YIQ) : Q :=
  match phase with
  | 0 => q p
  | 1 => (- i p)%Q
  | 2 => (- q p)%Q
  | 3 => i p
  | _ => 0%Q
  end.

Definition adjustY_pixel (invert : bool) (lineNumber h : Z) (yiqBuffer : YiqBuffer)
    : YiqBuffer :=
  let phase := Z.rem h 4 in
  let p := yiqBuffer lineNumber (h + 2) in
  let comp := adjustY_comp phase p in
  let comp := if invert then (- comp)%Q else comp in
  let p := mkYIQ (y p + comp)%Q (i p) (q p) in
  yiq_set yiqBuffer lineNumber (h + 0) p.

Definition adjustY_line (c : Comb) (lineNumber : Z)
    (st : PhaseTracker * YiqBuffer) : PhaseTracker * YiqBuffer :=
  let '(t, yiqBuffer) := st in
  let t := trackLine lineNumber t in
  (t, for_range (activeVideoStart (configuration c)) (activeVideoEnd (configuration c))
        (adjustY_pixel (invertphase t) lineNumber) yiqBuffer).

Definition adjustY (c : Comb) (yiqBuffer : YiqBuffer)
    (firstFieldPhaseID secondFieldPhaseID : Z) : YiqBuffer :=
  snd (for_range (firstVisibleFrameLine (configuration c)) (frameHeight c)
         (adjustY_line c)
         (initTracker firstFieldPhaseID secondFieldPhaseID, yiqBuffer)).

(** The pixel [adjustY] writes at column [h], from the pixel [p] it read
    at column [h + 2]. *)
Definition adjustY_result (invert : bool) (h : Z) (p : YIQ) : YIQ :=
  mkYIQ (y p + (if invert then - adjustY_comp (Z.rem h 4) p
                else adjustY_comp (Z.rem h 4) p))%Q
        (i p) (q p).

(** *** yiqToRgbFrame *)

Definition yiqToRgbFrame_pixel (c : Comb) (yiqBuffer : YiqBuffer) (burstLevel : Q)
    (lineNumber h : Z) (st : Z * QByteArray) : Z * QByteArray :=
  let '(o, rgbOutputFrame) := st in
  let linePointer := (fieldWidth (configuration c) * 3 * lineNumber) * 2 in
  let yiq := yiqBuffer lineNumber h in
  let '(r, g, b) :=
    RGB_conv (whiteIre (configuration c)) (blackIre (configuration c))
             (whitePoint100 (configuration c)) (blackAndWhite (configuration c))
             yiq burstLevel in
  let rgbOutputFrame := quint16Set rgbOutputFrame linePointer o (static_cast_quint16 r) in
  let o := o + 1 in
  let rgbOutputFrame := quint16Set rgbOutputFrame linePointer o (static_cast_quint16 g) in
  let o := o + 1 in
  let rgbOutputFrame := quint16Set rgbOutputFrame linePointer o (static_cast_quint16 b) in
  let o := o + 1 in
  (o, rgbOutputFrame).

Definition yiqToRgbFrame (c : Comb) (yiqBuffer : YiqBuffer) (burstLevel : Q) : QByteArray :=
  let rgbOutputFrame :=
    fresh x00 ((fieldWidth (configuration c) * frameHeight c * 3) * 2) in
  for_range (firstVisibleFrameLine (configuration c)) (frameHeight c)
    (fun lineNumber rgbOutputFrame =>
       let o := (activeVideoStart (configuration c) * 3) + 6 in
       snd (for_range (activeVideoStart (configuration c))
                      (activeVideoEnd (configuration c))
                      (yiqToRgbFrame_pixel c yiqBuffer burstLevel lineNumber)
                      (o, rgbOutputFrame)))
    rgbOutputFrame.

(** The channel a word of an output line carries: word [k] belongs to
    the pixel of column [(k - 6) / 3] and is its R, G or B according to
    [(k - 6) mod 3]. *)
Definition rgb_channel (c : Comb) (yiqBuffer : YiqBuffer) (burstLevel : Q) (l k : Z) : Z :=
  let '(r, g, b) :=
    RGB_conv (whiteIre (configuration c)) (blackIre (configuration c))
             (whitePoint100 (configuration c)) (blackAndWhite (configuration c))
             (yiqBuffer l ((k - 6) / 3)) burstLevel in
  match (k - 6) mod 3 with
  | 0 => static_cast_quint16 r
  | 1 => static_cast_quint16 g
  | _ => static_cast_quint16 b
  end.

(** The 16-bit word at index [k] of line [l] of the RGB frame: a channel
    of a window pixel, or zero. *)
Definition rgb_word (c : Comb) (yiqBuffer : YiqBuffer) (burstLevel : Q) (l k : Z) : Z :=
  if in_range (firstVisibleFrameLine (configuration c)) (frameHeight c) l
     && in_range (activeVideoStart (configuration c) * 3 + 6)
                 (activeVideoEnd (configuration c) * 3 + 6) k
  then rgb_channel c yiqBuffer burstLevel l k
  else 0.

(** *** overlayOpticalFlowMap *)

Definition overlayOpticalFlowMap_pixel (c : Comb) (frameBuffer : FrameBuffer)
    (lineNumber h : Z) (rgbFrame : QByteArray) : QByteArray :=
  let linePointer := (fieldWidth (configuration c) * 3 * lineNumber) * 2 in
  let intensity :=
    static_cast_qint32 (at_ 0%Q (kValues frameBuffer) ((lineNumber * 910) + h) * 65535)%Q in
  let red := quint16At rgbFrame linePointer (h * 3) + intensity in
  let green := quint16At rgbFrame linePointer ((h * 3) + 2) in
  let blue := quint16At rgbFrame linePointer ((h * 3) + 2) + intensity in
  let red := if red >? 65535 then 65535 else red in
  let green := if green >? 65535 then 65535 else green in
  let blue := if blue >? 65535 then 65535 else blue in
  let rgbFrame := quint16Set rgbFrame linePointer (h * 3) red in
  let rgbFrame := quint16Set rgbFrame linePointer ((h * 3) + 1) green in
  let rgbFrame := quint16Set rgbFrame linePointer ((h * 3) + 2) blue in
  rgbFrame.

Definition overlayOpticalFlowMap (c : Comb) (frameBuffer : FrameBuffer)
    (rgbFrame : QByteArray) : QByteArray :=
  for_range (firstVisibleFrameLine (configuration c)) (frameHeight c)
    (fun lineNumber =>
       for_range (activeVideoStart (configuration c)) (activeVideoEnd (configuration c))
         (overlayOpticalFlowMap_pixel c frameBuffer lineNumber))
    rgbFrame.

(** What [overlayOpticalFlowMap] leaves in word [k] of line [l] when the
    line read [old] before the pixel of column [k / 3] was overlaid: red
    and blue raised by the intensity and saturated, green replaced by the
    word at [h * 3 + 2]. *)
Definition overlay_channel (c : Comb) (frameBuffer : FrameBuffer) (old : Z → Z)
    (l k : Z) : Z :=
  let h := k / 3 in
  let intensity :=
    static_cast_qint32 (at_ 0%Q (kValues frameBuffer) ((l * 910) + h) * 65535)%Q in
  let sat v := (if v >? 65535 then 65535 else v) mod 65536 in
  match k mod 3 with
  | 0 => sat (old (h * 3) + intensity)
  | 1 => old ((h * 3) + 2)
  | _ => sat (old ((h * 3) + 2) + intensity)
  end.

(** *** process *)

(** The interlacing loop: [frameLine] runs over 0, 2, 4, ... below
    [frameHeight], [fieldLine] over 0, 1, 2, ... with it. *)
Definition interlace (c : Comb) (firstFieldInputBuffer secondFieldInputBuffer : QByteArray)
    : QByteArray :=
  for_range 0 ((frameHeight c + 1) / 2)
    (fun fieldLine rawbuffer =>
       let rawbuffer :=
         rawbuffer ++ mid firstFieldInputBuffer
                          (fieldLine * fieldWidth (configuration c) * 2)
                          (fieldWidth (configuration c) * 2) in
       rawbuffer ++ mid secondFieldInputBuffer
                        (fieldLine * fieldWidth (configuration c) * 2)
                        (fieldWidth (configuration c) * 2))
    [].

(** The passes run on the copy [tempYiqBuffer]; [filterIQ] runs on the
    frame's own YIQ buffer. *)
Definition postProcess (c : Comb) (currentFrameBuffer : FrameBuffer)
    : YiqBuffer * FrameBuffer :=
  let tempYiqBuffer := yiqBuffer currentFrameBuffer in
  let tempYiqBuffer :=
    adjustY c tempYiqBuffer (firstFieldPhaseID currentFrameBuffer)
            (secondFieldPhaseID currentFrameBuffer) in
  let currentFrameBuffer :=
    if colorlpf (configuration c)
    then set_yiqBuffer currentFrameBuffer (filterIQ c (yiqBuffer currentFrameBuffer))
    else currentFrameBuffer in
  let tempYiqBuffer := doYNR c tempYiqBuffer in
  let tempYiqBuffer := doCNR c tempYiqBuffer in
  (tempYiqBuffer, currentFrameBuffer).

(** [Comb::process]: the RGB frame, and the object after the call. *)
Definition process (c : Comb) (firstFieldInputBuffer secondFieldInputBuffer : QByteArray)
    (burstMedianIre : Q) (firstFieldPhaseID secondFieldPhaseID : Z) : QByteArray * Comb :=
  let currentFrameBuffer :=
    mkFrameBuffer (interlace c firstFieldInputBuffer secondFieldInputBuffer)
                  (fresh PixelLine_default 3) [] YiqBuffer_clear
                  burstMedianIre firstFieldPhaseID secondFieldPhaseID in
  if negb (use3D (configuration c)) then
    let currentFrameBuffer := split1D c currentFrameBuffer in
    let currentFrameBuffer := split2D c currentFrameBuffer in
    let currentFrameBuffer := splitIQ c currentFrameBuffer in
    let '(tempYiqBuffer, currentFrameBuffer) := postProcess c currentFrameBuffer in
    let rgbOutputBuffer := yiqToRgbFrame c tempYiqBuffer (burstLevel currentFrameBuffer) in
    (rgbOutputBuffer, c)
  else
    let currentFrameBuffer := split1D c currentFrameBuffer in
    let currentFrameBuffer := split2D c currentFrameBuffer in
    let currentFrameBuffer := splitIQ c currentFrameBuffer in
    let '(tempYiqBuffer, currentFrameBuffer) := postProcess c currentFrameBuffer in
    let '(opticalFlow', kValues') :=
      denseOpticalFlow (opticalFlow c) (yiqBuffer currentFrameBuffer)
                       (kValues currentFrameBuffer) in
    let currentFrameBuffer := set_kValues currentFrameBuffer kValues' in
    let currentFrameBuffer := split3D c currentFrameBuffer (previousFrameBuffer c) in
    let currentFrameBuffer := splitIQ c currentFrameBuffer in
    let '(tempYiqBuffer, currentFrameBuffer) := postProcess c currentFrameBuffer in
    let rgbOutputBuffer := yiqToRgbFrame c tempYiqBuffer (burstLevel currentFrameBuffer) in
    let rgbOutputBuffer :=
      if showOpticalFlowMap (configuration c)
      then overlayOpticalFlowMap c currentFrameBuffer rgbOutputBuffer
      else rgbOutputBuffer in
    (rgbOutputBuffer,
     mkComb (configuration c) (irescale c) (frameHeight c) opticalFlow'
            currentFrameBuffer).

(** [Comb::getConfiguration]. *)
Definition getConfiguration (c : Comb) : Configuration := configuration c.

(** The pixel is on a visible line and in an active column: the pixels
    every pass loops over. *)
Definition in_window (c : Comb) (l h : Z) : bool :=
  in_range (firstVisibleFrameLine (configuration c)) (frameHeight c) l
  && in_range (activeVideoStart (configuration c)) (activeVideoEnd (configuration c)) h.

(** Two objects that differ at most in the two chroma low-pass flags and
    in what they retain between calls. *)
Definition same_but_colorlpf (c1 c2 : Comb) : Prop :=
  blackAndWhite (configuration c1) = blackAndWhite (configuration c2)
  ∧ whitePoint100 (configuration c1) = whitePoint100 (configuration c2)
  ∧ fieldWidth (configuration c1) = fieldWidth (configuration c2)
  ∧ fieldHeight (configuration c1) = fieldHeight (configuration c2)
  ∧ activeVideoStart (configuration c1) = activeVideoStart (configuration c2)
  ∧ activeVideoEnd (configuration c1) = activeVideoEnd (configuration c2)
  ∧ firstVisibleFrameLine (configuration c1) = firstVisibleFrameLine (configuration c2)
  ∧ blackIre (configuration c1) = blackIre (configuration c2)
  ∧ whiteIre (configuration c1) = whiteIre (configuration c2)
  ∧ use3D (configuration c1) = use3D (configuration c2)
  ∧ irescale c1 = irescale c2
  ∧ frameHeight c1 = frameHeight c2.

(** The passes read the object through its configuration and the two
    values derived from it only. *)
Definition same_setup (c1 c2 : Comb) : Prop :=
  configuration c1 = configuration c2
  ∧ irescale c1 = irescale c2
  ∧ frameHeight c1 = frameHeight c2.

End Comb.

Arguments Comb : clear implicits.

(** ** A concrete instance for the examples

    A small running FIR filter (coefficients and history), a plain
    RGB matrix and a constant motion map stand in for deemp.h, rgb.h
    and the optical-flow estimator in the worked examples. *)

Module Demo.

Definition FIR := (list Q * list Q)%type.

Definition fir_feed (f : FIR) (val : Q) : FIR * Q :=
  let '(b, x) := f in
  let x := take (length b) (val :: x) in
  ((b, x), fold_right Qplus 0%Q (zip_with Qmult b x)).

Definition fir (b : list Q) : FIR := (b, replicate (length b) 0%Q).

Definition conv (whiteIre blackIre : Q) (whitePoint100 blackAndWhite : bool)
    (p : YIQ) (burstLevel : Q) : Q * Q * Q :=
  if blackAndWhite then (y p, y p, y p)
  else ((y p + i p)%Q, (y p - i p - q p)%Q, (y p + q p)%Q).

Definition externals : Externals :=
  {| Filter := FIR;
     feed := fir_feed;
     f_colorlpi := fir [0.5; 0.5]%Q;
     f_colorlpq := fir [0.25; 0.25; 0.25; 0.25]%Q;
     f_nr := fir [0.5; -0.5]%Q;
     f_nrc := fir [0.5; -0.5]%Q;
     RGB_conv := conv;
     OpticalFlow := unit;
     denseOpticalFlow := fun o _ _ => (o, replicate 4000 0.5%Q) |}.

(** The same, with one filter for both chroma channels. *)
Definition externals_same : Externals :=
  {| Filter := FIR;
     feed := fir_feed;
     f_colorlpi := fir [0.5; 0.5]%Q;
     f_colorlpq := fir [0.5; 0.5]%Q;
     f_nr := fir [0.5; -0.5]%Q;
     f_nrc := fir [0.5; -0.5]%Q;
     RGB_conv := conv;
     OpticalFlow := unit;
     denseOpticalFlow := fun o _ _ => (o, replicate 4000 0.5%Q) |}.

(** Little-endian bytes of a list of 16-bit samples. *)
Definition bytes_of_samples (l : list Z) : QByteArray :=
  flat_map (fun v => [byte_of_Z v; byte_of_Z (v / 256)]) l.

(** An 8-sample-wide, 4-line field geometry: frame lines 0..6, visible
    from [firstVisibleFrameLine], active columns 2..5; black level 0 and
    white level 100, so that [irescale] is 1. *)
Definition cfg (firstVisibleFrameLine : Z) (hq use3d : bool) : Configuration :=
  mkConfiguration false false true hq 8 4 2 6 firstVisibleFrameLine 0 100 use3d false.

(** A freshly constructed object, then [setConfiguration]. *)
Definition comb_from (firstVisibleFrameLine : Z) (hq use3d : bool) : Comb externals :=
  setConfiguration (E := externals) (Comb_new (E := externals) tt)
                   (cfg firstVisibleFrameLine hq use3d).

Definition comb (hq use3d : bool) : Comb externals := comb_from 0 hq use3d.

(** The same object, with a frame retained from an earlier call. *)
Definition comb_after (hq use3d : bool) (previous : FrameBuffer) : Comb externals :=
  mkComb (E := externals) (configuration (comb hq use3d)) (irescale (comb hq use3d))
         (frameHeight (comb hq use3d)) tt previous.

(** A frame of 7 lines of 8 samples. *)
Definition samples : list Z :=
  [ 10; 20; 30; 40; 50; 60; 70; 80;
    12;  8; 16;  6; 24; 10; 18; 14;
    90; 80; 70; 60; 50; 40; 30; 20;
     7; 11; 13; 17; 19; 23; 29; 31;
   100; 96; 92; 88; 84; 80; 76; 72;
     3;  1;  4;  1;  5;  9;  2;  6;
    64; 32; 16;  8;  4;  2;  1;  0 ].

Definition frame (firstFieldPhaseID secondFieldPhaseID : Z) : FrameBuffer :=
  mkFrameBuffer (bytes_of_samples samples) (fresh PixelLine_default 3) []
                YiqBuffer_clear 0 firstFieldPhaseID secondFieldPhaseID.

(** The two fields of that frame: its even lines and its odd lines. *)
Definition firstField : QByteArray :=
  bytes_of_samples
    [ 10; 20; 30; 40; 50; 60; 70; 80;
      90; 80; 70; 60; 50; 40; 30; 20;
     100; 96; 92; 88; 84; 80; 76; 72;
      64; 32; 16;  8;  4;  2;  1;  0 ].

Definition secondField : QByteArray :=
  bytes_of_samples
    [ 12;  8; 16;  6; 24; 10; 18; 14;
       7; 11; 13; 17; 19; 23; 29; 31;
       3;  1;  4;  1;  5;  9;  2;  6 ].


(** A YIQ plane with Y = 100 l + h, I = h, Q = -l. *)
Definition ramp : YiqBuffer :=
  fun l h => mkYIQ (inject_Z (100 * l + h)) (inject_Z h) (inject_Z (- l)).

End Demo.

(** ** Proof steps *)

(** Case analysis on the value of [h % 4] in a [switch]. *)
Ltac case_phase h :=
  destruct (Z.rem h 4) as [|[[?|?|]|[?|?|]|]|?]; simpl.

(** Rewriting with the three equations of [same_setup]. *)
Ltac same_setup_tac H :=
  destruct H as (H1 & H2 & H3); rewrite ?H1, ?H2, ?H3; reflexivity.

(** Rewriting with the equations of [same_but_colorlpf]. *)
Ltac same_but_colorlpf_tac H :=
  destruct H as (Hc1 & Hc2 & Hc3 & Hc4 & Hc5 & Hc6 & Hc7 & Hc8 & Hc9 & Hc10 & Hc11 & Hc12);
  rewrite ?Hc1, ?Hc2, ?Hc3, ?Hc4, ?Hc5, ?Hc6, ?Hc7, ?Hc8, ?Hc9, ?Hc10, ?Hc11, ?Hc12;
  reflexivity.

(** ** Loop and container lemmas *)

Section Loops.
Context {S : Type}.
Implicit Types (body : Z → S → S) (s : S).

Lemma for_range_nil lo hi body s : hi <= lo → for_range lo hi body s = s.
Proof. intros H. unfold for_range. rewrite seqZ_nil by lia. reflexivity. Qed.

Lemma for_range_first lo hi body s :
  lo < hi → for_range lo hi body s = for_range (lo + 1) hi body (body lo s).
Proof.
  intros H. unfold for_range. rewrite seqZ_cons by lia. simpl.
  f_equal. f_equal; lia.
Qed.

Lemma for_range_last lo hi body s :
  lo <= hi → for_range lo (hi + 1) body s = body hi (for_range lo hi body s).
Proof.
  intros H. unfold for_range.
  replace (hi + 1 - lo) with ((hi - lo) + 1) by lia.
  rewrite seqZ_app by lia. rewrite fold_left_app.
  rewrite (seqZ_cons _ 1) by lia. rewrite seqZ_nil by lia. simpl.
  f_equal. lia.
Qed.

(** Invariant rule: [P k s] holds of the state before iteration [k]. *)
Lemma for_range_ind (P : Z → S → Prop) lo hi body s :
  lo <= hi →
  P lo s →
  (∀ k s', lo <= k < hi → P k s' → P (k + 1) (body k s')) →
  P hi (for_range lo hi body s).
Proof.
  intros Hle H0 Hstep.
  replace hi with (lo + Z.of_nat (Z.to_nat (hi - lo))) by lia.
  assert (Hb : lo + Z.of_nat (Z.to_nat (hi - lo)) <= hi) by lia.
  induction (Z.to_nat (hi - lo)) as [|n IH].
  - rewrite for_range_nil by lia. replace (lo + Z.of_nat 0) with lo by lia. exact H0.
  - replace (lo + Z.of_nat (Datatypes.S n)) with (lo + Z.of_nat n + 1) by lia.
    rewrite for_range_last by lia. apply Hstep; [lia|]. apply IH. lia.
Qed.

(** A property each iteration preserves holds after the loop. *)
Lemma for_range_inv (P : S → Prop) lo hi body s :
  P s → (∀ k s', lo <= k < hi → P s' → P (body k s')) → P (for_range lo hi body s).
Proof.
  intros H0 Hstep. destruct (Z_le_gt_dec lo hi) as [Hle|Hgt].
  - apply (for_range_ind (fun _ => P)); auto.
  - rewrite for_range_nil by lia. exact H0.
Qed.

End Loops.

(** Two loops over the same range keep a relation between their states. *)
Lemma for_range_rel {S1 S2 : Type} (R : S1 → S2 → Prop) lo hi
    (body1 : Z → S1 → S1) (body2 : Z → S2 → S2) s1 s2 :
  R s1 s2 →
  (∀ k a b, lo <= k < hi → R a b → R (body1 k a) (body2 k b)) →
  R (for_range lo hi body1 s1) (for_range lo hi body2 s2).
Proof.
  intros H0 Hstep. destruct (Z_le_gt_dec lo hi) as [Hle|Hgt].
  - apply (for_range_ind
             (fun k (p : S1 * S2) => R (fst p) (snd p)
                ∧ fst p = for_range lo k body1 s1 ∧ snd p = for_range lo k body2 s2)
             lo hi (fun k p => (body1 k (fst p), body2 k (snd p))) (s1, s2)) in Hle.
    + destruct Hle as (HR & H1 & H2). rewrite <- H1, <- H2. exact HR.
    + simpl. rewrite !for_range_nil by lia. auto.
    + intros k [a b] Hk (HR & H1 & H2). simpl in *. subst.
      rewrite !for_range_last by lia. auto.
  - rewrite !for_range_nil by lia. exact H0.
Qed.

Lemma for_range_ext {S : Type} lo hi (body1 body2 : Z → S → S) s :
  (∀ k s', lo <= k < hi → body1 k s' = body2 k s') →
  for_range lo hi body1 s = for_range lo hi body2 s.
Proof.
  intros H. apply (for_range_rel eq); [reflexivity|].
  intros k a b Hk ->. apply H. exact Hk.
Qed.

(** A loop over a pair whose components do not interact. *)
Lemma for_range_pair {A B : Type} lo hi (f : Z → A → A) (g : Z → B → B) a b :
  for_range lo hi (fun k p => (f k (fst p), g k (snd p))) (a, b)
  = (for_range lo hi f a, for_range lo hi g b).
Proof.
  destruct (Z_le_gt_dec lo hi) as [Hle|Hgt].
  - apply (for_range_ind
             (fun k p => p = (for_range lo k f a, for_range lo k g b))); [assumption| |].
    + rewrite !for_range_nil by lia. reflexivity.
    + intros k p Hk ->. simpl. rewrite !for_range_last by lia. reflexivity.
  - rewrite !for_range_nil by lia. reflexivity.
Qed.

Section Containers.
Context {A : Type}.
Implicit Types (v : list A) (d x : A).

Lemma length_set_ v n x : length (set_ v n x) = length v.
Proof. unfold set_. destruct (n <? 0); [reflexivity | apply length_insert]. Qed.

Lemma at_set_eq d v n x :
  0 <= n < Z.of_nat (length v) → at_ d (set_ v n x) n = x.
Proof.
  intros H. unfold at_, set_. destruct (Z.ltb_spec n 0); [lia|].
  rewrite list_lookup_insert_eq by lia. reflexivity.
Qed.

Lemma at_set_ne d v n m x : n ≠ m → at_ d (set_ v n x) m = at_ d v m.
Proof.
  intros H. unfold at_, set_.
  destruct (Z.ltb_spec m 0); [reflexivity|].
  destruct (Z.ltb_spec n 0); [reflexivity|].
  rewrite list_lookup_insert_ne by lia. reflexivity.
Qed.

End Containers.

(** ** Writes into one chroma plane *)

Lemma in_range_spec lo hi k : in_range lo hi k = true ↔ lo <= k < hi.
Proof. unfold in_range. rewrite andb_true_iff, Z.leb_le, Z.ltb_lt. tauto. Qed.

Lemma in_range_false lo hi k : in_range lo hi k = false ↔ ¬ (lo <= k < hi).
Proof. rewrite <- in_range_spec. destruct (in_range lo hi k); split; congruence. Qed.

Lemma agree_off_refl n fb : agree_off n fb fb.
Proof. unfold agree_off. tauto. Qed.

Lemma agree_off_clp_set n fb fb0 l h v :
  agree_off n fb fb0 → agree_off n (clp_set fb n l h v) fb0.
Proof.
  intros (Hr & Hl & Hp & Hrest). unfold agree_off, clp_set. simpl.
  rewrite length_set_. repeat split; try tauto.
  intros m Hm. rewrite at_set_ne by congruence. auto.
Qed.

Lemma clp_clp_set fb n l h v l' h' :
  clp (clp_set fb n l h v) n l' h'
  = if has_plane fb n && (l' =? l) && (h' =? h) then v else clp fb n l' h'.
Proof.
  unfold clp, clp_set, has_plane. simpl.
  destruct (Z.leb_spec 0 n); simpl.
  - destruct (Z.ltb_spec n (Z.of_nat (length (clpbuffer fb)))); simpl.
    + rewrite at_set_eq by lia. simpl. reflexivity.
    + unfold set_. destruct (Z.ltb_spec n 0); [lia|].
      rewrite list_insert_ge by lia. reflexivity.
  - unfold set_. destruct (Z.ltb_spec n 0); [reflexivity | lia].
Qed.

Lemma has_plane_agree n m fb fb0 :
  agree_off n fb fb0 → has_plane fb m = has_plane fb0 m.
Proof. intros (_ & Hl & _). unfold has_plane. rewrite Hl. reflexivity. Qed.

(** One row of writes [clpbuffer[n].pixel[l][h] = g fb h], where [g]
    does not read plane [n]. *)
Lemma clp_fill_row n l lo hi (g : FrameBuffer → Z → Q) fb0 fb :
  (∀ fb' h, agree_off n fb' fb0 → g fb' h = g fb0 h) →
  agree_off n fb fb0 →
  let out := for_range lo hi (fun h fb' => clp_set fb' n l h (g fb' h)) fb in
  agree_off n out fb0
  ∧ ∀ l' h', clp out n l' h'
             = if has_plane fb0 n && (l' =? l) && in_range lo hi h'
               then g fb0 h' else clp fb n l' h'.
Proof.
  intros Hg Hfb. simpl.
  destruct (Z_le_gt_dec lo hi) as [Hle|Hgt].
  2:{ rewrite for_range_nil by lia. split; [assumption|].
      intros l' h'. replace (in_range lo hi h') with false.
      - rewrite andb_false_r. reflexivity.
      - symmetry. apply in_range_false. lia. }
  apply (for_range_ind
           (fun k s => agree_off n s fb0
              ∧ ∀ l' h', clp s n l' h'
                         = if has_plane fb0 n && (l' =? l) && in_range lo k h'
                           then g fb0 h' else clp fb n l' h')); [assumption| |].
  - split; [assumption|]. intros l' h'. replace (in_range lo lo h') with false.
    + rewrite andb_false_r. reflexivity.
    + symmetry. apply in_range_false. lia.
  - intros k s Hk [Hag Hval]. split; [apply agree_off_clp_set; assumption|].
    intros l' h'. rewrite clp_clp_set, Hval, (Hg s k Hag).
    rewrite (has_plane_agree n n s fb0 Hag).
    destruct (has_plane fb0 n); simpl; [|reflexivity].
    destruct (Z.eqb_spec l' l); simpl; [|reflexivity].
    destruct (Z.eqb_spec h' k) as [->|Hne].
    + replace (in_range lo (k + 1) k) with true; [reflexivity|].
      symmetry. apply in_range_spec. lia.
    + replace (in_range lo (k + 1) h') with (in_range lo k h'); [reflexivity|].
      unfold in_range. destruct (Z.leb_spec lo h'); simpl; [|reflexivity].
      destruct (Z.ltb_spec h' k), (Z.ltb_spec h' (k + 1)); try reflexivity; lia.
Qed.

(** The same over a frame: lines [l0..l1), of which those with
    [active l] are written over the columns [h0..h1). *)
Lemma clp_fill_frame n (g : FrameBuffer → Z → Z → Q) (active : Z → bool)
    l0 l1 h0 h1 fb0 :
  (∀ fb' l h, agree_off n fb' fb0 → g fb' l h = g fb0 l h) →
  let out :=
    for_range l0 l1
      (fun l fb' =>
         if active l
         then for_range h0 h1 (fun h fb'' => clp_set fb'' n l h (g fb'' l h)) fb'
         else fb') fb0 in
  agree_off n out fb0
  ∧ ∀ l h, clp out n l h
           = if has_plane fb0 n && in_range l0 l1 l && active l && in_range h0 h1 h
             then g fb0 l h else clp fb0 n l h.
Proof.
  intros Hg. simpl.
  destruct (Z_le_gt_dec l0 l1) as [Hle|Hgt].
  2:{ rewrite for_range_nil by lia. split; [apply agree_off_refl|].
      intros l h. replace (in_range l0 l1 l) with false.
      - rewrite andb_false_r. reflexivity.
      - symmetry. apply in_range_false. lia. }
  apply (for_range_ind
           (fun k s => agree_off n s fb0
              ∧ ∀ l h, clp s n l h
                       = if has_plane fb0 n && in_range l0 k l && active l
                            && in_range h0 h1 h
                         then g fb0 l h else clp fb0 n l h)); [assumption| |].
  - split; [apply agree_off_refl|]. intros l h. replace (in_range l0 l0 l) with false.
    + rewrite andb_false_r. reflexivity.
    + symmetry. apply in_range_false. lia.
  - intros k s Hk [Hag Hval].
    assert (Hin : ∀ l, in_range l0 (k + 1) l = (l =? k) || in_range l0 k l).
    { intros l. unfold in_range.
      destruct (Z.eqb_spec l k), (Z.leb_spec l0 l), (Z.ltb_spec l k),
        (Z.ltb_spec l (k + 1)); simpl; try reflexivity; lia. }
    destruct (active k) eqn:Hact.
    + destruct (clp_fill_row n k h0 h1 (fun f h => g f k h) fb0 s) as [Hag' Hval'];
        [intros; apply Hg; assumption | assumption |].
      split; [exact Hag'|]. intros l h. rewrite Hval', Hval, Hin.
      destruct (has_plane fb0 n); simpl; [|reflexivity].
      destruct (Z.eqb_spec l k) as [->|Hne]; simpl; [|reflexivity].
      rewrite Hact. replace (in_range l0 k k) with false; simpl.
      * destruct (in_range h0 h1 h); reflexivity.
      * symmetry. apply in_range_false. lia.
    + split; [exact Hag|]. intros l h. rewrite Hval, Hin.
      destruct (has_plane fb0 n); simpl; [|reflexivity].
      destruct (Z.eqb_spec l k) as [->|Hne]; simpl; [|reflexivity].
      rewrite Hact. simpl. replace (in_range l0 k k) with false; [reflexivity|].
      symmetry. apply in_range_false. lia.
Qed.

(** ** split3D *)

Section Split3D.
Context {E : Externals}.
Implicit Types (c : Comb E).

Lemma byteZ_nonneg b : 0 <= byteZ b.
Proof. unfold byteZ. lia. Qed.

Lemma rawSample_nonneg c fb l h : 0 <= rawSample c fb l h.
Proof.
  unfold rawSample, quint16At.
  pose proof (byteZ_nonneg
    (at_ x00 (rawbuffer fb) (l * fieldWidth (configuration c) * 2 + 2 * h))).
  pose proof (byteZ_nonneg
    (at_ x00 (rawbuffer fb) (l * fieldWidth (configuration c) * 2 + 2 * h + 1))).
  lia.
Qed.

(** Under [covers_window] the two bytes of the sample of a visible line
    and an active column lie inside the raw buffer. *)
Lemma covers_window_in_bounds c fb l h :
  covers_window c fb = true →
  firstVisibleFrameLine (configuration c) <= l < frameHeight c →
  activeVideoStart (configuration c) <= h < activeVideoEnd (configuration c) →
  0 <= (l * fieldWidth (configuration c)) * 2 + 2 * h
  ∧ (l * fieldWidth (configuration c)) * 2 + 2 * h + 1 < Z.of_nat (length (rawbuffer fb)).
Proof.
  unfold covers_window. rewrite !andb_true_iff, !Z.leb_le.
  intros [[[Hf Hs] He] Hlen] Hl Hh. split; nia.
Qed.

Lemma rawSample_agree c n fb fb0 l h :
  agree_off n fb fb0 → rawSample c fb l h = rawSample c fb0 l h.
Proof. intros (Hr & _). unfold rawSample. rewrite Hr. reflexivity. Qed.

(** What [split3D] leaves in plane 2, and that it touches nothing else. *)
Lemma split3D_spec c currentFrame previousFrame :
  agree_off 2 (split3D c currentFrame previousFrame) currentFrame
  ∧ ∀ l h,
      clp (split3D c currentFrame previousFrame) 2 l h
      = if has_plane currentFrame 2
           && in_range (firstVisibleFrameLine (configuration c)) (frameHeight c) l
           && true
           && in_range (activeVideoStart (configuration c))
                       (activeVideoEnd (configuration c)) h
        then qreal_of (Z.quot (rawSample c previousFrame l h
                               - rawSample c currentFrame l h) 2)
        else clp currentFrame 2 l h.
Proof.
  apply (clp_fill_frame 2
           (fun fb l h => qreal_of (Z.quot (rawSample c previousFrame l h
                                            - rawSample c fb l h) 2))
           (fun _ => true)).
  intros fb' l h Hag. rewrite (rawSample_agree c 2 fb' currentFrame l h Hag).
  reflexivity.
Qed.


End Split3D.



(** ** Arithmetic *)

Lemma Qopp_opp_eq (x : Q) : (- - x)%Q = x.
Proof. destruct x as [n d]. unfold Qopp. simpl. rewrite Z.opp_involutive. reflexivity. Qed.

(** ** The phase-inversion tracker *)

(** The flag of a line is the negation of the flag of the line two
    above it, which belongs to the same field. *)
Lemma trackLine_two l t :
  invertphase (trackLine (l + 2) (trackLine (l + 1) (trackLine l t)))
  = negb (invertphase (trackLine l t)).
Proof.
  unfold trackLine.
  destruct (Z.eqb_spec (Z.rem l 2) 0) as [H0|H0],
           (Z.eqb_spec (Z.rem (l + 1) 2) 0) as [H1|H1],
           (Z.eqb_spec (Z.rem (l + 2) 2) 0) as [H2|H2];
    simpl; try reflexivity; exfalso; revert H0 H1 H2;
    Z.quot_rem_to_equations; lia.
Qed.

Lemma lineInvertphase_alternates first id1 id2 l :
  first <= l →
  lineInvertphase first id1 id2 (l + 2) = negb (lineInvertphase first id1 id2 l).
Proof.
  intros H. unfold lineInvertphase.
  rewrite (for_range_last first (l + 2)) by lia.
  replace (l + 2) with (l + 1 + 1) at 2 by lia.
  rewrite (for_range_last first (l + 1)) by lia.
  rewrite (for_range_last first l) by lia.
  replace (l + 1 + 1) with (l + 2) by lia.
  apply trackLine_two.
Qed.

Lemma lineInvertphase_first first id1 id2 :
  lineInvertphase first id1 id2 first
  = negb (if Z.rem first 2 =? 0
          then (id1 =? 2) || (id1 =? 3) else (id2 =? 1) || (id2 =? 4)).
Proof.
  unfold lineInvertphase. rewrite for_range_last, for_range_nil by lia.
  unfold trackLine, initTracker. destruct (Z.rem first 2 =? 0); reflexivity.
Qed.

(** ** split1D *)

Section Split1D.
Context {E : Externals}.
Implicit Types (c : Comb E).

Lemma split1D_pixel_fb c inv l h f1 f2 fb :
  snd (split1D_pixel c inv l h (f1, f2, fb))
  = clp_set fb 0 l h (qreal_of (split1D_raw c fb l h)).
Proof.
  unfold split1D_pixel.
  destruct inv; simpl; case_phase h;
    repeat match goal with |- context [feed ?f ?x] => destruct (feed f x) end;
    simpl; rewrite ?Qopp_opp_eq; reflexivity.
Qed.

Lemma split1D_line_fb c l t fb :
  split1D_line c l (t, fb) = (trackLine l t, split1D_fill c l fb).
Proof.
  unfold split1D_line, split1D_fill.
  pose proof (for_range_rel
    (fun (st : Filter * Filter * FrameBuffer) (fb' : FrameBuffer) => snd st = fb')
    (activeVideoStart (configuration c)) (activeVideoEnd (configuration c))
    (split1D_pixel c (invertphase (trackLine l t)) l)
    (fun h fb' => clp_set fb' 0 l h (qreal_of (split1D_raw c fb' l h)))
    (f_colorlpi, f_colorlpq, fb) fb eq_refl) as H.
  destruct (for_range _ _ (split1D_pixel c _ l) _) as [[g1 g2] fb1].
  simpl in H. rewrite <- H; [reflexivity|].
  intros k [[a1 a2] a3] b _ Hab. simpl in Hab. subst b. apply split1D_pixel_fb.
Qed.

Lemma split1D_lines c l0 l1 t fb :
  for_range l0 l1 (split1D_line c) (t, fb)
  = (for_range l0 l1 trackLine t, for_range l0 l1 (split1D_fill c) fb).
Proof.
  rewrite <- for_range_pair. apply for_range_ext.
  intros k [t' fb'] _. apply split1D_line_fb.
Qed.

Lemma split1D_raw_agree c n fb fb0 l h :
  agree_off n fb fb0 → split1D_raw c fb l h = split1D_raw c fb0 l h.
Proof.
  intros Hag. unfold split1D_raw.
  rewrite !(rawSample_agree c n fb fb0) by assumption. reflexivity.
Qed.

(** What [split1D] leaves in plane 0, and that it touches nothing else. *)
Lemma split1D_spec c fb :
  agree_off 0 (split1D c fb) fb
  ∧ ∀ l h,
      clp (split1D c fb) 0 l h
      = if has_plane fb 0
           && in_range (firstVisibleFrameLine (configuration c)) (frameHeight c) l
           && true
           && in_range (activeVideoStart (configuration c))
                       (activeVideoEnd (configuration c)) h
        then qreal_of (split1D_raw c fb l h)
        else clp fb 0 l h.
Proof.
  unfold split1D. rewrite split1D_lines. simpl.
  apply (clp_fill_frame 0 (fun fb' l h => qreal_of (split1D_raw c fb' l h))
                        (fun _ => true)).
  intros fb' l h Hag. rewrite (split1D_raw_agree c 0 fb' fb l h Hag). reflexivity.
Qed.

(** C4, as amended: for a visible line and an active column the value
    [split1D] stores as the 1D chroma estimate is the truncated average of
    the samples two columns to either side minus the sample itself, with
    the same sign whatever the line's phase-inversion state (the pass
    negates the value for the filters and negates it back before storing). *)
Theorem split1D_value c fb lineNumber h :
  has_plane fb 0 = true →
  firstVisibleFrameLine (configuration c) <= lineNumber < frameHeight c →
  activeVideoStart (configuration c) <= h < activeVideoEnd (configuration c) →
  clp (split1D c fb) 0 lineNumber h
  = qreal_of ((rawSample c fb lineNumber (h + 2) + rawSample c fb lineNumber (h - 2)) / 2
              - rawSample c fb lineNumber h).
Proof.
  intros Hp Hl Hh. destruct (split1D_spec c fb) as [_ Hv].
  rewrite Hv, Hp. apply in_range_spec in Hl. apply in_range_spec in Hh.
  rewrite Hl, Hh. simpl. unfold split1D_raw.
  rewrite Z.quot_div_nonneg; [reflexivity| |lia].
  pose proof (rawSample_nonneg c fb lineNumber (h + 2)).
  pose proof (rawSample_nonneg c fb lineNumber (h - 2)). lia.
Qed.

End Split1D.

Lemma split1D_value_witness :
  clp (split1D (Demo.comb true false) (Demo.frame 1 1)) 0 3 4
  = qreal_of ((rawSample (Demo.comb true false) (Demo.frame 1 1) 3 (4 + 2)
               + rawSample (Demo.comb true false) (Demo.frame 1 1) 3 (4 - 2)) / 2
              - rawSample (Demo.comb true false) (Demo.frame 1 1) 3 4).
Proof.
  apply (split1D_value (E := Demo.externals)); [reflexivity | |].
  - vm_compute. split; [discriminate | reflexivity].
  - vm_compute. split; [discriminate | reflexivity].
Defined.

(** C4, as stated, fails: line 1 is not inverted and line 3 is, yet at
    column 4 both store the raw difference itself (-7 and 2), neither its
    negation. *)
Lemma split1D_sign_counterexample :
  lineInvertphase 0 1 1 1 = false
  ∧ lineInvertphase 0 1 1 3 = true
  ∧ split1D_raw (Demo.comb true false) (Demo.frame 1 1) 1 4 = -7
  ∧ split1D_raw (Demo.comb true false) (Demo.frame 1 1) 3 4 = 2
  ∧ (clp (split1D (Demo.comb true false) (Demo.frame 1 1)) 0 1 4 == -7)%Q
  ∧ (clp (split1D (Demo.comb true false) (Demo.frame 1 1)) 0 3 4 == 2)%Q
  ∧ ¬ (clp (split1D (Demo.comb true false) (Demo.frame 1 1)) 0 1 4
       == - qreal_of (split1D_raw (Demo.comb true false) (Demo.frame 1 1) 1 4))%Q
  ∧ ¬ (clp (split1D (Demo.comb true false) (Demo.frame 1 1)) 0 3 4
       == - qreal_of (split1D_raw (Demo.comb true false) (Demo.frame 1 1) 3 4))%Q.
Proof.
  repeat split; try (vm_compute; reflexivity);
    intros H; vm_compute in H; discriminate H.
Qed.

(** ** Comparisons and [clamp] *)

Lemma Qltb_true x y : Qltb x y = true ↔ (x < y)%Q.
Proof.
  unfold Qltb. rewrite Qlt_alt. destruct (x ?= y)%Q; split; congruence.
Qed.

Lemma Qltb_false x y : Qltb x y = false ↔ (y <= x)%Q.
Proof.
  unfold Qltb. destruct (Qcompare_spec x y) as [H|H|H].
  - split; [intros _; rewrite H; apply Qle_refl | reflexivity].
  - split; [discriminate|]. intros H'. exfalso.
    apply (Qlt_irrefl x). eapply Qlt_le_trans; eassumption.
  - split; [intros _; apply Qlt_le_weak; assumption | reflexivity].
Qed.

Lemma Qgtb_true x y : Qgtb x y = true ↔ (y < x)%Q.
Proof. apply Qltb_true. Qed.

Lemma Qgtb_false x y : Qgtb x y = false ↔ (x <= y)%Q.
Proof. apply Qltb_false. Qed.

Lemma Qleb_true x y : Qleb x y = true ↔ (x <= y)%Q.
Proof. unfold Qleb. rewrite negb_true_iff. apply Qltb_false. Qed.

(** [clamp] returns [low] below, [high] above, the value in between. *)
Lemma clamp_cases v low high :
  ((v < low)%Q ∧ clamp v low high = low)
  ∨ ((low <= v)%Q ∧ (high < v)%Q ∧ clamp v low high = high)
  ∨ ((low <= v)%Q ∧ (v <= high)%Q ∧ clamp v low high = v).
Proof.
  unfold clamp. destruct (Qltb v low) eqn:H1.
  - left. apply Qltb_true in H1. auto.
  - apply Qltb_false in H1. destruct (Qgtb v high) eqn:H2.
    + right; left. apply Qgtb_true in H2. auto.
    + right; right. apply Qgtb_false in H2. auto.
Qed.

Lemma clamp_bounds v low high :
  (low <= high)%Q → (low <= clamp v low high <= high)%Q.
Proof.
  intros H. destruct (clamp_cases v low high) as [[? ->]|[(? & ? & ->)|(? & ? & ->)]];
    split; try assumption; apply Qle_refl.
Qed.

(** ** split2D *)

Section Split2D.
Context {E : Externals}.
Implicit Types (c : Comb E).

(** The weights lie in [0,1] and the gain normalises their sum to 2,
    whatever the samples and the IRE scale. *)
Lemma split2D_weights_range c (previousLine currentLine nextLine : Z → Q) h :
  let w := split2D_weights c previousLine currentLine nextLine h in
  (0 <= kp w <= 1)%Q ∧ (0 <= kn w <= 1)%Q
  ∧ (sc w == if Qgtb (kp w + kn w) 0 then 2 / (kp w + kn w) else 1)%Q.
Proof.
  unfold split2D_weights.
  set (kpc := clamp (1 - split2D_kp_raw currentLine previousLine h / 2
                         / (45 * irescale c)) 0 1).
  set (knc := clamp (1 - split2D_kn_raw currentLine nextLine h / 2
                         / (45 * irescale c)) 0 1).
  assert (Hp : (0 <= kpc <= 1)%Q) by (apply clamp_bounds; lra).
  assert (Hn : (0 <= knc <= 1)%Q) by (apply clamp_bounds; lra).
  assert (Hsc : ∀ s : Q, (0 < s)%Q → (s <= 2)%Q →
            ((if Qltb (2.0 / s) 1.0 then 1.0 else 2.0 / s) == 2 / s)%Q).
  { intros s H0 H2. destruct (Qltb (2.0 / s) 1.0) eqn:Hlt.
    - apply Qltb_true in Hlt.
      assert (1.0 <= 2.0 / s)%Q by (apply Qle_shift_div_l; lra). lra.
    - unfold Qdiv. lra. }
  destruct (Qgtb knc 0 || Qgtb kpc 0) eqn:Hpos.
  - assert (Hsum : (0 < knc + kpc)%Q).
    { apply orb_true_iff in Hpos. destruct Hpos as [H|H]; apply Qgtb_true in H; lra. }
    destruct (Qgtb knc (3 * kpc)) eqn:H1; [|destruct (Qgtb kpc (3 * knc)) eqn:H2];
      cbn [kp kn sc].
    + apply Qgtb_true in H1.
      replace (Qgtb (0 + knc) 0) with true by (symmetry; apply Qgtb_true; lra).
      repeat split; try lra.
      rewrite Hsc by lra. apply Qdiv_comp; lra.
    + apply Qgtb_true in H2.
      replace (Qgtb (kpc + 0) 0) with true by (symmetry; apply Qgtb_true; lra).
      repeat split; try lra.
      rewrite Hsc by lra. apply Qdiv_comp; lra.
    + replace (Qgtb (kpc + knc) 0) with true by (symmetry; apply Qgtb_true; lra).
      repeat split; try lra.
      rewrite Hsc by lra. apply Qdiv_comp; lra.
  - apply orb_false_iff in Hpos. destruct Hpos as [H1 H2].
    apply Qgtb_false in H1. apply Qgtb_false in H2.
    destruct (Qleb _ 0); cbn [kp kn sc].
    + replace (Qgtb (1 + 1) 0) with true by reflexivity.
      repeat split; lra.
    + replace (Qgtb (kpc + knc) 0) with false by (symmetry; apply Qgtb_false; lra).
      repeat split; lra.
Qed.

Lemma split2D_value_agree c fb fb0 l h :
  agree_off 1 fb fb0 → split2D_value c fb l h = split2D_value c fb0 l h.
Proof.
  intros (_ & _ & Hp & _). unfold split2D_value, clp.
  rewrite (Hp 0) by lia. reflexivity.
Qed.

(** What [split2D] leaves in plane 1, and that it touches nothing else. *)
Lemma split2D_spec c fb :
  agree_off 1 (split2D c fb) fb
  ∧ ∀ l h,
      clp (split2D c fb) 1 l h
      = if has_plane fb 1
           && in_range (firstVisibleFrameLine (configuration c)) (frameHeight c) l
           && ((4 <=? l) && (l <? frameHeight c - 1))
           && in_range (activeVideoStart (configuration c))
                       (activeVideoEnd (configuration c)) h
        then split2D_value c fb l h
        else clp fb 1 l h.
Proof.
  apply (clp_fill_frame 1 (split2D_value c)
           (fun l => (4 <=? l) && (l <? frameHeight c - 1))).
  intros fb' l h Hag. apply split2D_value_agree. exact Hag.
Qed.

(** C3, as amended: for a row that the pass visits and filters, that is
    [max 4 firstVisibleFrameLine <= row < frameHeight - 1], and an active
    column, the stored 2D value is the two weighted differences times the
    gain [sc], over 8, where [sc] is [2 / (kp + kn)] when a weight is
    positive and 1 otherwise; every other row of the plane is left as it
    was. *)
Theorem split2D_estimate c fb :
  has_plane fb 1 = true →
  (∀ l h,
     Z.max 4 (firstVisibleFrameLine (configuration c)) <= l < frameHeight c - 1 →
     activeVideoStart (configuration c) <= h < activeVideoEnd (configuration c) →
     let w := split2D_weights c (clp fb 0 (l - 2)) (clp fb 0 l) (clp fb 0 (l + 2)) h in
     clp (split2D c fb) 1 l h
     = (((clp fb 0 l h - clp fb 0 (l - 2) h) * kp w * sc w
         + (clp fb 0 l h - clp fb 0 (l + 2) h) * kn w * sc w) / 8)%Q
     ∧ (sc w == if Qgtb (kp w + kn w) 0 then 2 / (kp w + kn w) else 1)%Q)
  ∧ (∀ l h,
       ¬ (Z.max 4 (firstVisibleFrameLine (configuration c)) <= l < frameHeight c - 1) →
       clp (split2D c fb) 1 l h = clp fb 1 l h).
Proof.
  intros Hp. destruct (split2D_spec c fb) as [_ Hv]. split.
  - intros l h Hl Hh. split.
    + rewrite Hv, Hp.
      replace (in_range (firstVisibleFrameLine (configuration c)) (frameHeight c) l)
        with true by (symmetry; apply in_range_spec; lia).
      replace (4 <=? l) with true by (symmetry; apply Z.leb_le; lia).
      replace (l <? frameHeight c - 1) with true by (symmetry; apply Z.ltb_lt; lia).
      apply in_range_spec in Hh. rewrite Hh. reflexivity.
    + apply split2D_weights_range.
  - intros l h Hl. rewrite Hv.
    destruct (in_range (firstVisibleFrameLine (configuration c)) (frameHeight c) l)
      eqn:H1; [|rewrite andb_false_r; reflexivity].
    destruct (Z.leb_spec 4 l); [|rewrite andb_false_r; reflexivity].
    destruct (Z.ltb_spec l (frameHeight c - 1)); [|rewrite andb_false_r; reflexivity].
    apply in_range_spec in H1. lia.
Qed.

(** C8: once the object is configured with [whiteIre > blackIre], the
    range [45 * irescale] the weights are divided by is positive, and the
    weights [kp] and [kn] with which [split2D] forms its value both lie in
    [0,1], whatever the chroma samples. *)
Theorem split2D_weights_unit_interval (c0 : Comb E) (cfg : Configuration) fb l h :
  (blackIre cfg < whiteIre cfg)%Q →
  let c := setConfiguration c0 cfg in
  let w := split2D_weights c (clp fb 0 (l - 2)) (clp fb 0 l) (clp fb 0 (l + 2)) h in
  (0 < 45 * irescale c)%Q
  ∧ (0 <= kp w <= 1)%Q ∧ (0 <= kn w <= 1)%Q
  ∧ split2D_value c fb l h
    = (((clp fb 0 l h - clp fb 0 (l - 2) h) * kp w * sc w
        + (clp fb 0 l h - clp fb 0 (l + 2) h) * kn w * sc w) / 8)%Q.
Proof.
  intros Hire c w.
  destruct (split2D_weights_range c (clp fb 0 (l - 2)) (clp fb 0 l) (clp fb 0 (l + 2)) h)
    as (Hkp & Hkn & _).
  split; [|split; [exact Hkp | split; [exact Hkn | reflexivity]]].
  unfold c, setConfiguration, postConfigurationTasks. simpl.
  assert (0 < (whiteIre cfg - blackIre cfg) / 100)%Q.
  { apply Qlt_shift_div_l; lra. }
  lra.
Qed.

End Split2D.

Lemma split2D_estimate_witness :
  clp (split2D (Demo.comb true false) (split1D (Demo.comb true false) (Demo.frame 1 1)))
      1 5 3
  == 1.
Proof.
  destruct (split2D_estimate (E := Demo.externals) (Demo.comb true false)
              (split1D (Demo.comb true false) (Demo.frame 1 1)))
    as [H _]; [vm_compute; reflexivity|].
  destruct (H 5 3) as [Hv _].
  - vm_compute. split; [discriminate | reflexivity].
  - vm_compute. split; [discriminate | reflexivity].
  - rewrite Hv. vm_compute. reflexivity.
Defined.

Lemma split2D_weights_unit_interval_witness :
  (0 <= kp (split2D_weights (Demo.comb true false)
              (clp (split1D (Demo.comb true false) (Demo.frame 1 1)) 0 (5 - 2))
              (clp (split1D (Demo.comb true false) (Demo.frame 1 1)) 0 5)
              (clp (split1D (Demo.comb true false) (Demo.frame 1 1)) 0 (5 + 2)) 3) <= 1)%Q.
Proof.
  apply (split2D_weights_unit_interval (E := Demo.externals)
           (Comb_new (E := Demo.externals) tt) (Demo.cfg 0 true false)
           (split1D (Demo.comb true false) (Demo.frame 1 1)) 5 3).
  vm_compute. reflexivity.
Defined.

(** C3, as stated, fails.  With every line visible, line 5, column 3 has
    weights 24/25 and 24/25 and stores 1, not the unscaled 24/25; with the
    first visible line at 5, line 4 is not visited and keeps its 0, while
    the formula gives -9/5 at column 2. *)
Lemma split2D_unscaled_counterexample :
  (clp (split2D (Demo.comb true false) (split1D (Demo.comb true false) (Demo.frame 1 1)))
       1 5 3 == 1)%Q
  ∧ (split2D_unscaled (Demo.comb true false)
       (split1D (Demo.comb true false) (Demo.frame 1 1)) 5 3 == 24 # 25)%Q
  ∧ ¬ (clp (split2D (Demo.comb true false)
              (split1D (Demo.comb true false) (Demo.frame 1 1))) 1 5 3
       == split2D_unscaled (Demo.comb true false)
            (split1D (Demo.comb true false) (Demo.frame 1 1)) 5 3)%Q
  ∧ frameHeight (Demo.comb_from 5 true false) = 7
  ∧ (clp (split2D (Demo.comb_from 5 true false)
            (split1D (Demo.comb true false) (Demo.frame 1 1))) 1 4 2 == 0)%Q
  ∧ (split2D_unscaled (Demo.comb_from 5 true false)
       (split1D (Demo.comb true false) (Demo.frame 1 1)) 4 2 == - (9 # 5))%Q
  ∧ ¬ (clp (split2D (Demo.comb_from 5 true false)
              (split1D (Demo.comb true false) (Demo.frame 1 1))) 1 4 2
       == split2D_unscaled (Demo.comb_from 5 true false)
            (split1D (Demo.comb true false) (Demo.frame 1 1)) 4 2)%Q.
Proof.
  repeat split; try (vm_compute; reflexivity);
    intros H; vm_compute in H; discriminate H.
Qed.

(** ** adjustY *)

Section AdjustY.
Context {E : Externals}.
Implicit Types (c : Comb E) (b : YiqBuffer).

Lemma yiq_set_get b l h p l' h' :
  yiq_set b l h p l' h' = if (l' =? l) && (h' =? h) then p else b l' h'.
Proof. reflexivity. Qed.

Lemma in_range_last lo k x :
  lo <= k → in_range lo (k + 1) x = (x =? k) || in_range lo k x.
Proof.
  intros H. unfold in_range.
  destruct (Z.eqb_spec x k), (Z.leb_spec lo x), (Z.ltb_spec x k), (Z.ltb_spec x (k + 1));
    simpl; try reflexivity; lia.
Qed.

Lemma in_range_empty lo x : in_range lo lo x = false.
Proof. apply in_range_false. lia. Qed.

Lemma in_range_end lo k x : k <= x → in_range lo k x = false.
Proof. intros H. apply in_range_false. lia. Qed.

Lemma adjustY_row inv l lo hi b :
  ∀ l' h',
    for_range lo hi (adjustY_pixel inv l) b l' h'
    = if (l' =? l) && in_range lo hi h'
      then adjustY_result inv h' (b l (h' + 2)) else b l' h'.
Proof.
  destruct (Z_le_gt_dec lo hi) as [Hle|Hgt].
  2:{ intros l' h'. rewrite for_range_nil by lia.
      replace (in_range lo hi h') with false; [rewrite andb_false_r; reflexivity|].
      symmetry. apply in_range_false. lia. }
  apply (for_range_ind
           (fun k (s : YiqBuffer) => ∀ l' h',
              s l' h' = if (l' =? l) && in_range lo k h'
                        then adjustY_result inv h' (b l (h' + 2)) else b l' h'));
    [assumption| |].
  - intros l' h'. rewrite in_range_empty, andb_false_r. reflexivity.
  - intros k s Hk Hs l' h'. unfold adjustY_pixel. rewrite yiq_set_get.
    rewrite in_range_last by lia. replace (k + 0) with k by lia.
    destruct (Z.eqb_spec l' l) as [->|Hl]; simpl.
    2:{ rewrite Hs. destruct (Z.eqb_spec l' l); [contradiction | reflexivity]. }
    destruct (Z.eqb_spec h' k) as [->|Hh]; simpl.
    + rewrite (Hs l (k + 2)), Z.eqb_refl. simpl.
      replace (in_range lo k (k + 2)) with false; [reflexivity|].
      symmetry. apply in_range_false. lia.
    + rewrite (Hs l h'), Z.eqb_refl. reflexivity.
Qed.

(** What [adjustY] leaves in the buffer. *)
Lemma adjustY_spec c b firstFieldPhaseID secondFieldPhaseID :
  ∀ l h,
    adjustY c b firstFieldPhaseID secondFieldPhaseID l h
    = if in_range (firstVisibleFrameLine (configuration c)) (frameHeight c) l
         && in_range (activeVideoStart (configuration c))
                     (activeVideoEnd (configuration c)) h
      then adjustY_result
             (lineInvertphase (firstVisibleFrameLine (configuration c))
                              firstFieldPhaseID secondFieldPhaseID l)
             h (b l (h + 2))
      else b l h.
Proof.
  unfold adjustY.
  set (first := firstVisibleFrameLine (configuration c)).
  set (t0 := initTracker firstFieldPhaseID secondFieldPhaseID).
  destruct (Z_le_gt_dec first (frameHeight c)) as [Hle|Hgt].
  2:{ intros l h. rewrite for_range_nil by lia. simpl.
      replace (in_range first (frameHeight c) l) with false; [reflexivity|].
      symmetry. apply in_range_false. lia. }
  apply (for_range_ind
           (fun k (st : PhaseTracker * YiqBuffer) =>
              fst st = for_range first k trackLine t0
              ∧ ∀ l h, snd st l h
                  = if in_range first k l
                       && in_range (activeVideoStart (configuration c))
                                   (activeVideoEnd (configuration c)) h
                    then adjustY_result
                           (lineInvertphase first firstFieldPhaseID secondFieldPhaseID l)
                           h (b l (h + 2))
                    else b l h)); [assumption| |].
  - simpl. split; [rewrite for_range_nil by lia; reflexivity|].
    intros l h. rewrite in_range_empty. reflexivity.
  - intros k [t s] Hk [Ht Hs]. simpl in Ht, Hs. subst t. unfold adjustY_line. simpl.
    split; [rewrite for_range_last by lia; reflexivity|].
    intros l h. rewrite adjustY_row, in_range_last by lia.
    destruct (Z.eqb_spec l k) as [->|Hl]; simpl.
    + destruct (in_range _ _ h); simpl.
      * unfold lineInvertphase. rewrite for_range_last by lia. fold t0.
        rewrite (Hs k (h + 2)), in_range_end by lia. reflexivity.
      * rewrite Hs, in_range_end by lia. reflexivity.
    + apply Hs.
Qed.

(** C2, as amended: for a visible line and an active column [h],
    [adjustY] replaces the pixel at [h] by the pixel that stood at [h + 2]:
    its Y plus the correction that the phase [h % 4] selects from that
    pixel's I or Q (0: +Q, 1: -I, 2: -Q, 3: +I), negated when the line is
    inverted, and its I and Q as they were. *)
Theorem adjustY_pixel_shift c b firstFieldPhaseID secondFieldPhaseID lineNumber h :
  firstVisibleFrameLine (configuration c) <= lineNumber < frameHeight c →
  activeVideoStart (configuration c) <= h < activeVideoEnd (configuration c) →
  let p := b lineNumber (h + 2) in
  let comp :=
    match Z.rem h 4 with
    | 0 => q p
    | 1 => (- i p)%Q
    | 2 => (- q p)%Q
    | 3 => i p
    | _ => 0%Q
    end in
  let invert :=
    lineInvertphase (firstVisibleFrameLine (configuration c))
                    firstFieldPhaseID secondFieldPhaseID lineNumber in
  let out := adjustY c b firstFieldPhaseID secondFieldPhaseID lineNumber h in
  y out = (y p + (if invert then - comp else comp))%Q
  ∧ i out = i p
  ∧ q out = q p.
Proof.
  intros Hl Hh. simpl. rewrite adjustY_spec.
  apply in_range_spec in Hl. apply in_range_spec in Hh. rewrite Hl, Hh. simpl.
  auto.
Qed.

End AdjustY.

Lemma adjustY_pixel_shift_witness :
  i (adjustY (Demo.comb true false) Demo.ramp 1 1 1 3) = i (Demo.ramp 1 (3 + 2)).
Proof.
  apply (adjustY_pixel_shift (E := Demo.externals) (Demo.comb true false) Demo.ramp
           1 1 1 3).
  - vm_compute. split; [discriminate | reflexivity].
  - vm_compute. split; [discriminate | reflexivity].
Defined.

(** C2, as stated, fails.  On the plane with Y = 100 l + h, I = h,
    Q = -l, the pixel at line 1, column 3 (Y 103, I 3) comes out with
    Y 110 and I 5: the Y and I of column 5, the Y increased by that
    pixel's I, and not its own Y plus 5 nor its own I. *)
Lemma adjustY_own_pixel_counterexample :
  let own := Demo.ramp 1 3 in
  let out := adjustY (Demo.comb true false) Demo.ramp 1 1 1 3 in
  let comp := adjustY_comp (Z.rem 3 4) (Demo.ramp 1 (3 + 2)) in
  lineInvertphase 0 1 1 1 = false
  ∧ (y own == 103)%Q ∧ (i own == 3)%Q ∧ (comp == 5)%Q
  ∧ (y out == 110)%Q ∧ (i out == 5)%Q
  ∧ ¬ (y out == y own + comp)%Q
  ∧ ¬ (i out == i own)%Q.
Proof.
  repeat split; try (vm_compute; reflexivity);
    intros H; vm_compute in H; discriminate H.
Qed.

(** ** splitIQ *)

Section SplitIQ.
Context {E : Externals}.
Implicit Types (c : Comb E) (fb : FrameBuffer).

Lemma last_col_none p start h : h < start → last_col p start h = None.
Proof. intros H. unfold last_col. rewrite seqZ_nil by lia. reflexivity. Qed.

Lemma last_col_step p start h :
  start <= h →
  last_col p start h = if p h then Some h else last_col p start (h - 1).
Proof.
  intros H. unfold last_col.
  replace (h - start + 1) with ((h - 1 - start + 1) + 1) by lia.
  rewrite seqZ_app by lia. rewrite rev_app_distr.
  rewrite (seqZ_cons _ 1) by lia. rewrite seqZ_nil by lia. simpl.
  replace (start + (h - 1 - start + 1)) with h by lia.
  replace (h - 1 - start + 1 + 1 - 1) with (h - 1 - start + 1) by lia.
  reflexivity.
Qed.

Lemma last_col_here p start h :
  start <= h → p h = true → last_col p start h = Some h.
Proof. intros H Hp. rewrite last_col_step, Hp by assumption. reflexivity. Qed.

Lemma held_step f p start h :
  start <= h →
  held f (last_col p start h) = if p h then f h else held f (last_col p start (h - 1)).
Proof. intros H. rewrite last_col_step by assumption. destruct (p h); reflexivity. Qed.

(** One column of [splitIQ]: the channel of the column's phase is
    renewed, the other one kept. *)
Lemma splitIQ_pixel_step c fb inv l k si sq b :
  splitIQ_pixel c inv l k (si, sq, set_yiqBuffer fb b)
  = (if isIcol k then demod_I c fb inv l k else si,
     if isQcol k then demod_Q c fb inv l k else sq,
     set_yiqBuffer fb
       (yiq_set b l k
          (mkYIQ (qreal_of (rawSample c fb l k))
                 (if isIcol k then demod_I c fb inv l k else si)
                 (if isQcol k then demod_Q c fb inv l k else sq)))).
Proof.
  unfold splitIQ_pixel, isIcol, isQcol, demod_I, demod_Q, splitIQ_signed.
  change (splitIQ_cavg c (set_yiqBuffer fb b) l k) with (splitIQ_cavg c fb l k).
  change (rawSample c (set_yiqBuffer fb b) l k) with (rawSample c fb l k).
  case_phase k; reflexivity.
Qed.

Lemma splitIQ_row c fb inv l b hi :
  activeVideoStart (configuration c) <= hi →
  ∃ b',
    for_range (activeVideoStart (configuration c)) hi (splitIQ_pixel c inv l)
              (0%Q, 0%Q, set_yiqBuffer fb b)
    = (held (demod_I c fb inv l)
            (last_col isIcol (activeVideoStart (configuration c)) (hi - 1)),
       held (demod_Q c fb inv l)
            (last_col isQcol (activeVideoStart (configuration c)) (hi - 1)),
       set_yiqBuffer fb b')
    ∧ ∀ l' h', b' l' h'
        = if (l' =? l) && in_range (activeVideoStart (configuration c)) hi h'
          then splitIQ_result c fb inv l h' else b l' h'.
Proof.
  intros Hle. set (lo := activeVideoStart (configuration c)) in *.
  apply (for_range_ind
           (fun k (st : Q * Q * FrameBuffer) => ∃ b',
              st = (held (demod_I c fb inv l) (last_col isIcol lo (k - 1)),
                    held (demod_Q c fb inv l) (last_col isQcol lo (k - 1)),
                    set_yiqBuffer fb b')
              ∧ ∀ l' h', b' l' h'
                  = if (l' =? l) && in_range lo k h'
                    then splitIQ_result c fb inv l h' else b l' h')); [assumption| |].
  - exists b. rewrite !last_col_none by lia. split; [reflexivity|].
    intros l' h'. rewrite in_range_empty, andb_false_r. reflexivity.
  - intros k st Hk (b' & -> & Hb').
    replace (k + 1 - 1) with k by lia.
    rewrite splitIQ_pixel_step.
    rewrite <- !held_step by lia.
    eexists. split; [reflexivity|].
    intros l' h'. rewrite yiq_set_get, in_range_last by lia.
    destruct (Z.eqb_spec l' l) as [->|Hl]; simpl.
    2:{ rewrite Hb'. destruct (Z.eqb_spec l' l); [contradiction | reflexivity]. }
    destruct (Z.eqb_spec h' k) as [->|Hh]; simpl.
    + reflexivity.
    + rewrite Hb', Z.eqb_refl. reflexivity.
Qed.

Lemma splitIQ_line_spec c fb l t b :
  ∃ b',
    splitIQ_line c l (t, set_yiqBuffer fb b) = (trackLine l t, set_yiqBuffer fb b')
    ∧ ∀ l' h', b' l' h'
        = if (l' =? l)
             && in_range (activeVideoStart (configuration c))
                         (activeVideoEnd (configuration c)) h'
          then splitIQ_result c fb (invertphase (trackLine l t)) l h' else b l' h'.
Proof.
  unfold splitIQ_line.
  destruct (Z_le_gt_dec (activeVideoStart (configuration c))
                        (activeVideoEnd (configuration c))) as [Hle|Hgt].
  - destruct (splitIQ_row c fb (invertphase (trackLine l t)) l b _ Hle) as (b' & -> & Hb').
    exists b'. split; [reflexivity | exact Hb'].
  - rewrite for_range_nil by lia. exists b. split; [reflexivity|].
    intros l' h'. replace (in_range _ _ h') with false;
      [rewrite andb_false_r; reflexivity|].
    symmetry. apply in_range_false. lia.
Qed.

(** What [splitIQ] leaves in the YIQ buffer; the rest of the frame
    buffer is as before. *)
Lemma splitIQ_spec c fb :
  ∃ b',
    splitIQ c fb = set_yiqBuffer fb b'
    ∧ ∀ l h, b' l h
        = if in_range (firstVisibleFrameLine (configuration c)) (frameHeight c) l
             && in_range (activeVideoStart (configuration c))
                         (activeVideoEnd (configuration c)) h
          then splitIQ_result c fb
                 (lineInvertphase (firstVisibleFrameLine (configuration c))
                                  (firstFieldPhaseID fb) (secondFieldPhaseID fb) l) l h
          else YiqBuffer_clear l h.
Proof.
  unfold splitIQ.
  set (first := firstVisibleFrameLine (configuration c)).
  set (t0 := initTracker (firstFieldPhaseID fb) (secondFieldPhaseID fb)).
  destruct (Z_le_gt_dec first (frameHeight c)) as [Hle|Hgt].
  2:{ rewrite for_range_nil by lia. simpl. eexists. split; [reflexivity|].
      intros l h. replace (in_range first (frameHeight c) l) with false; [reflexivity|].
      symmetry. apply in_range_false. lia. }
  cut (∃ b',
         for_range first (frameHeight c) (splitIQ_line c)
                   (t0, set_yiqBuffer fb YiqBuffer_clear)
         = (for_range first (frameHeight c) trackLine t0, set_yiqBuffer fb b')
         ∧ ∀ l h, b' l h
             = if in_range first (frameHeight c) l
                  && in_range (activeVideoStart (configuration c))
                              (activeVideoEnd (configuration c)) h
               then splitIQ_result c fb
                      (lineInvertphase first (firstFieldPhaseID fb)
                                       (secondFieldPhaseID fb) l) l h
               else YiqBuffer_clear l h).
  { intros (b' & -> & Hb'). exists b'. split; [reflexivity | exact Hb']. }
  apply (for_range_ind
           (fun k (st : PhaseTracker * FrameBuffer) => ∃ b',
              st = (for_range first k trackLine t0, set_yiqBuffer fb b')
              ∧ ∀ l h, b' l h
                  = if in_range first k l
                       && in_range (activeVideoStart (configuration c))
                                   (activeVideoEnd (configuration c)) h
                    then splitIQ_result c fb
                           (lineInvertphase first (firstFieldPhaseID fb)
                                            (secondFieldPhaseID fb) l) l h
                    else YiqBuffer_clear l h)); [assumption| |].
  - exists YiqBuffer_clear. rewrite for_range_nil by lia. split; [reflexivity|].
    intros l h. rewrite in_range_empty. reflexivity.
  - intros k st Hk (b' & -> & Hb').
    destruct (splitIQ_line_spec c fb k (for_range first k trackLine t0) b')
      as (b'' & -> & Hb'').
    exists b''. rewrite for_range_last by lia. split; [reflexivity|].
    intros l h. rewrite Hb'', in_range_last by lia.
    destruct (Z.eqb_spec l k) as [->|Hl]; simpl; [|apply Hb'].
    destruct (in_range _ _ h); simpl.
    + unfold lineInvertphase. rewrite for_range_last by lia. reflexivity.
    + rewrite Hb', in_range_end by lia. reflexivity.
Qed.

(** C10: for a visible line and an active column, the pixel [splitIQ]
    writes holds, in I, the value demodulated at the most recent column up
    to [h] whose phase [h % 4] is 1 or 3 and, in Q, the one demodulated at
    the most recent column whose phase is 0 or 2, each 0 when the line has
    had no such column yet; a column of phase 0 or 2 is itself that Q
    column and a column of phase 1 or 3 is itself that I column, so each
    column renews one channel and carries the other one over. *)
Theorem splitIQ_channels c fb lineNumber h :
  firstVisibleFrameLine (configuration c) <= lineNumber < frameHeight c →
  activeVideoStart (configuration c) <= h < activeVideoEnd (configuration c) →
  let invert :=
    lineInvertphase (firstVisibleFrameLine (configuration c))
                    (firstFieldPhaseID fb) (secondFieldPhaseID fb) lineNumber in
  let start := activeVideoStart (configuration c) in
  let out := yiqBuffer (splitIQ c fb) lineNumber h in
  y out = qreal_of (rawSample c fb lineNumber h)
  ∧ i out = held (demod_I c fb invert lineNumber) (last_col isIcol start h)
  ∧ q out = held (demod_Q c fb invert lineNumber) (last_col isQcol start h)
  ∧ (isQcol h = true →
       last_col isQcol start h = Some h ∧ last_col isIcol start h = last_col isIcol start (h - 1))
  ∧ (isIcol h = true →
       last_col isIcol start h = Some h ∧ last_col isQcol start h = last_col isQcol start (h - 1)).
Proof.
  intros Hl Hh. simpl.
  destruct (splitIQ_spec c fb) as (b' & -> & Hb'). simpl. rewrite Hb'.
  apply in_range_spec in Hl. pose proof Hh as Hh'. apply in_range_spec in Hh'.
  rewrite Hl, Hh'. simpl.
  split; [reflexivity|]. split; [reflexivity|]. split; [reflexivity|].
  split; intros Hcol; (split; [apply last_col_here; [lia | assumption]|]);
    rewrite last_col_step by lia.
  - replace (isIcol h) with false; [reflexivity|].
    revert Hcol. unfold isIcol, isQcol. case_phase h; intros; congruence.
  - replace (isQcol h) with false; [reflexivity|].
    revert Hcol. unfold isIcol, isQcol. case_phase h; intros; congruence.
Qed.

End SplitIQ.

Lemma splitIQ_channels_witness :
  i (yiqBuffer
       (splitIQ (Demo.comb true false)
          (split2D (Demo.comb true false)
             (split1D (Demo.comb true false) (Demo.frame 1 1)))) 5 3)
  = held (demod_I (Demo.comb true false)
            (split2D (Demo.comb true false)
               (split1D (Demo.comb true false) (Demo.frame 1 1)))
            (lineInvertphase 0 1 1 5) 5)
         (last_col isIcol 2 3).
Proof.
  apply (splitIQ_channels (E := Demo.externals) (Demo.comb true false)
           (split2D (Demo.comb true false)
              (split1D (Demo.comb true false) (Demo.frame 1 1))) 5 3).
  - vm_compute. split; [discriminate | reflexivity].
  - vm_compute. split; [discriminate | reflexivity].
Defined.

(** On non-negative columns the phases alternate: the channel a column
    does not renew was renewed by the column just before it. *)
Lemma last_col_other_channel start h :
  0 <= start → start < h →
  (isQcol h = true → last_col isIcol start h = Some (h - 1))
  ∧ (isIcol h = true → last_col isQcol start h = Some (h - 1)).
Proof.
  intros Hs Hh.
  assert (Hr : Z.rem h 4 = h mod 4) by (apply Z.rem_mod_nonneg; lia).
  assert (Hr' : Z.rem (h - 1) 4 = (h - 1) mod 4) by (apply Z.rem_mod_nonneg; lia).
  split; intros Hcol; rewrite last_col_step by lia.
  - replace (isIcol h) with false.
    + apply last_col_here; [lia|]. revert Hcol. unfold isIcol, isQcol.
      rewrite Hr, Hr'. intros Hcol. apply orb_true_iff in Hcol. apply orb_true_iff.
      rewrite !Z.eqb_eq in *. Z.div_mod_to_equations. lia.
    + symmetry. revert Hcol. unfold isIcol, isQcol. case_phase h; intros; congruence.
  - replace (isQcol h) with false.
    + apply last_col_here; [lia|]. revert Hcol. unfold isIcol, isQcol.
      rewrite Hr, Hr'. intros Hcol. apply orb_true_iff in Hcol. apply orb_true_iff.
      rewrite !Z.eqb_eq in *. Z.div_mod_to_equations. lia.
    + symmetry. revert Hcol. unfold isIcol, isQcol. case_phase h; intros; congruence.
Qed.

(** ** filterIQ *)

Section FilterIQ.
Context {E : Externals}.
Implicit Types (c : Comb E) (b : YiqBuffer).

Lemma filterIQ_pixel_same_I l h st st' :
  same_I_state st st' → same_I_state (filterIQ_pixel l h st) (filterIQ_pixel l h st').
Proof.
  destruct st as [[[[f_i f_q] filti] filtq] b].
  destruct st' as [[[[f_i' f_q'] filti'] filtq'] b'].
  intros (-> & -> & Hb). unfold filterIQ_pixel.
  destruct (Hb l h) as [_ Hi]. destruct (Hb l (h - 2)) as [Hy _].
  rewrite Hi, Hy.
  case_phase h;
    repeat match goal with |- context [feed ?f ?x] => destruct (feed f x) end;
    (split; [reflexivity|]; split; [reflexivity|]);
    intros l' h'; rewrite !yiq_set_get;
    destruct ((l' =? l) && (h' =? h - 2)); simpl; auto.
Qed.

Lemma filterIQ_same_I c b b' :
  same_YI b b' → same_YI (filterIQ (set_colorlpf_hq c true) b)
                         (filterIQ (set_colorlpf_hq c false) b').
Proof.
  intros Hb. unfold filterIQ. apply (for_range_rel same_YI); [exact Hb|].
  intros l a a' _ Ha. unfold filterIQ_line. simpl.
  pose proof (for_range_rel same_I_state
    (activeVideoStart (configuration c)) (activeVideoEnd (configuration c))
    (filterIQ_pixel l) (filterIQ_pixel l)
    (f_colorlpi, f_colorlpi, 0%Q, 0%Q, a) (f_colorlpi, f_colorlpq, 0%Q, 0%Q, a')) as H.
  destruct (for_range _ _ _ (f_colorlpi, f_colorlpi, 0%Q, 0%Q, a))
    as [[[[g1 g2] g3] g4] r].
  destruct (for_range _ _ _ (f_colorlpi, f_colorlpq, 0%Q, 0%Q, a'))
    as [[[[g1' g2'] g3'] g4'] r'].
  simpl. apply H.
  - simpl. auto.
  - intros k s s' _. apply filterIQ_pixel_same_I.
Qed.

(** C5, as amended: the two variants of [filterIQ] give every pixel the
    same Y and the same I, both using [f_colorlpi] for I; for Q the
    high-quality variant uses [f_colorlpi] and the standard one
    [f_colorlpq], so the whole outputs coincide when these two filters are
    the same. *)
Theorem filterIQ_variants c b :
  (∀ l h,
     y (filterIQ (set_colorlpf_hq c true) b l h)
     = y (filterIQ (set_colorlpf_hq c false) b l h)
     ∧ i (filterIQ (set_colorlpf_hq c true) b l h)
       = i (filterIQ (set_colorlpf_hq c false) b l h))
  ∧ (f_colorlpq = f_colorlpi →
     ∀ l h, filterIQ (set_colorlpf_hq c true) b l h
            = filterIQ (set_colorlpf_hq c false) b l h).
Proof.
  split.
  - apply filterIQ_same_I. intros l h. auto.
  - intros Heq l h. unfold filterIQ, filterIQ_line. simpl. rewrite Heq. reflexivity.
Qed.

End FilterIQ.

(** C5, as stated, fails when the two filters differ.  With the I filter
    averaging two values and the Q filter four, on the plane with Q = -1
    along line 1 the pixel at column 1 gets Q = -1/2 from the high-quality
    variant and Q = -1/4 from the standard one. *)
Lemma filterIQ_hq_counterexample :
  let hq := filterIQ (E := Demo.externals) (Demo.comb true false) Demo.ramp 1 1 in
  let std := filterIQ (E := Demo.externals) (Demo.comb false false) Demo.ramp 1 1 in
  (q hq == - (1 # 2))%Q ∧ (q std == - (1 # 4))%Q ∧ ¬ (q hq == q std)%Q.
Proof.
  repeat split; try (vm_compute; reflexivity);
    intros H; vm_compute in H; discriminate H.
Qed.

Lemma filterIQ_variants_witness :
  filterIQ (E := Demo.externals_same)
    (set_colorlpf_hq (Comb_new (E := Demo.externals_same) tt) true) Demo.ramp 50 100
  = filterIQ (E := Demo.externals_same)
      (set_colorlpf_hq (Comb_new (E := Demo.externals_same) tt) false) Demo.ramp 50 100.
Proof.
  apply (proj2 (filterIQ_variants (E := Demo.externals_same)
                  (Comb_new (E := Demo.externals_same) tt) Demo.ramp)).
  reflexivity.
Defined.

(** ** doCNR *)

(** A residual clipped to a zero threshold is zero. *)
Lemma clip_zero a nr : (nr == 0)%Q → (clip a nr == 0)%Q.
Proof.
  intros Hnr. unfold clip. destruct (Qgtb (fabs a) nr) eqn:Hgt.
  - destruct (Qgtb a 0); rewrite Hnr; reflexivity.
  - apply Qgtb_false in Hgt. unfold fabs in Hgt. rewrite Hnr in Hgt.
    apply Qabs_Qle_condition in Hgt. lra.
Qed.

Section DoCNR.
Context {E : Externals}.
Implicit Types (c : Comb E) (b : YiqBuffer).

Lemma doCNR_feed_buffer l h st : snd (doCNR_feed l h st) = snd st.
Proof.
  destruct st as [[[f1 f2] v] b]. unfold doCNR_feed.
  repeat match goal with |- context [feed ?f ?x] => destruct (feed f x) end.
  reflexivity.
Qed.

(** C6: [doCNR] leaves every pixel of the YIQ buffer as it was: Y
    untouched, I and Q reduced by a residual that the zero threshold
    [0.0 * irescale] clips to zero. *)
Theorem doCNR_identity c b l h :
  y (doCNR c b l h) = y (b l h)
  ∧ (i (doCNR c b l h) == i (b l h))%Q
  ∧ (q (doCNR c b l h) == q (b l h))%Q.
Proof.
  assert (Hnr : (0.0 * irescale c == 0)%Q) by lra.
  revert l h. unfold doCNR.
  apply (for_range_inv
           (fun st : Filter * Filter * list YIQ * YiqBuffer =>
              ∀ l h, y (snd st l h) = y (b l h)
                     ∧ (i (snd st l h) == i (b l h))%Q
                     ∧ (q (snd st l h) == q (b l h))%Q)).
  - intros l h. simpl. repeat split; reflexivity.
  - intros k st _ Hst.
    apply (for_range_inv
             (fun st' : Filter * Filter * list YIQ * YiqBuffer =>
                ∀ l h, y (snd st' l h) = y (b l h)
                       ∧ (i (snd st' l h) == i (b l h))%Q
                       ∧ (q (snd st' l h) == q (b l h))%Q)).
    + apply (for_range_inv
               (fun st' : Filter * Filter * list YIQ * YiqBuffer =>
                  ∀ l h, y (snd st' l h) = y (b l h)
                         ∧ (i (snd st' l h) == i (b l h))%Q
                         ∧ (q (snd st' l h) == q (b l h))%Q)); [exact Hst|].
      intros h' st' _ Hst'. rewrite doCNR_feed_buffer. exact Hst'.
    + intros h' st' _ Hst' l h. destruct st' as [[[f1 f2] v] b'].
      simpl in *. rewrite yiq_set_get.
      destruct ((l =? k) && (h =? h')) eqn:Hhit; [|apply Hst'].
      apply andb_true_iff in Hhit. destruct Hhit as [Hl Hh].
      apply Z.eqb_eq in Hl, Hh. subst l h.
      destruct (Hst' k h') as (Hy & Hi & Hq). simpl.
      rewrite !clip_zero by assumption. repeat split; [assumption | lra | lra].
Qed.

End DoCNR.

(** ** process *)

Lemma length_quint16Set a off idx v : length (quint16Set a off idx v) = length a.
Proof. unfold quint16Set. rewrite !length_set_. reflexivity. Qed.

Section Process.
Context {E : Externals}.
Implicit Types (c : Comb E) (b : YiqBuffer).

Lemma length_yiqToRgbFrame c b burst :
  length (yiqToRgbFrame c b burst)
  = Z.to_nat ((fieldWidth (configuration c) * frameHeight c * 3) * 2).
Proof.
  unfold yiqToRgbFrame.
  apply (for_range_inv
           (fun a : QByteArray =>
              length a = Z.to_nat ((fieldWidth (configuration c) * frameHeight c * 3) * 2))).
  - unfold fresh. apply length_replicate.
  - intros l a _ Ha.
    apply (for_range_inv
             (fun st : Z * QByteArray =>
                length (snd st)
                = Z.to_nat ((fieldWidth (configuration c) * frameHeight c * 3) * 2)));
      [exact Ha|].
    intros h [o a'] _ Ha'. unfold yiqToRgbFrame_pixel.
    destruct (RGB_conv _ _ _ _ _ _) as [[r g] bl]. simpl in *.
    rewrite !length_quint16Set. exact Ha'.
Qed.

Lemma length_overlayOpticalFlowMap c fb a :
  length (overlayOpticalFlowMap c fb a) = length a.
Proof.
  unfold overlayOpticalFlowMap.
  apply (for_range_inv (fun a' : QByteArray => length a' = length a)); [reflexivity|].
  intros l a' _ Ha'.
  apply (for_range_inv (fun a'' : QByteArray => length a'' = length a)); [exact Ha'|].
  intros h a'' _ Ha''. unfold overlayOpticalFlowMap_pixel.
  rewrite !length_quint16Set. exact Ha''.
Qed.

Lemma length_process c f1 f2 burst id1 id2 :
  length (fst (process c f1 f2 burst id1 id2))
  = Z.to_nat ((fieldWidth (configuration c) * frameHeight c * 3) * 2).
Proof.
  unfold process. destruct (use3D (configuration c)); cbn [negb].
  - destruct (postProcess c _) as [t1 fb1].
    destruct (denseOpticalFlow _ _ _) as [o k].
    destruct (postProcess c _) as [t2 fb2]. cbn [fst].
    destruct (showOpticalFlowMap (configuration c));
      rewrite ?length_overlayOpticalFlowMap; apply length_yiqToRgbFrame.
  - destruct (postProcess c _) as [t1 fb1]. cbn [fst]. apply length_yiqToRgbFrame.
Qed.

(** C7: for every configuration set with [setConfiguration], every pair
    of field buffers, burst level, phase IDs and either mode, the frame
    height is [2 * fieldHeight - 1] and the RGB buffer [process] returns
    has exactly [fieldWidth * frameHeight * 3 * 2] bytes (as a byte count:
    with a non-negative field width and at least one field line, the
    product itself). *)
Theorem process_output_size (c0 : Comb E) (cfg : Configuration)
    (firstFieldInputBuffer secondFieldInputBuffer : QByteArray)
    (burstMedianIre : Q) (firstFieldPhaseID secondFieldPhaseID : Z) :
  let c := setConfiguration c0 cfg in
  let rgbOutputBuffer :=
    fst (process c firstFieldInputBuffer secondFieldInputBuffer
                 burstMedianIre firstFieldPhaseID secondFieldPhaseID) in
  frameHeight c = 2 * fieldHeight cfg - 1
  ∧ length rgbOutputBuffer = Z.to_nat (fieldWidth cfg * frameHeight c * 3 * 2)
  ∧ (0 <= fieldWidth cfg → 1 <= fieldHeight cfg →
     Z.of_nat (length rgbOutputBuffer) = fieldWidth cfg * frameHeight c * 3 * 2).
Proof.
  intros c out. unfold out. rewrite length_process. unfold c. simpl.
  split; [lia|]. split; [reflexivity|]. intros Hw Hh. nia.
Qed.

Lemma rawSample_raw c fb fb' l h :
  rawbuffer fb = rawbuffer fb' → rawSample c fb l h = rawSample c fb' l h.
Proof. intros H. unfold rawSample. rewrite H. reflexivity. Qed.

Lemma postProcess_frame c fb :
  rawbuffer (snd (postProcess c fb)) = rawbuffer fb
  ∧ clpbuffer (snd (postProcess c fb)) = clpbuffer fb.
Proof.
  unfold postProcess. cbn [snd]. destruct (colorlpf (configuration c)); split; reflexivity.
Qed.

Lemma splitIQ_frame c fb :
  rawbuffer (splitIQ c fb) = rawbuffer fb ∧ clpbuffer (splitIQ c fb) = clpbuffer fb.
Proof. destruct (splitIQ_spec c fb) as (b' & -> & _). split; reflexivity. Qed.

Lemma split1D_same_setup c1 c2 fb : same_setup c1 c2 → split1D c1 fb = split1D c2 fb.
Proof.
  intros H. unfold split1D, split1D_line, split1D_pixel, split1D_raw, rawSample.
  same_setup_tac H.
Qed.

Lemma split2D_same_setup c1 c2 fb : same_setup c1 c2 → split2D c1 fb = split2D c2 fb.
Proof.
  intros H. unfold split2D, split2D_line, split2D_pixel, split2D_value, split2D_weights.
  same_setup_tac H.
Qed.

Lemma splitIQ_same_setup c1 c2 fb : same_setup c1 c2 → splitIQ c1 fb = splitIQ c2 fb.
Proof.
  intros H. unfold splitIQ, splitIQ_line, splitIQ_pixel, splitIQ_cavg, rawSample.
  same_setup_tac H.
Qed.

Lemma postProcess_same_setup c1 c2 fb :
  same_setup c1 c2 → postProcess c1 fb = postProcess c2 fb.
Proof.
  intros H.
  unfold postProcess, adjustY, adjustY_line, filterIQ, filterIQ_line, doYNR, doCNR.
  same_setup_tac H.
Qed.

Lemma yiqToRgbFrame_same_setup c1 c2 b burst :
  same_setup c1 c2 → yiqToRgbFrame c1 b burst = yiqToRgbFrame c2 b burst.
Proof.
  intros H. unfold yiqToRgbFrame, yiqToRgbFrame_pixel. same_setup_tac H.
Qed.

Lemma interlace_same_setup c1 c2 f1 f2 :
  same_setup c1 c2 → interlace c1 f1 f2 = interlace c2 f1 f2.
Proof. intros H. unfold interlace. same_setup_tac H. Qed.

(** C9: with 3D mode off, two objects with the same configuration (and
    the values derived from it) return the same RGB bytes for the same
    field buffers, burst level and phase IDs, whatever frame buffers they
    retain from earlier calls, and the call leaves each object, its
    retained previous frame included, exactly as it was. *)
Theorem process_2D_ignores_previous (c1 c2 : Comb E)
    (firstFieldInputBuffer secondFieldInputBuffer : QByteArray)
    (burstMedianIre : Q) (firstFieldPhaseID secondFieldPhaseID : Z) :
  same_setup c1 c2 →
  use3D (configuration c1) = false →
  fst (process c1 firstFieldInputBuffer secondFieldInputBuffer
               burstMedianIre firstFieldPhaseID secondFieldPhaseID)
  = fst (process c2 firstFieldInputBuffer secondFieldInputBuffer
                 burstMedianIre firstFieldPhaseID secondFieldPhaseID)
  ∧ snd (process c1 firstFieldInputBuffer secondFieldInputBuffer
                 burstMedianIre firstFieldPhaseID secondFieldPhaseID) = c1
  ∧ snd (process c2 firstFieldInputBuffer secondFieldInputBuffer
                 burstMedianIre firstFieldPhaseID secondFieldPhaseID) = c2.
Proof.
  intros Hs H3D.
  assert (H3D' : use3D (configuration c2) = false).
  { destruct Hs as (<- & _). exact H3D. }
  unfold process. rewrite H3D, H3D'. cbn [negb].
  rewrite (interlace_same_setup c1 c2) by assumption.
  rewrite (split1D_same_setup c1 c2) by assumption.
  rewrite (split2D_same_setup c1 c2) by assumption.
  rewrite (splitIQ_same_setup c1 c2) by assumption.
  rewrite (postProcess_same_setup c1 c2) by assumption.
  destruct (postProcess c2 _) as [tempYiqBuffer currentFrameBuffer]. cbn [fst snd].
  rewrite (yiqToRgbFrame_same_setup c1 c2) by assumption.
  auto.
Qed.

End Process.

Lemma process_output_size_witness :
  Z.of_nat (length (fst (process (E := Demo.externals) (Demo.comb true true)
                                 Demo.firstField Demo.secondField 0 1 1)))
  = 8 * 7 * 3 * 2.
Proof.
  apply (process_output_size (E := Demo.externals) (Comb_new (E := Demo.externals) tt)
           (Demo.cfg 0 true true) Demo.firstField Demo.secondField 0 1 1).
  - vm_compute. discriminate.
  - vm_compute. discriminate.
Defined.

Lemma process_2D_ignores_previous_witness :
  fst (process (E := Demo.externals) (Demo.comb true false)
               Demo.firstField Demo.secondField 0 1 1)
  = fst (process (E := Demo.externals) (Demo.comb_after true false (Demo.frame 2 3))
           Demo.firstField Demo.secondField 0 1 1).
Proof.
  apply (process_2D_ignores_previous (E := Demo.externals) (Demo.comb true false)
           (Demo.comb_after true false (Demo.frame 2 3))
           Demo.firstField Demo.secondField 0 1 1).
  - unfold same_setup. repeat split; reflexivity.
  - reflexivity.
Defined.

(** ** Worked examples *)

Example interlace_demo :
  interlace (E := Demo.externals) (Demo.comb true false) Demo.firstField Demo.secondField
  = rawbuffer (Demo.frame 1 1).
Proof. vm_compute. reflexivity. Qed.

Example rawSample_demo :
  map (rawSample (Demo.comb true false) (Demo.frame 1 1) 3) [0; 1; 2; 3; 4; 5; 6; 7]
  = [7; 11; 13; 17; 19; 23; 29; 31].
Proof. vm_compute. reflexivity. Qed.

Example lineInvertphase_demo :
  map (lineInvertphase 0 1 1) [0; 1; 2; 3; 4; 5; 6]
  = [true; false; false; true; true; false; false].
Proof. vm_compute. reflexivity. Qed.

(** A freshly constructed object retains an empty frame, which does not
    cover the window; a frame of the demo size does. *)
Example covers_window_demo :
  covers_window (Demo.comb true true) (previousFrameBuffer (Demo.comb true true)) = false
  ∧ covers_window (Demo.comb true true) (Demo.frame 1 1) = true.
Proof. vm_compute. split; reflexivity. Qed.

Example clamp_demo :
  clamp (-3) 0 1 = 0%Q ∧ clamp (1 # 2) 0 1 = (1 # 2)%Q ∧ clamp 7 0 1 = 1%Q.
Proof. repeat split; reflexivity. Qed.

Example process_2D_demo :
  length (fst (process (E := Demo.externals) (Demo.comb true false)
                       Demo.firstField Demo.secondField 0 1 1)) = 336%nat.
Proof. vm_compute. reflexivity. Qed.

(** * Further properties of the passes *)

(** ** clamp *)

(** [clamp] lands in the interval, leaves values of the interval alone
    and is idempotent. *)
Theorem clamp_within v low high :
  (low <= high)%Q →
  (low <= clamp v low high <= high)%Q
  ∧ ((low <= v <= high)%Q → clamp v low high = v)
  ∧ clamp (clamp v low high) low high = clamp v low high.
Proof.
  intros Hlh.
  assert (Hfix : ∀ w, (low <= w <= high)%Q → clamp w low high = w).
  { intros w [H1 H2]. unfold clamp.
    replace (Qltb w low) with false by (symmetry; apply Qltb_false; exact H1).
    replace (Qgtb w high) with false by (symmetry; apply Qgtb_false; exact H2).
    reflexivity. }
  split; [apply clamp_bounds; exact Hlh|]. split; [exact (Hfix v)|].
  apply Hfix. apply clamp_bounds. exact Hlh.
Qed.

Lemma clamp_within_witness :
  (0 <= clamp (7 # 2) 0 1 <= 1)%Q.
Proof.
  apply (clamp_within (7 # 2) 0 1). vm_compute. discriminate.
Defined.

(** ** split1D, split2D and split3D: what they write *)

Section MoreSeparators.
Context {E : Externals}.
Implicit Types (c : Comb E) (fb : FrameBuffer).

Lemma byteZ_bound b : byteZ b <= 255.
Proof. unfold byteZ. pose proof (Byte.to_N_bounded b). lia. Qed.

Lemma rawSample_bound c fb l h : 0 <= rawSample c fb l h <= 65535.
Proof.
  split; [apply rawSample_nonneg|]. unfold rawSample, quint16At.
  pose proof (byteZ_bound
    (at_ x00 (rawbuffer fb) (l * fieldWidth (configuration c) * 2 + 2 * h))).
  pose proof (byteZ_bound
    (at_ x00 (rawbuffer fb) (l * fieldWidth (configuration c) * 2 + 2 * h + 1))).
  lia.
Qed.

Lemma in_window_spec c l h :
  in_window c l h = true
  ↔ firstVisibleFrameLine (configuration c) <= l < frameHeight c
    ∧ activeVideoStart (configuration c) <= h < activeVideoEnd (configuration c).
Proof. unfold in_window. rewrite andb_true_iff, !in_range_spec. tauto. Qed.

(** [split1D] writes plane 0 inside the window and nothing else: the raw
    samples, the other planes, the motion map, the YIQ buffer, the burst
    level and the phase IDs stay, and so does plane 0 outside the
    window. *)
Theorem split1D_writes_only_window c fb :
  agree_off 0 (split1D c fb) fb
  ∧ ∀ l h, in_window c l h = false → clp (split1D c fb) 0 l h = clp fb 0 l h.
Proof.
  destruct (split1D_spec c fb) as [Hag Hv]. split; [exact Hag|].
  intros l h Hw. rewrite Hv. unfold in_window in Hw.
  rewrite andb_true_r, <- andb_assoc, Hw, andb_false_r. reflexivity.
Qed.

(** The 1D value of a window pixel is an integer between -65535 and
    65535, and 0 where the sample equals both samples two columns away. *)
Theorem split1D_value_range c fb l h :
  has_plane fb 0 = true →
  in_window c l h = true →
  ∃ z, clp (split1D c fb) 0 l h = qreal_of z
       ∧ -65535 <= z <= 65535
       ∧ (rawSample c fb l (h + 2) = rawSample c fb l h →
          rawSample c fb l (h - 2) = rawSample c fb l h → z = 0).
Proof.
  intros Hp Hw. destruct (split1D_spec c fb) as [_ Hv].
  exists (split1D_raw c fb l h). unfold in_window in Hw.
  rewrite Hv, Hp, andb_true_r. cbn [andb]. rewrite Hw.
  split; [reflexivity|]. unfold split1D_raw.
  pose proof (rawSample_bound c fb l (h + 2)).
  pose proof (rawSample_bound c fb l (h - 2)).
  pose proof (rawSample_bound c fb l h).
  rewrite Z.quot_div_nonneg by lia.
  split; [split; Z.div_mod_to_equations; lia|].
  intros -> ->. Z.div_mod_to_equations. lia.
Qed.

(** [split2D] writes plane 1 inside the window and nothing else; in
    particular it leaves plane 0, which it reads, as it was. *)
Theorem split2D_writes_only_window c fb :
  agree_off 1 (split2D c fb) fb
  ∧ (∀ l h, clp (split2D c fb) 0 l h = clp fb 0 l h)
  ∧ ∀ l h, in_window c l h = false → clp (split2D c fb) 1 l h = clp fb 1 l h.
Proof.
  destruct (split2D_spec c fb) as [Hag Hv]. split; [exact Hag|]. split.
  - intros l h. destruct Hag as (_ & _ & Hp & _). unfold clp.
    rewrite (Hp 0) by lia. reflexivity.
  - intros l h Hw. rewrite Hv. unfold in_window in Hw.
    destruct (has_plane fb 1); [|reflexivity]. cbn [andb].
    destruct (in_range (firstVisibleFrameLine (configuration c)) (frameHeight c) l);
      [|reflexivity].
    cbn [andb] in *. rewrite Hw, andb_false_r. reflexivity.
Qed.

(** A line whose final weight is zero does not contribute to the 2D
    value of a filtered pixel: with [kp = 0] the value is the difference
    to the line two below, weighted by [kn * sc], over 8; with [kn = 0]
    it is the difference to the line two above, weighted by [kp * sc],
    over 8; with both weights zero (neither neighbour trusted) it is
    zero. *)
Theorem split2D_estimate_one_sided c fb l h :
  has_plane fb 1 = true →
  Z.max 4 (firstVisibleFrameLine (configuration c)) <= l < frameHeight c - 1 →
  activeVideoStart (configuration c) <= h < activeVideoEnd (configuration c) →
  let x := (clp fb 0 l h - clp fb 0 (l - 2) h)%Q in
  let y := (clp fb 0 l h - clp fb 0 (l + 2) h)%Q in
  let w := split2D_weights c (clp fb 0 (l - 2)) (clp fb 0 l) (clp fb 0 (l + 2)) h in
  let v := clp (split2D c fb) 1 l h in
  ((kp w == 0)%Q → (v == y * kn w * sc w / 8)%Q)
  ∧ ((kn w == 0)%Q → (v == x * kp w * sc w / 8)%Q)
  ∧ ((kp w == 0)%Q → (kn w == 0)%Q → (v == 0)%Q).
Proof.
  intros Hp Hl Hh x y w v.
  assert (Hv : v = ((x * kp w * sc w + y * kn w * sc w) / 8)%Q).
  { unfold v. destruct (split2D_spec c fb) as [_ Hv]. rewrite Hv, Hp.
    replace (in_range (firstVisibleFrameLine (configuration c)) (frameHeight c) l)
      with true by (symmetry; apply in_range_spec; lia).
    replace (4 <=? l) with true by (symmetry; apply Z.leb_le; lia).
    replace (l <? frameHeight c - 1) with true by (symmetry; apply Z.ltb_lt; lia).
    apply in_range_spec in Hh. rewrite Hh. reflexivity. }
  rewrite Hv. clear Hv. split; [|split].
  - intros Hkp. rewrite Hkp. unfold Qdiv. ring.
  - intros Hkn. rewrite Hkn. unfold Qdiv. ring.
  - intros Hkp Hkn. rewrite Hkp, Hkn. unfold Qdiv. ring.
Qed.

(** [split3D] writes plane 2 inside the window and nothing else. *)
Theorem split3D_writes_only_window c currentFrame previousFrame :
  agree_off 2 (split3D c currentFrame previousFrame) currentFrame
  ∧ ∀ l h, in_window c l h = false →
           clp (split3D c currentFrame previousFrame) 2 l h = clp currentFrame 2 l h.
Proof.
  destruct (split3D_spec c currentFrame previousFrame) as [Hag Hv].
  split; [exact Hag|]. intros l h Hw. rewrite Hv. unfold in_window in Hw.
  rewrite andb_true_r, <- andb_assoc, Hw, andb_false_r. reflexivity.
Qed.

(** The 3D value of a window pixel, for two frames whose raw buffers
    cover the window, is [(previous - current) / 2] on the two 16-bit
    samples, truncated towards zero: between -32767 and 32767, zero where
    the two frames have the same sample, and the opposite of the value
    obtained with the two frames exchanged. *)
Theorem split3D_half_difference c currentFrame previousFrame l h :
  has_plane currentFrame 2 = true →
  has_plane previousFrame 2 = true →
  covers_window c currentFrame = true →
  covers_window c previousFrame = true →
  in_window c l h = true →
  let d := Z.quot (rawSample c previousFrame l h - rawSample c currentFrame l h) 2 in
  clp (split3D c currentFrame previousFrame) 2 l h = qreal_of d
  ∧ -32767 <= d <= 32767
  ∧ (rawSample c previousFrame l h = rawSample c currentFrame l h → d = 0)
  ∧ clp (split3D c previousFrame currentFrame) 2 l h = qreal_of (- d).
Proof.
  intros Hc Hp _ _ Hw d. unfold in_window in Hw.
  destruct (split3D_spec c currentFrame previousFrame) as [_ Hv].
  destruct (split3D_spec c previousFrame currentFrame) as [_ Hv'].
  rewrite Hv, Hv', Hc, Hp, !andb_true_r. cbn [andb]. rewrite Hw.
  pose proof (rawSample_bound c previousFrame l h).
  pose proof (rawSample_bound c currentFrame l h).
  split; [reflexivity|]. unfold d. split; [|split].
  - split; Z.quot_rem_to_equations; lia.
  - intros ->. rewrite Z.sub_diag. reflexivity.
  - f_equal. rewrite <- Z.quot_opp_l by lia. f_equal. lia.
Qed.

End MoreSeparators.

Lemma split1D_value_range_witness :
  ∃ z, clp (split1D (Demo.comb true false) (Demo.frame 1 1)) 0 3 4 = qreal_of z
       ∧ -65535 <= z <= 65535
       ∧ (rawSample (Demo.comb true false) (Demo.frame 1 1) 3 (4 + 2)
          = rawSample (Demo.comb true false) (Demo.frame 1 1) 3 4 →
          rawSample (Demo.comb true false) (Demo.frame 1 1) 3 (4 - 2)
          = rawSample (Demo.comb true false) (Demo.frame 1 1) 3 4 → z = 0).
Proof.
  apply (split1D_value_range (E := Demo.externals)); vm_compute; reflexivity.
Defined.

Lemma split2D_estimate_one_sided_witness :
  let c := setConfiguration (E := Demo.externals) (Comb_new (E := Demo.externals) tt)
             (mkConfiguration false false true true 8 4 2 6 0 0 1 false false) in
  let fb := split1D c (Demo.frame 1 1) in
  let x := (clp fb 0 5 4 - clp fb 0 (5 - 2) 4)%Q in
  let y := (clp fb 0 5 4 - clp fb 0 (5 + 2) 4)%Q in
  let w := split2D_weights c (clp fb 0 (5 - 2)) (clp fb 0 5) (clp fb 0 (5 + 2)) 4 in
  let v := clp (split2D c fb) 1 5 4 in
  ((kp w == 0)%Q → (v == y * kn w * sc w / 8)%Q)
  ∧ ((kn w == 0)%Q → (v == x * kp w * sc w / 8)%Q)
  ∧ ((kp w == 0)%Q → (kn w == 0)%Q → (v == 0)%Q).
Proof.
  intros c fb.
  apply (split2D_estimate_one_sided (E := Demo.externals) c fb 5 4).
  - vm_compute. reflexivity.
  - vm_compute. split; [discriminate | reflexivity].
  - vm_compute. split; [discriminate | reflexivity].
Defined.

(** With an IRE range of 1, pixel (5, 4) of the demo frame trusts neither
    neighbour and pixel (4, 2) only the line above. *)
Example split2D_weights_demo :
  let c := setConfiguration (E := Demo.externals) (Comb_new (E := Demo.externals) tt)
             (mkConfiguration false false true true 8 4 2 6 0 0 1 false false) in
  let fb := split1D c (Demo.frame 1 1) in
  let w54 := split2D_weights c (clp fb 0 3) (clp fb 0 5) (clp fb 0 7) 4 in
  let w42 := split2D_weights c (clp fb 0 2) (clp fb 0 4) (clp fb 0 6) 2 in
  (kp w54 == 0 ∧ kn w54 == 0 ∧ kp w42 == 1 ∧ kn w42 == 0 ∧ sc w42 == 2)%Q.
Proof. vm_compute. repeat split. Qed.

Lemma split3D_half_difference_witness :
  let d := Z.quot (rawSample (Demo.comb true true) (Demo.frame 2 3) 1 4
                   - rawSample (Demo.comb true true) (Demo.frame 1 1) 1 4) 2 in
  clp (split3D (Demo.comb true true) (Demo.frame 1 1) (Demo.frame 2 3)) 2 1 4 = qreal_of d
  ∧ -32767 <= d <= 32767
  ∧ (rawSample (Demo.comb true true) (Demo.frame 2 3) 1 4
     = rawSample (Demo.comb true true) (Demo.frame 1 1) 1 4 → d = 0)
  ∧ clp (split3D (Demo.comb true true) (Demo.frame 2 3) (Demo.frame 1 1)) 2 1 4
    = qreal_of (- d).
Proof.
  apply (split3D_half_difference (E := Demo.externals) (Demo.comb true true)
           (Demo.frame 1 1) (Demo.frame 2 3) 1 4); vm_compute; reflexivity.
Defined.

(** ** splitIQ: the chroma mix and the demodulated magnitudes *)

Section MoreSplitIQ.
Context {E : Externals}.
Implicit Types (c : Comb E) (fb : FrameBuffer) (b : YiqBuffer).

(** [splitIQ] starts from a cleared YIQ buffer: its result does not
    depend on what the buffer held, every pixel outside the window is
    zero, and the rest of the frame buffer is returned as it was. *)
Theorem splitIQ_rebuilds_yiq c fb :
  (∀ b l h, yiqBuffer (splitIQ c (set_yiqBuffer fb b)) l h = yiqBuffer (splitIQ c fb) l h)
  ∧ (∀ l h, in_window c l h = false → yiqBuffer (splitIQ c fb) l h = mkYIQ 0 0 0)
  ∧ rawbuffer (splitIQ c fb) = rawbuffer fb
  ∧ clpbuffer (splitIQ c fb) = clpbuffer fb
  ∧ kValues (splitIQ c fb) = kValues fb.
Proof.
  destruct (splitIQ_spec c fb) as (b' & Heq & Hb'). split; [|rewrite Heq; split].
  - intros b l h.
    destruct (splitIQ_spec c (set_yiqBuffer fb b)) as (b'' & -> & Hb''). rewrite Heq.
    cbn [yiqBuffer set_yiqBuffer]. rewrite Hb', Hb''. reflexivity.
  - intros l h Hw. cbn [yiqBuffer set_yiqBuffer]. rewrite Hb'. unfold in_window in Hw.
    rewrite Hw. reflexivity.
  - repeat split.
Qed.

(** The chroma value a column demodulates is the 2D value when 3D mode
    is off or there is no motion map; otherwise it is the mix
    [2D * k + 3D * (1 - k)], which is the 3D value at [k = 0], the 2D
    value at [k = 1] and lies between the two for [k] in [0,1]. *)
Theorem splitIQ_cavg_mix c fb l h :
  let k := at_ 0%Q (kValues fb) (l * 910 + h) in
  (use3D (configuration c) = false ∨ kValues fb = [] →
     splitIQ_cavg c fb l h = clp fb 1 l h)
  ∧ (use3D (configuration c) = true → kValues fb ≠ [] →
       (splitIQ_cavg c fb l h == clp fb 1 l h * k + clp fb 2 l h * (1 - k))%Q
       ∧ ((k == 0)%Q → (splitIQ_cavg c fb l h == clp fb 2 l h)%Q)
       ∧ ((k == 1)%Q → (splitIQ_cavg c fb l h == clp fb 1 l h)%Q)
       ∧ ((0 <= k <= 1)%Q →
            (Qmin (clp fb 1 l h) (clp fb 2 l h) <= splitIQ_cavg c fb l h
             <= Qmax (clp fb 1 l h) (clp fb 2 l h))%Q)).
Proof.
  intros k. unfold splitIQ_cavg. fold k. split.
  - intros [H|H]; rewrite H; [reflexivity | rewrite andb_false_r; reflexivity].
  - intros H3 Hk. rewrite H3. destruct (kValues fb) as [|k0 ks] eqn:Hkv; [congruence|].
    cbn [length Nat.eqb negb andb].
    set (u := clp fb 1 l h). set (v := clp fb 2 l h).
    split; [reflexivity|]. split; [|split].
    + intros Hk0. rewrite Hk0. ring.
    + intros Hk1. rewrite Hk1. ring.
    + intros [Hk0 Hk1].
      pose proof (Q.le_min_l u v). pose proof (Q.le_min_r u v).
      pose proof (Q.le_max_l u v). pose proof (Q.le_max_r u v).
      set (mn := Qmin u v) in *. set (mx := Qmax u v) in *.
      clearbody mn mx u v k. clear Hkv. split; nra.
Qed.

Lemma fabs_opp x : (fabs (- x) == fabs x)%Q.
Proof. unfold fabs. rewrite Qabs_opp. reflexivity. Qed.

(** Demodulation keeps the magnitude: at a window pixel, the channel the
    column renews (Q for phases 0 and 2, I for phases 1 and 3) has the
    absolute value of the chroma value of that pixel; phase and line
    inversion decide the sign only. *)
Theorem splitIQ_magnitude c fb l h :
  in_window c l h = true →
  (isQcol h = true →
     (fabs (q (yiqBuffer (splitIQ c fb) l h)) == fabs (splitIQ_cavg c fb l h))%Q)
  ∧ (isIcol h = true →
     (fabs (i (yiqBuffer (splitIQ c fb) l h)) == fabs (splitIQ_cavg c fb l h))%Q).
Proof.
  intros Hw. destruct (splitIQ_spec c fb) as (b' & -> & Hb').
  cbn [yiqBuffer set_yiqBuffer]. rewrite Hb'. pose proof Hw as Hw'.
  unfold in_window in Hw'. rewrite Hw'. apply in_window_spec in Hw. destruct Hw as [_ Hh].
  unfold splitIQ_result. cbn [q i].
  set (inv := lineInvertphase _ _ _ _).
  assert (HQ : isQcol h = true →
               demod_Q c fb inv l h = splitIQ_cavg c fb l h
               ∨ demod_Q c fb inv l h = (- splitIQ_cavg c fb l h)%Q).
  { unfold isQcol, demod_Q, splitIQ_signed.
    case_phase h; try discriminate; intros _; destruct inv; cbn [negb];
      rewrite ?Qopp_opp_eq; auto. }
  assert (HI : isIcol h = true →
               demod_I c fb inv l h = splitIQ_cavg c fb l h
               ∨ demod_I c fb inv l h = (- splitIQ_cavg c fb l h)%Q).
  { unfold isIcol, demod_I, splitIQ_signed.
    case_phase h; try discriminate; intros _; destruct inv; cbn [negb];
      rewrite ?Qopp_opp_eq; auto. }
  split; intros Hcol.
  - rewrite (last_col_here isQcol) by (assumption || lia). cbn [held].
    destruct (HQ Hcol) as [-> | ->]; rewrite ?fabs_opp; reflexivity.
  - rewrite (last_col_here isIcol) by (assumption || lia). cbn [held].
    destruct (HI Hcol) as [-> | ->]; rewrite ?fabs_opp; reflexivity.
Qed.

End MoreSplitIQ.

Lemma splitIQ_magnitude_witness :
  let fb := split2D (Demo.comb true false)
              (split1D (Demo.comb true false) (Demo.frame 1 1)) in
  let out := yiqBuffer (splitIQ (Demo.comb true false) fb) 5 3 in
  (fabs (i out) == fabs (splitIQ_cavg (Demo.comb true false) fb 5 3))%Q.
Proof.
  apply (splitIQ_magnitude (E := Demo.externals) (Demo.comb true false)
           (split2D (Demo.comb true false)
              (split1D (Demo.comb true false) (Demo.frame 1 1))) 5 3).
  - vm_compute. reflexivity.
  - vm_compute. reflexivity.
Defined.

(** ** filterIQ, doYNR and adjustY: what they leave alone *)

Section MoreFilters.
Context {E : Externals}.
Implicit Types (c : Comb E) (b : YiqBuffer).

Lemma filterIQ_line_frame c l0 b :
  ∀ l h,
    y (filterIQ_line c l0 b l h) = y (b l h)
    ∧ (¬ (l = l0 ∧ activeVideoStart (configuration c) - 2 <= h
                    < activeVideoEnd (configuration c) - 2) →
       filterIQ_line c l0 b l h = b l h).
Proof.
  unfold filterIQ_line.
  set (f_i := if colorlpf_hq (configuration c) then f_colorlpi else f_colorlpi).
  set (f_q := if colorlpf_hq (configuration c) then f_colorlpi else f_colorlpq).
  set (lo := activeVideoStart (configuration c)).
  set (hi := activeVideoEnd (configuration c)).
  destruct (Z_le_gt_dec lo hi) as [Hle|Hgt].
  2:{ rewrite for_range_nil by lia. intros l h. split; reflexivity. }
  cut (∀ l h,
         y (snd (for_range lo hi (filterIQ_pixel l0) (f_i, f_q, 0%Q, 0%Q, b)) l h)
         = y (b l h)
         ∧ (¬ (l = l0 ∧ lo - 2 <= h < hi - 2) →
            snd (for_range lo hi (filterIQ_pixel l0) (f_i, f_q, 0%Q, 0%Q, b)) l h
            = b l h)); [auto|].
  apply (for_range_ind
           (fun k (st : Filter * Filter * Q * Q * YiqBuffer) =>
              ∀ l h, y (snd st l h) = y (b l h)
                     ∧ (¬ (l = l0 ∧ lo - 2 <= h < k - 2) → snd st l h = b l h)));
    [assumption| |].
  - intros l h. split; reflexivity.
  - intros k [[[[g1 g2] g3] g4] s] Hk Hs l h. unfold filterIQ_pixel.
    cbn [snd] in Hs.
    assert (Hgoal : ∀ fi fq : Q,
              y (yiq_set s l0 (k - 2) (mkYIQ (y (s l0 (k - 2))) fi fq) l h) = y (b l h)
              ∧ (¬ (l = l0 ∧ lo - 2 <= h < k + 1 - 2) →
                 yiq_set s l0 (k - 2) (mkYIQ (y (s l0 (k - 2))) fi fq) l h = b l h)).
    { intros fi fq. rewrite yiq_set_get.
      destruct (Z.eqb_spec l l0) as [->|Hl]; cbn [andb].
      - destruct (Z.eqb_spec h (k - 2)) as [->|Hh].
        + split; [apply Hs|]. intros Hn. exfalso. apply Hn. lia.
        + destruct (Hs l0 h) as [Hy Hr]. split; [exact Hy|].
          intros Hn. apply Hr. lia.
      - destruct (Hs l h) as [Hy Hr]. split; [exact Hy|]. intros _. apply Hr. lia. }
    case_phase k;
      repeat match goal with |- context [feed ?f ?x] => destruct (feed f x) end;
      apply Hgoal.
Qed.

(** [filterIQ] never changes a Y component, and it changes I and Q only on
    visible lines, in the columns from [activeVideoStart - 2] up to
    [activeVideoEnd - 3]: the filtered values are written two columns to
    the left of the column they were fed at. *)
Theorem filterIQ_keeps_Y c b :
  (∀ l h, y (filterIQ c b l h) = y (b l h))
  ∧ ∀ l h,
      ¬ (firstVisibleFrameLine (configuration c) <= l < frameHeight c
         ∧ activeVideoStart (configuration c) - 2 <= h
           < activeVideoEnd (configuration c) - 2) →
      filterIQ c b l h = b l h.
Proof.
  cut (∀ l h,
         y (filterIQ c b l h) = y (b l h)
         ∧ (¬ (firstVisibleFrameLine (configuration c) <= l < frameHeight c
               ∧ activeVideoStart (configuration c) - 2 <= h
                 < activeVideoEnd (configuration c) - 2) →
            filterIQ c b l h = b l h)).
  { intros H. split; intros l h; apply H. }
  unfold filterIQ. set (first := firstVisibleFrameLine (configuration c)).
  destruct (Z_le_gt_dec first (frameHeight c)) as [Hle|Hgt].
  2:{ rewrite for_range_nil by lia. intros l h. split; reflexivity. }
  apply (for_range_ind
           (fun k (s : YiqBuffer) =>
              ∀ l h, y (s l h) = y (b l h)
                     ∧ (¬ (first <= l < k
                           ∧ activeVideoStart (configuration c) - 2 <= h
                             < activeVideoEnd (configuration c) - 2) →
                        s l h = b l h))); [assumption| |].
  - intros l h. split; reflexivity.
  - intros k s Hk Hs l h. destruct (filterIQ_line_frame c k s l h) as [Hy Hr].
    destruct (Hs l h) as [Hy' Hr']. split; [congruence|].
    intros Hn. rewrite Hr by lia. apply Hr'. lia.
Qed.

(** A residual clipped at a threshold is no larger than the threshold. *)
Lemma clip_bound a nr : (Qabs (clip a nr) <= Qabs nr)%Q.
Proof.
  unfold clip. destruct (Qgtb (fabs a) nr) eqn:Hgt.
  - destruct (Qgtb a 0); [|rewrite Qabs_opp]; apply Qle_refl.
  - apply Qgtb_false in Hgt. unfold fabs in Hgt.
    eapply Qle_trans; [exact Hgt|]. apply Qle_Qabs.
Qed.

Lemma doYNR_feed_buffer l h st : snd (doYNR_feed l h st) = snd st.
Proof.
  destruct st as [[f v] b]. unfold doYNR_feed.
  destruct (feed f (y (b l h))). reflexivity.
Qed.

(** [doYNR] writes Y inside the window and nothing else: I and Q of
    every pixel stay, and every pixel outside the visible lines and
    active columns is returned as it was. *)
Theorem doYNR_writes_only_window_Y c b :
  ∀ l h,
    i (doYNR c b l h) = i (b l h)
    ∧ q (doYNR c b l h) = q (b l h)
    ∧ (in_window c l h = false → doYNR c b l h = b l h).
Proof.
  set (first := firstVisibleFrameLine (configuration c)).
  set (lo := activeVideoStart (configuration c)).
  set (hi := activeVideoEnd (configuration c)).
  change (ynr_touched b (doYNR c b) (in_window c)).
  unfold doYNR. fold first lo hi.
  destruct (Z_le_gt_dec first (frameHeight c)) as [Hle|Hgt].
  2:{ rewrite for_range_nil by lia. intros l h. cbn [snd]. auto. }
  cut (ynr_touched b
         (snd (for_range first (frameHeight c)
                 (fun lineNumber st =>
                    for_range lo hi (doYNR_pixel (1.0 * irescale c) lineNumber)
                      (for_range lo (hi + 1) (doYNR_feed lineNumber) st))
                 (f_nr, fresh YIQ_zero (fieldWidth (configuration c) + 32), b)))
         (fun l h => in_range first (frameHeight c) l && in_range lo hi h)); [auto|].
  apply (for_range_ind
           (fun k (st : Filter * list YIQ * YiqBuffer) =>
              ynr_touched b (snd st)
                (fun l h => in_range first k l && in_range lo hi h))); [assumption| |].
  - intros l h. cbn [snd]. auto.
  - intros k st Hk Hst.
    assert (Hfeed : snd (for_range lo (hi + 1) (doYNR_feed k) st) = snd st).
    { apply (for_range_inv (fun st' : Filter * list YIQ * YiqBuffer => snd st' = snd st));
        [reflexivity|]. intros j st' _ H. rewrite doYNR_feed_buffer. exact H. }
    set (st1 := for_range lo (hi + 1) (doYNR_feed k) st) in *.
    destruct (Z_le_gt_dec lo hi) as [Hlh|Hlh].
    2:{ rewrite for_range_nil by lia. rewrite Hfeed. intros l h.
        destruct (Hst l h) as (Hi & Hq & Hr). repeat split; try assumption.
        intros _. apply Hr.
        replace (in_range lo hi h) with false by (symmetry; apply in_range_false; lia).
        apply andb_false_r. }
    cut (ynr_touched b
           (snd (for_range lo hi (doYNR_pixel (1.0 * irescale c) k) st1))
           (fun l h => (in_range first k l && in_range lo hi h)
                       || ((l =? k) && in_range lo hi h))).
    { intros Hcut l h. destruct (Hcut l h) as (Hi & Hq & Hr).
      repeat split; try assumption. intros Hin. apply Hr.
      rewrite in_range_last in Hin by lia.
      destruct (Z.eqb_spec l k) as [->|Hne]; cbn [orb andb] in *.
      * rewrite (in_range_end first k k) by lia. cbn [andb orb]. exact Hin.
      * rewrite orb_false_r. exact Hin. }
    apply (for_range_ind
             (fun j (st' : Filter * list YIQ * YiqBuffer) =>
                ynr_touched b (snd st')
                  (fun l h => (in_range first k l && in_range lo hi h)
                              || ((l =? k) && in_range lo j h)))); [assumption| |].
    + intros l h. destruct (Hst l h) as (Hi & Hq & Hr). unfold st1 at 1.
      fold st1. rewrite Hfeed.
      repeat split; try assumption. intros Hin. apply Hr.
      rewrite in_range_empty, andb_false_r, orb_false_r in Hin. exact Hin.
    + intros j [[f v] s] Hj Hs l h. unfold doYNR_pixel. cbn [snd] in *.
      rewrite yiq_set_get.
      destruct ((l =? k) && (h =? j)) eqn:Hhit.
      * apply andb_true_iff in Hhit. destruct Hhit as [Hl Hh].
        apply Z.eqb_eq in Hl, Hh. subst l h.
        destruct (Hs k j) as (Hi & Hq & Hr). cbn [y i q].
        assert (Heq : s k j = b k j).
        { apply Hr. rewrite (in_range_end first k k), (in_range_end lo j j) by lia.
          rewrite andb_false_r. reflexivity. }
        rewrite Heq. repeat split.
        intros Hin. exfalso. rewrite Z.eqb_refl in Hin.
        rewrite in_range_last in Hin by lia. rewrite Z.eqb_refl in Hin.
        rewrite orb_true_r in Hin. discriminate.
      * destruct (Hs l h) as (Hi & Hq & Hr). repeat split; try assumption.
        intros Hin. apply Hr. apply orb_false_iff in Hin. destruct Hin as [H1 H2].
        rewrite H1. cbn [orb]. rewrite in_range_last in H2 by lia.
        destruct (l =? k); cbn [andb] in *; [|reflexivity].
        apply orb_false_iff in H2. apply H2.
Qed.

(** Outside the window [adjustY] changes nothing; inside, where the pixel
    two columns to the right carries no chroma, it just moves that
    pixel's Y two columns to the left. *)
Theorem adjustY_outside_and_flat c b firstFieldPhaseID secondFieldPhaseID l h :
  let p := b l (h + 2) in
  let out := adjustY c b firstFieldPhaseID secondFieldPhaseID l h in
  (in_window c l h = false → out = b l h)
  ∧ (in_window c l h = true → (i p == 0)%Q → (q p == 0)%Q → (y out == y p)%Q).
Proof.
  cbv zeta. rewrite adjustY_spec. fold (in_window c l h). split; intros Hw; rewrite Hw.
  - reflexivity.
  - intros Hi Hq. unfold adjustY_result, adjustY_comp. cbn [y].
    destruct (lineInvertphase _ _ _ _); case_phase h; rewrite ?Hi, ?Hq; ring.
Qed.

End MoreFilters.

(** ** 16-bit words in a byte array *)

Lemma byteZ_byte_of_Z z : byteZ (byte_of_Z z) = z mod 256.
Proof.
  unfold byteZ, byte_of_Z.
  assert (Hb : 0 <= z mod 256 < 256) by (apply Z.mod_pos_bound; lia).
  destruct (Byte.of_N (Z.to_N (z mod 256))) as [b|] eqn:Hof; simpl.
  - apply Byte.to_of_N in Hof. rewrite Hof. lia.
  - apply Byte.of_N_None_iff in Hof. lia.
Qed.

Lemma at_fresh {A} (d : A) n k : at_ d (fresh d n) k = d.
Proof.
  unfold at_, fresh. destruct (k <? 0); [reflexivity|].
  destruct (replicate (Z.to_nat n) d !! Z.to_nat k) as [x|] eqn:Hx; [|reflexivity].
  apply lookup_replicate in Hx. simpl. tauto.
Qed.

(** A word read from a zero-filled array is zero. *)
Lemma quint16At_fresh n off idx : quint16At (fresh x00 n) off idx = 0.
Proof. unfold quint16At. rewrite !at_fresh. reflexivity. Qed.

(** Reading back the word just written gives its low 16 bits. *)
Lemma quint16At_Set_same a off idx v :
  0 <= off + 2 * idx →
  off + 2 * idx + 1 < Z.of_nat (length a) →
  quint16At (quint16Set a off idx v) off idx = v mod 65536.
Proof.
  intros H0 H1. unfold quint16At, quint16Set.
  rewrite at_set_eq by (rewrite length_set_; lia).
  rewrite at_set_ne by lia. rewrite at_set_eq by lia.
  rewrite !byteZ_byte_of_Z. Z.div_mod_to_equations. lia.
Qed.

(** Writing a word leaves the words that do not overlap it as they were. *)
Lemma quint16At_Set_other a off idx v off' idx' :
  off + 2 * idx + 1 < off' + 2 * idx' ∨ off' + 2 * idx' + 1 < off + 2 * idx →
  quint16At (quint16Set a off idx v) off' idx' = quint16At a off' idx'.
Proof.
  intros H. unfold quint16At, quint16Set. rewrite !at_set_ne by lia. reflexivity.
Qed.

Lemma quint16At_bound a off idx : 0 <= quint16At a off idx <= 65535.
Proof.
  unfold quint16At.
  pose proof (byteZ_nonneg (at_ x00 a (off + 2 * idx))).
  pose proof (byteZ_nonneg (at_ x00 a (off + 2 * idx + 1))).
  assert (Hb : ∀ b, byteZ b <= 255).
  { intros b. unfold byteZ. pose proof (Byte.to_N_bounded b). lia. }
  pose proof (Hb (at_ x00 a (off + 2 * idx))).
  pose proof (Hb (at_ x00 a (off + 2 * idx + 1))). lia.
Qed.

(** The round trip of a 16-bit word through the byte array, and its
    independence from the other words. *)
Theorem quint16_write_read a off idx v :
  0 <= off + 2 * idx →
  off + 2 * idx + 1 < Z.of_nat (length a) →
  quint16At (quint16Set a off idx v) off idx = v mod 65536
  ∧ length (quint16Set a off idx v) = length a
  ∧ ∀ idx', idx' ≠ idx →
            quint16At (quint16Set a off idx v) off idx' = quint16At a off idx'.
Proof.
  intros H0 H1. split; [apply quint16At_Set_same; assumption|].
  split; [apply length_quint16Set|].
  intros idx' Hne. apply quint16At_Set_other. lia.
Qed.

Lemma quint16_write_read_witness :
  quint16At (quint16Set (fresh x00 8) 2 1 (-3)) 2 1 = (-3) mod 65536.
Proof.
  apply (quint16_write_read (fresh x00 8) 2 1 (-3)); vm_compute; [discriminate | reflexivity].
Defined.

(** ** yiqToRgbFrame: the layout of the output *)

(** A word of a line, by its index in the whole array. *)
Lemma quint16At_line a o k : quint16At a (o * 2) k = quint16At a 0 (o + k).
Proof.
  unfold quint16At. replace (o * 2 + 2 * k) with (0 + 2 * (o + k)) by lia. reflexivity.
Qed.

Lemma quint16Set_line a o k v : quint16Set a (o * 2) k v = quint16Set a 0 (o + k) v.
Proof.
  unfold quint16Set. replace (o * 2 + 2 * k) with (0 + 2 * (o + k)) by lia. reflexivity.
Qed.

Lemma quint16At_Set a p v p' :
  0 <= p → 2 * p + 1 < Z.of_nat (length a) →
  quint16At (quint16Set a 0 p v) 0 p'
  = if p' =? p then v mod 65536 else quint16At a 0 p'.
Proof.
  intros H0 H1. destruct (Z.eqb_spec p' p) as [->|Hne].
  - apply quint16At_Set_same; lia.
  - apply quint16At_Set_other. lia.
Qed.

(** Words of different lines are different words. *)
Lemma line_col_sep M l l' k' :
  0 <= k' < M → l' ≠ l → ¬ (M * l <= M * l' + k' < M * l + M).
Proof. intros Hk Hne. nia. Qed.

Lemma static_cast_quint16_range x : 0 <= static_cast_quint16 x < 65536.
Proof. unfold static_cast_quint16. apply Z.mod_pos_bound. lia. Qed.

Section MoreRgb.
Context {E : Externals}.
Implicit Types (c : Comb E) (b : YiqBuffer).

Lemma rgb_channel_range c b burst l k : 0 <= rgb_channel c b burst l k < 65536.
Proof.
  unfold rgb_channel. destruct (RGB_conv _ _ _ _ _ _) as [[r g] bl].
  destruct ((k - 6) mod 3) as [|[?|?|]|?]; apply static_cast_quint16_range.
Qed.

(** One pixel: three consecutive words. *)
Lemma yiqToRgbFrame_pixel_words c b burst l h o a :
  0 <= fieldWidth (configuration c) * 3 * l + o →
  2 * (fieldWidth (configuration c) * 3 * l + o + 2) + 1 < Z.of_nat (length a) →
  o = h * 3 + 6 →
  let st := yiqToRgbFrame_pixel c b burst l h (o, a) in
  fst st = o + 3
  ∧ length (snd st) = length a
  ∧ ∀ p, quint16At (snd st) 0 p
         = if in_range (fieldWidth (configuration c) * 3 * l + o)
                       (fieldWidth (configuration c) * 3 * l + o + 3) p
           then rgb_channel c b burst l (p - fieldWidth (configuration c) * 3 * l)
           else quint16At a 0 p.
Proof.
  intros H0 H1 Ho. unfold yiqToRgbFrame_pixel, rgb_channel. cbv zeta.
  set (ML := fieldWidth (configuration c) * 3 * l) in *.
  split; [destruct (RGB_conv _ _ _ _ _ _) as [[r g] bl]; cbn [fst]; lia|].
  split; [destruct (RGB_conv _ _ _ _ _ _) as [[r g] bl]; cbn [snd];
          rewrite !length_quint16Set; reflexivity|].
  intros p.
  assert (Hpix : ∀ j, 0 <= j < 3 → (ML + (o + j) - ML - 6) / 3 = h
                                  ∧ (ML + (o + j) - ML - 6) mod 3 = j).
  { intros j Hj. split; Z.div_mod_to_equations; lia. }
  destruct (RGB_conv (whiteIre (configuration c)) (blackIre (configuration c))
              (whitePoint100 (configuration c)) (blackAndWhite (configuration c))
              (b l h) burst) as [[r g] bl] eqn:Hconv.
  cbn [snd]. rewrite !quint16Set_line.
  rewrite !quint16At_Set by (rewrite ?length_quint16Set; lia).
  pose proof (static_cast_quint16_range r). pose proof (static_cast_quint16_range g).
  pose proof (static_cast_quint16_range bl).
  rewrite !Z.mod_small by lia.
  unfold in_range.
  destruct (Z.eqb_spec p (ML + (o + 1 + 1))) as [->|Hn2].
  { destruct (Hpix 2) as [Hd Hm]; [lia|].
    replace (ML + (o + 1 + 1) - ML - 6) with (ML + (o + 2) - ML - 6) by lia.
    rewrite Hd, Hm, Hconv.
    destruct (Z.leb_spec (ML + o) (ML + (o + 1 + 1))); [|lia].
    destruct (Z.ltb_spec (ML + (o + 1 + 1)) (ML + o + 3)); [|lia]. reflexivity. }
  destruct (Z.eqb_spec p (ML + (o + 1))) as [->|Hn1].
  { destruct (Hpix 1) as [Hd Hm]; [lia|]. rewrite Hd, Hm, Hconv.
    destruct (Z.leb_spec (ML + o) (ML + (o + 1))); [|lia].
    destruct (Z.ltb_spec (ML + (o + 1)) (ML + o + 3)); [|lia]. reflexivity. }
  destruct (Z.eqb_spec p (ML + o)) as [->|Hn0].
  { destruct (Hpix 0) as [Hd Hm]; [lia|].
    replace (ML + o - ML - 6) with (ML + (o + 0) - ML - 6) by lia.
    rewrite Hd, Hm, Hconv.
    destruct (Z.leb_spec (ML + o) (ML + o)); [|lia].
    destruct (Z.ltb_spec (ML + o) (ML + o + 3)); [|lia]. reflexivity. }
  destruct (Z.leb_spec (ML + o) p), (Z.ltb_spec p (ML + o + 3)); cbn [andb];
    try reflexivity; lia.
Qed.

(** One line: the words of its window pixels. *)
Lemma yiqToRgbFrame_line_words c b burst l a :
  0 <= activeVideoStart (configuration c) →
  activeVideoEnd (configuration c) + 2 <= fieldWidth (configuration c) →
  0 <= l < frameHeight c →
  Z.of_nat (length a) = (fieldWidth (configuration c) * frameHeight c * 3) * 2 →
  let a' :=
    snd (for_range (activeVideoStart (configuration c)) (activeVideoEnd (configuration c))
           (yiqToRgbFrame_pixel c b burst l)
           (activeVideoStart (configuration c) * 3 + 6, a)) in
  length a' = length a
  ∧ ∀ p, quint16At a' 0 p
         = if in_range (fieldWidth (configuration c) * 3 * l
                        + (activeVideoStart (configuration c) * 3 + 6))
                       (fieldWidth (configuration c) * 3 * l
                        + (activeVideoEnd (configuration c) * 3 + 6)) p
           then rgb_channel c b burst l (p - fieldWidth (configuration c) * 3 * l)
           else quint16At a 0 p.
Proof.
  intros Hs He Hl Hlen. cbv zeta.
  set (lo := activeVideoStart (configuration c)) in *.
  set (hi := activeVideoEnd (configuration c)) in *.
  set (W := fieldWidth (configuration c)) in *.
  set (ML := W * 3 * l).
  destruct (Z_le_gt_dec lo hi) as [Hle|Hgt].
  2:{ rewrite for_range_nil by lia. cbn [snd]. split; [reflexivity|]. intros p.
      replace (in_range (ML + (lo * 3 + 6)) (ML + (hi * 3 + 6)) p) with false;
        [reflexivity|]. symmetry. apply in_range_false. lia. }
  assert (HML : 0 <= ML) by (unfold ML; nia).
  assert (HMfh : ML + W * 3 <= W * frameHeight c * 3) by (unfold ML; nia).
  cut (let st := for_range lo hi (yiqToRgbFrame_pixel c b burst l) (lo * 3 + 6, a) in
       fst st = hi * 3 + 6
       ∧ length (snd st) = length a
       ∧ ∀ p, quint16At (snd st) 0 p
              = if in_range (ML + (lo * 3 + 6)) (ML + (hi * 3 + 6)) p
                then rgb_channel c b burst l (p - ML) else quint16At a 0 p).
  { cbv zeta. intros (_ & H1 & H2). split; assumption. }
  cbv zeta.
  apply (for_range_ind
           (fun j (st : Z * QByteArray) =>
              fst st = j * 3 + 6
              ∧ length (snd st) = length a
              ∧ ∀ p, quint16At (snd st) 0 p
                     = if in_range (ML + (lo * 3 + 6)) (ML + (j * 3 + 6)) p
                       then rgb_channel c b burst l (p - ML) else quint16At a 0 p));
    [assumption| |].
  - cbn [fst snd]. split; [reflexivity|]. split; [reflexivity|]. intros p.
    rewrite in_range_empty. reflexivity.
  - intros j [o a1] Hj (Ho & Hlen1 & Hw). cbn [fst snd] in Ho, Hlen1, Hw.
    assert (Hb1 : 0 <= fieldWidth (configuration c) * 3 * l + o) by (fold W ML; lia).
    assert (Hb2 : 2 * (fieldWidth (configuration c) * 3 * l + o + 2) + 1
                  < Z.of_nat (length a1)) by (fold W ML; rewrite Hlen1; lia).
    pose proof (yiqToRgbFrame_pixel_words c b burst l j o a1 Hb1 Hb2 Ho) as Hpx.
    cbv zeta in Hpx. destruct Hpx as (H1 & H2 & H3).
    fold W ML in H3. split; [etransitivity; [exact H1 | lia]|].
    split; [etransitivity; [exact H2 | exact Hlen1]|].
    intros p. etransitivity; [apply H3|]. rewrite Hw. subst o. unfold in_range.
      destruct (Z.leb_spec (ML + (j * 3 + 6)) p), (Z.ltb_spec p (ML + (j * 3 + 6) + 3)),
               (Z.leb_spec (ML + (lo * 3 + 6)) p), (Z.ltb_spec p (ML + (j * 3 + 6))),
               (Z.ltb_spec p (ML + ((j + 1) * 3 + 6)));
        cbn [andb]; try reflexivity; lia.
Qed.

(** The words of the RGB frame, line by line. *)
Lemma yiqToRgbFrame_word c b burst l k :
  0 <= firstVisibleFrameLine (configuration c) →
  0 <= activeVideoStart (configuration c) →
  activeVideoEnd (configuration c) + 2 <= fieldWidth (configuration c) →
  0 <= k < fieldWidth (configuration c) * 3 →
  quint16At (yiqToRgbFrame c b burst) ((fieldWidth (configuration c) * 3 * l) * 2) k
  = rgb_word c b burst l k.
Proof.
  intros Hf Hs He Hk. rewrite quint16At_line. unfold yiqToRgbFrame, rgb_word.
  set (first := firstVisibleFrameLine (configuration c)) in *.
  set (lo := activeVideoStart (configuration c)) in *.
  set (hi := activeVideoEnd (configuration c)) in *.
  set (W := fieldWidth (configuration c)) in *.
  set (a0 := fresh x00 (W * frameHeight c * 3 * 2)).
  assert (Hlen0 : 0 <= W * frameHeight c * 3 * 2 →
                  Z.of_nat (length a0) = W * frameHeight c * 3 * 2).
  { intros H. unfold a0, fresh. rewrite length_replicate. lia. }
  assert (HW : 0 < W) by lia.
  revert l k Hk.
  destruct (Z_le_gt_dec first (frameHeight c)) as [Hle|Hgt].
  2:{ intros l k Hk. rewrite for_range_nil by lia. unfold a0.
      rewrite quint16At_fresh.
      replace (in_range first (frameHeight c) l) with false; [reflexivity|].
      symmetry. apply in_range_false. lia. }
  cbv beta.
  apply (for_range_ind
           (fun i (a : QByteArray) =>
              length a = length a0
              ∧ ∀ l k, 0 <= k < W * 3 →
                  quint16At a 0 (W * 3 * l + k)
                  = if in_range first i l && in_range (lo * 3 + 6) (hi * 3 + 6) k
                    then rgb_channel c b burst l k else 0)); [assumption| |].
  - split; [reflexivity|]. intros l k Hk. rewrite in_range_empty. cbn [andb].
    apply quint16At_fresh.
  - intros i a Hi [Hlen Hw].
    destruct (yiqToRgbFrame_line_words c b burst i a) as [Hlen' Hw'];
      [assumption | assumption | lia | |].
    { rewrite Hlen. apply Hlen0. fold W. nia. }
    fold lo hi W in Hlen', Hw'. split; [etransitivity; [exact Hlen' | exact Hlen]|].
    intros l k Hk. etransitivity; [apply Hw'|]. rewrite in_range_last by lia.
    destruct (Z.eqb_spec l i) as [->|Hne]; cbn [orb andb].
    + replace (W * 3 * i + k - W * 3 * i) with k by lia.
      replace (in_range (W * 3 * i + (lo * 3 + 6)) (W * 3 * i + (hi * 3 + 6))
                        (W * 3 * i + k))
        with (in_range (lo * 3 + 6) (hi * 3 + 6) k).
      2:{ unfold in_range.
          destruct (Z.leb_spec (lo * 3 + 6) k), (Z.ltb_spec k (hi * 3 + 6)),
                   (Z.leb_spec (W * 3 * i + (lo * 3 + 6)) (W * 3 * i + k)),
                   (Z.ltb_spec (W * 3 * i + k) (W * 3 * i + (hi * 3 + 6)));
            cbn [andb]; try reflexivity; lia. }
      destruct (in_range (lo * 3 + 6) (hi * 3 + 6) k) eqn:Hin; [reflexivity|].
      rewrite Hw by assumption. rewrite Hin, andb_false_r. reflexivity.
    + replace (in_range (W * 3 * i + (lo * 3 + 6)) (W * 3 * i + (hi * 3 + 6))
                        (W * 3 * l + k)) with false; [apply Hw; assumption|].
      symmetry. apply in_range_false.
      pose proof (line_col_sep (W * 3) i l k Hk Hne). lia.
Qed.

(** The layout of the RGB frame.  In a frame whose lines have room for
    the active columns and the two-pixel offset, word [k] of line [l] is
    the R, G or B value of the window pixel of column [(k - 6) / 3] when
    [l] is a visible line and [k] lies in
    [3 * activeVideoStart + 6 .. 3 * activeVideoEnd + 5], and zero
    otherwise: each pixel occupies words [3 h + 6 .. 3 h + 8], and the
    lines above the first visible one stay black. *)
Theorem yiqToRgbFrame_layout c b burst l k :
  0 <= firstVisibleFrameLine (configuration c) →
  0 <= activeVideoStart (configuration c) →
  activeVideoEnd (configuration c) + 2 <= fieldWidth (configuration c) →
  0 <= l < frameHeight c →
  0 <= k < fieldWidth (configuration c) * 3 →
  quint16At (yiqToRgbFrame c b burst) ((fieldWidth (configuration c) * 3 * l) * 2) k
  = rgb_word c b burst l k.
Proof. intros Hf Hs He _ Hk. apply yiqToRgbFrame_word; assumption. Qed.

End MoreRgb.

Lemma yiqToRgbFrame_layout_witness :
  quint16At (yiqToRgbFrame (E := Demo.externals) (Demo.comb true false) Demo.ramp 0)
            ((fieldWidth (configuration (Demo.comb true false)) * 3 * 2) * 2) 16
  = rgb_word (E := Demo.externals) (Demo.comb true false) Demo.ramp 0 2 16.
Proof.
  apply (yiqToRgbFrame_layout (E := Demo.externals) (Demo.comb true false) Demo.ramp
           0 2 16); vm_compute; try discriminate; split; (discriminate || reflexivity).
Defined.

Example yiqToRgbFrame_layout_demo :
  map (fun k => quint16At (yiqToRgbFrame (E := Demo.externals) (Demo.comb true false)
                             Demo.ramp 0) ((8 * 3 * 2) * 2) k)
      [11; 12; 13; 14; 15; 16; 17; 23; 24]
  = [0; 204; 202; 200; 206; 202; 201; 203; 0].
Proof. vm_compute. reflexivity. Qed.

(** ** overlayOpticalFlowMap *)

Section MoreOverlay.
Context {E : Externals}.
Implicit Types (c : Comb E) (fb : FrameBuffer).

Lemma overlay_channel_ext c fb old old' l k :
  old (k / 3 * 3) = old' (k / 3 * 3) →
  old (k / 3 * 3 + 2) = old' (k / 3 * 3 + 2) →
  overlay_channel c fb old l k = overlay_channel c fb old' l k.
Proof. intros H0 H2. unfold overlay_channel. rewrite H0, H2. reflexivity. Qed.

(** One pixel rewrites its three words from the words it finds. *)
Lemma overlayOpticalFlowMap_pixel_words c fb l h a :
  0 <= fieldWidth (configuration c) * 3 * l + h * 3 →
  2 * (fieldWidth (configuration c) * 3 * l + h * 3 + 2) + 1 < Z.of_nat (length a) →
  let a' := overlayOpticalFlowMap_pixel c fb l h a in
  length a' = length a
  ∧ ∀ p, quint16At a' 0 p
         = if in_range (fieldWidth (configuration c) * 3 * l + h * 3)
                       (fieldWidth (configuration c) * 3 * l + h * 3 + 3) p
           then overlay_channel c fb
                  (fun k => quint16At a 0 (fieldWidth (configuration c) * 3 * l + k))
                  l (p - fieldWidth (configuration c) * 3 * l)
           else quint16At a 0 p.
Proof.
  intros H0 H1. cbv zeta. unfold overlayOpticalFlowMap_pixel.
  set (ML := fieldWidth (configuration c) * 3 * l) in *.
  rewrite !quint16Set_line, !quint16At_line.
  split; [rewrite !length_quint16Set; reflexivity|].
  intros p.
  rewrite !quint16At_Set by (rewrite ?length_quint16Set; lia).
  unfold in_range, overlay_channel.
  destruct (Z.eqb_spec p (ML + (h * 3 + 2))) as [->|Hn2].
  { replace (ML + (h * 3 + 2) - ML) with (h * 3 + 2) by lia.
    replace ((h * 3 + 2) / 3) with h by (apply Z.div_unique with 2; lia).
    replace ((h * 3 + 2) mod 3) with 2 by (apply Z.mod_unique with h; lia).
    destruct (Z.leb_spec (ML + h * 3) (ML + (h * 3 + 2))),
             (Z.ltb_spec (ML + (h * 3 + 2)) (ML + h * 3 + 3)); try lia.
    cbn [andb]. replace (ML + (h * 3 + 2)) with (ML + (h * 3 + 2)) by lia.
    reflexivity. }
  destruct (Z.eqb_spec p (ML + (h * 3 + 1))) as [->|Hn1].
  { replace (ML + (h * 3 + 1) - ML) with (h * 3 + 1) by lia.
    replace ((h * 3 + 1) / 3) with h by (apply Z.div_unique with 1; lia).
    replace ((h * 3 + 1) mod 3) with 1 by (apply Z.mod_unique with h; lia).
    destruct (Z.leb_spec (ML + h * 3) (ML + (h * 3 + 1))),
             (Z.ltb_spec (ML + (h * 3 + 1)) (ML + h * 3 + 3)); try lia.
    cbn [andb].
    pose proof (quint16At_bound a 0 (ML + (h * 3 + 2))) as Hb.
    destruct (Z.gtb_spec (quint16At a 0 (ML + (h * 3 + 2))) 65535); [lia|].
    apply Z.mod_small. lia. }
  destruct (Z.eqb_spec p (ML + h * 3)) as [->|Hn0].
  { replace (ML + h * 3 - ML) with (h * 3) by lia.
    replace (h * 3 / 3) with h by (apply Z.div_unique with 0; lia).
    replace ((h * 3) mod 3) with 0 by (apply Z.mod_unique with h; lia).
    destruct (Z.leb_spec (ML + h * 3) (ML + h * 3)),
             (Z.ltb_spec (ML + h * 3) (ML + h * 3 + 3)); try lia.
    cbn [andb]. reflexivity. }
  destruct (Z.leb_spec (ML + h * 3) p), (Z.ltb_spec p (ML + h * 3 + 3));
    cbn [andb]; try reflexivity; lia.
Qed.

(** One line: its window pixels, each from the words the line had. *)
Lemma overlayOpticalFlowMap_line_words c fb l a :
  0 <= activeVideoStart (configuration c) →
  activeVideoEnd (configuration c) <= fieldWidth (configuration c) →
  0 <= l < frameHeight c →
  Z.of_nat (length a) = (fieldWidth (configuration c) * frameHeight c * 3) * 2 →
  let a' :=
    for_range (activeVideoStart (configuration c)) (activeVideoEnd (configuration c))
      (overlayOpticalFlowMap_pixel c fb l) a in
  length a' = length a
  ∧ ∀ p, quint16At a' 0 p
         = if in_range (fieldWidth (configuration c) * 3 * l
                        + activeVideoStart (configuration c) * 3)
                       (fieldWidth (configuration c) * 3 * l
                        + activeVideoEnd (configuration c) * 3) p
           then overlay_channel c fb
                  (fun k => quint16At a 0 (fieldWidth (configuration c) * 3 * l + k))
                  l (p - fieldWidth (configuration c) * 3 * l)
           else quint16At a 0 p.
Proof.
  intros Hs He Hl Hlen. cbv zeta.
  set (lo := activeVideoStart (configuration c)) in *.
  set (hi := activeVideoEnd (configuration c)) in *.
  set (W := fieldWidth (configuration c)) in *.
  set (ML := W * 3 * l).
  destruct (Z_le_gt_dec lo hi) as [Hle|Hgt].
  2:{ rewrite for_range_nil by lia. split; [reflexivity|]. intros p.
      replace (in_range (ML + lo * 3) (ML + hi * 3) p) with false; [reflexivity|].
      symmetry. apply in_range_false. lia. }
  assert (HML : 0 <= ML) by (unfold ML; nia).
  assert (HMfh : ML + W * 3 <= W * frameHeight c * 3) by (unfold ML; nia).
  apply (for_range_ind
           (fun j (a' : QByteArray) =>
              length a' = length a
              ∧ ∀ p, quint16At a' 0 p
                     = if in_range (ML + lo * 3) (ML + j * 3) p
                       then overlay_channel c fb (fun k => quint16At a 0 (ML + k))
                              l (p - ML)
                       else quint16At a 0 p)); [assumption| |].
  - split; [reflexivity|]. intros p. rewrite in_range_empty. reflexivity.
  - intros j a1 Hj (Hlen1 & Hw).
    assert (Hb1 : 0 <= fieldWidth (configuration c) * 3 * l + j * 3) by (fold W ML; lia).
    assert (Hb2 : 2 * (fieldWidth (configuration c) * 3 * l + j * 3 + 2) + 1
                  < Z.of_nat (length a1)) by (fold W ML; rewrite Hlen1; lia).
    pose proof (overlayOpticalFlowMap_pixel_words c fb l j a1 Hb1 Hb2) as Hpx.
    cbv zeta in Hpx. fold W ML in Hpx. destruct Hpx as (H1 & H2).
    split; [etransitivity; [exact H1 | exact Hlen1]|].
    intros p. etransitivity; [apply H2|].
    destruct (in_range (ML + j * 3) (ML + j * 3 + 3) p) eqn:Hin.
    + apply in_range_spec in Hin.
      replace (in_range (ML + lo * 3) (ML + (j + 1) * 3) p) with true
        by (symmetry; apply in_range_spec; lia).
      assert (Hq : (p - ML) / 3 = j) by (symmetry; apply Z.div_unique with (p - ML - j * 3); lia).
      apply overlay_channel_ext; rewrite Hq, Hw.
      * replace (in_range (ML + lo * 3) (ML + j * 3) (ML + j * 3)) with false;
          [reflexivity|]. symmetry. apply in_range_false. lia.
      * replace (in_range (ML + lo * 3) (ML + j * 3) (ML + (j * 3 + 2))) with false;
          [reflexivity|]. symmetry. apply in_range_false. lia.
    + apply in_range_false in Hin. rewrite Hw. unfold in_range.
      destruct (Z.leb_spec (ML + lo * 3) p), (Z.ltb_spec p (ML + j * 3)),
               (Z.ltb_spec p (ML + (j + 1) * 3)); cbn [andb]; try reflexivity; lia.
Qed.

(** The words of the frame after the overlay. *)
Lemma overlayOpticalFlowMap_word c fb rgb l k :
  0 <= firstVisibleFrameLine (configuration c) →
  0 <= activeVideoStart (configuration c) →
  activeVideoEnd (configuration c) <= fieldWidth (configuration c) →
  Z.of_nat (length rgb) = (fieldWidth (configuration c) * frameHeight c * 3) * 2 →
  0 <= k < fieldWidth (configuration c) * 3 →
  let linePointer := (fieldWidth (configuration c) * 3 * l) * 2 in
  length (overlayOpticalFlowMap c fb rgb) = length rgb
  ∧ quint16At (overlayOpticalFlowMap c fb rgb) linePointer k
    = if in_range (firstVisibleFrameLine (configuration c)) (frameHeight c) l
         && in_range (activeVideoStart (configuration c) * 3)
                     (activeVideoEnd (configuration c) * 3) k
      then overlay_channel c fb (quint16At rgb linePointer) l k
      else quint16At rgb linePointer k.
Proof.
  intros Hf Hs He Hlen Hk. cbv zeta. unfold overlayOpticalFlowMap.
  set (first := firstVisibleFrameLine (configuration c)) in *.
  set (lo := activeVideoStart (configuration c)) in *.
  set (hi := activeVideoEnd (configuration c)) in *.
  set (W := fieldWidth (configuration c)) in *.
  assert (HW : 0 < W) by lia.
  rewrite !quint16At_line.
  assert (Hold : ∀ l k, overlay_channel c fb (quint16At rgb (W * 3 * l * 2)) l k
                        = overlay_channel c fb (fun k => quint16At rgb 0 (W * 3 * l + k)) l k).
  { intros l' k'. apply overlay_channel_ext; apply quint16At_line. }
  rewrite Hold. clear Hold. revert l k Hk.
  destruct (Z_le_gt_dec first (frameHeight c)) as [Hle|Hgt].
  2:{ intros l k Hk. rewrite for_range_nil by lia. split; [reflexivity|].
      replace (in_range first (frameHeight c) l) with false; [reflexivity|].
      symmetry. apply in_range_false. lia. }
  cut (let a' := for_range first (frameHeight c)
                   (fun lineNumber => for_range lo hi
                                        (overlayOpticalFlowMap_pixel c fb lineNumber)) rgb in
       length a' = length rgb
       ∧ ∀ l k, 0 <= k < W * 3 →
           quint16At a' 0 (W * 3 * l + k)
           = if in_range first (frameHeight c) l && in_range (lo * 3) (hi * 3) k
             then overlay_channel c fb (fun k => quint16At rgb 0 (W * 3 * l + k)) l k
             else quint16At rgb 0 (W * 3 * l + k)).
  { cbv zeta. intros [H1 H2] l k Hk. split; [exact H1 | apply H2; exact Hk]. }
  cbv zeta.
  apply (for_range_ind
           (fun i (a : QByteArray) =>
              length a = length rgb
              ∧ ∀ l k, 0 <= k < W * 3 →
                  quint16At a 0 (W * 3 * l + k)
                  = if in_range first i l && in_range (lo * 3) (hi * 3) k
                    then overlay_channel c fb (fun k => quint16At rgb 0 (W * 3 * l + k)) l k
                    else quint16At rgb 0 (W * 3 * l + k))); [assumption| |].
  - split; [reflexivity|]. intros l k Hk. rewrite in_range_empty. reflexivity.
  - intros i a Hi [Hlena Hw].
    assert (Hli : 0 <= i < frameHeight c) by lia.
    assert (Hlen' : Z.of_nat (length a)
                    = fieldWidth (configuration c) * frameHeight c * 3 * 2)
      by (rewrite Hlena; exact Hlen).
    pose proof (overlayOpticalFlowMap_line_words c fb i a Hs He Hli Hlen') as Hline.
    cbv zeta in Hline. fold lo hi W in Hline. destruct Hline as [Hl1 Hl2].
    split; [etransitivity; [exact Hl1 | exact Hlena]|].
    intros l k Hk. etransitivity; [apply Hl2|]. rewrite in_range_last by lia.
    assert (Hsame : ∀ k', 0 <= k' < W * 3 →
                          quint16At a 0 (W * 3 * i + k') = quint16At rgb 0 (W * 3 * i + k')).
    { intros k' Hk'. rewrite Hw by assumption.
      replace (in_range first i i) with false; [reflexivity|].
      symmetry. apply in_range_false. lia. }
    destruct (Z.eqb_spec l i) as [->|Hne]; cbn [orb andb].
    + replace (W * 3 * i + k - W * 3 * i) with k by lia.
      replace (in_range (W * 3 * i + lo * 3) (W * 3 * i + hi * 3) (W * 3 * i + k))
        with (in_range (lo * 3) (hi * 3) k).
      2:{ unfold in_range.
          destruct (Z.leb_spec (lo * 3) k), (Z.ltb_spec k (hi * 3)),
                   (Z.leb_spec (W * 3 * i + lo * 3) (W * 3 * i + k)),
                   (Z.ltb_spec (W * 3 * i + k) (W * 3 * i + hi * 3));
            cbn [andb]; try reflexivity; lia. }
      destruct (in_range (lo * 3) (hi * 3) k) eqn:Hin.
      * apply in_range_spec in Hin.
        assert (Hq : 0 <= k / 3 * 3 ∧ k / 3 * 3 + 2 < W * 3).
        { pose proof (Z.div_mod k 3 ltac:(lia)) as Hd.
          pose proof (Z.mod_pos_bound k 3 ltac:(lia)) as Hm.
          assert (lo <= k / 3 < hi) by lia. lia. }
        apply overlay_channel_ext; apply Hsame; lia.
      * rewrite Hw by assumption. rewrite Hin, andb_false_r. reflexivity.
    + replace (in_range (W * 3 * i + lo * 3) (W * 3 * i + hi * 3) (W * 3 * l + k))
        with false; [apply Hw; assumption|].
      symmetry. apply in_range_false.
      pose proof (line_col_sep (W * 3) i l k Hk Hne). lia.
Qed.

Lemma static_cast_qint32_int x n : (x == inject_Z n)%Q → static_cast_qint32 x = n.
Proof.
  unfold Qeq, static_cast_qint32. cbn [inject_Z Qnum Qden]. intros H.
  rewrite Z.mul_1_r in H. rewrite H. apply Z.quot_mul. lia.
Qed.

(** The overlay at a window pixel.  In a frame of the size
    [yiqToRgbFrame] makes, with the active columns inside the line and
    a motion map that covers the frame (910 values per line), the
    overlay of line [l], column [h] rewrites words [3 h .. 3 h + 2] of
    the line, read off the frame as it was before the call: word
    [3 h + 1] (green) becomes the old word [3 h + 2] (blue), not the old
    green, whatever the motion value; where the motion value is 0, words
    [3 h] and [3 h + 2] stay; where it is 1 they both become 65535.
    Every word outside the words [3 * activeVideoStart ..
    3 * activeVideoEnd - 1] of the visible lines is unchanged, and so is
    the length.  The words overlaid are those of columns
    [activeVideoStart ..], two pixels to the left of where
    [yiqToRgbFrame] put the window. *)
Theorem overlayOpticalFlowMap_words c fb rgb l h :
  0 <= firstVisibleFrameLine (configuration c) →
  0 <= activeVideoStart (configuration c) →
  activeVideoEnd (configuration c) <= fieldWidth (configuration c) →
  activeVideoEnd (configuration c) <= 910 →
  frameHeight c * 910 <= Z.of_nat (length (kValues fb)) →
  Z.of_nat (length rgb) = (fieldWidth (configuration c) * frameHeight c * 3) * 2 →
  in_window c l h = true →
  let linePointer := fun l => (fieldWidth (configuration c) * 3 * l) * 2 in
  let out := overlayOpticalFlowMap c fb rgb in
  let k := at_ 0%Q (kValues fb) ((l * 910) + h) in
  length out = length rgb
  ∧ quint16At out (linePointer l) ((h * 3) + 1) = quint16At rgb (linePointer l) ((h * 3) + 2)
  ∧ ((k == 0)%Q →
       quint16At out (linePointer l) (h * 3) = quint16At rgb (linePointer l) (h * 3)
       ∧ quint16At out (linePointer l) ((h * 3) + 2)
         = quint16At rgb (linePointer l) ((h * 3) + 2))
  ∧ ((k == 1)%Q →
       quint16At out (linePointer l) (h * 3) = 65535
       ∧ quint16At out (linePointer l) ((h * 3) + 2) = 65535)
  ∧ ∀ l' k', 0 <= l' < frameHeight c → 0 <= k' < fieldWidth (configuration c) * 3 →
      in_range (firstVisibleFrameLine (configuration c)) (frameHeight c) l'
      && in_range (activeVideoStart (configuration c) * 3)
                  (activeVideoEnd (configuration c) * 3) k' = false →
      quint16At out (linePointer l') k' = quint16At rgb (linePointer l') k'.
Proof.
  intros Hf Hs He _ _ Hlen Hw. cbv zeta.
  pose proof Hw as Hw'. apply in_window_spec in Hw'. destruct Hw' as [Hl Hh].
  assert (Hword : ∀ j, 0 <= j < 3 →
            quint16At (overlayOpticalFlowMap c fb rgb)
                      ((fieldWidth (configuration c) * 3 * l) * 2) (h * 3 + j)
            = overlay_channel c fb
                (quint16At rgb ((fieldWidth (configuration c) * 3 * l) * 2)) l (h * 3 + j)).
  { intros j Hj.
    destruct (overlayOpticalFlowMap_word c fb rgb l (h * 3 + j)) as [_ Hx];
      try assumption; [lia|].
    cbv zeta in Hx. rewrite Hx.
    replace (in_range (firstVisibleFrameLine (configuration c)) (frameHeight c) l)
      with true by (symmetry; apply in_range_spec; exact Hl).
    replace (in_range (activeVideoStart (configuration c) * 3)
                      (activeVideoEnd (configuration c) * 3) (h * 3 + j))
      with true by (symmetry; apply in_range_spec; lia).
    reflexivity. }
  assert (Hdiv : ∀ j, 0 <= j < 3 → (h * 3 + j) / 3 = h ∧ (h * 3 + j) mod 3 = j).
  { intros j Hj. split.
    - symmetry. apply Z.div_unique with j; lia.
    - symmetry. apply Z.mod_unique with h; lia. }
  set (old := quint16At rgb ((fieldWidth (configuration c) * 3 * l) * 2)) in *.
  assert (Hold : ∀ j, 0 <= old j <= 65535) by (intros j; apply quint16At_bound).
  split.
  { destruct (overlayOpticalFlowMap_word c fb rgb l (h * 3)) as [Hx _];
      try assumption; lia. }
  split.
  { rewrite (Hword 1) by lia. unfold overlay_channel. cbv zeta.
    destruct (Hdiv 1 ltac:(lia)) as [-> ->]. reflexivity. }
  split; [|split].
  - intros Hk.
    assert (Hi : static_cast_qint32
                   (at_ 0%Q (kValues fb) ((l * 910) + h) * 65535)%Q = 0).
    { apply static_cast_qint32_int. rewrite Hk. reflexivity. }
    replace (h * 3) with (h * 3 + 0) at 1 by lia.
    rewrite (Hword 0), (Hword 2) by lia. unfold overlay_channel. cbv zeta.
    destruct (Hdiv 0 ltac:(lia)) as [-> ->]. destruct (Hdiv 2 ltac:(lia)) as [-> ->].
    cbv iota. rewrite Hi, !Z.add_0_r.
    pose proof (Hold (h * 3)) as H0. pose proof (Hold (h * 3 + 2)) as H2.
    destruct (Z.gtb_spec (old (h * 3)) 65535); [lia|].
    destruct (Z.gtb_spec (old (h * 3 + 2)) 65535); [lia|].
    rewrite !Z.mod_small by lia. split; reflexivity.
  - intros Hk.
    assert (Hi : static_cast_qint32
                   (at_ 0%Q (kValues fb) ((l * 910) + h) * 65535)%Q = 65535).
    { apply static_cast_qint32_int. rewrite Hk. reflexivity. }
    replace (h * 3) with (h * 3 + 0) at 1 by lia.
    rewrite (Hword 0), (Hword 2) by lia. unfold overlay_channel. cbv zeta.
    destruct (Hdiv 0 ltac:(lia)) as [-> ->]. destruct (Hdiv 2 ltac:(lia)) as [-> ->].
    cbv iota. rewrite Hi.
    pose proof (Hold (h * 3)) as H0. pose proof (Hold (h * 3 + 2)) as H2.
    destruct (Z.gtb_spec (old (h * 3) + 65535) 65535),
             (Z.gtb_spec (old (h * 3 + 2) + 65535) 65535);
      split; try reflexivity;
      match goal with
      | |- (?a + 65535) mod 65536 = 65535 =>
          replace a with 0 by lia; reflexivity
      end.
  - intros l' k' _ Hk' Hout.
    destruct (overlayOpticalFlowMap_word c fb rgb l' k') as [_ Hx]; try assumption.
    cbv zeta in Hx. rewrite Hx, Hout. reflexivity.
Qed.

End MoreOverlay.

Lemma overlayOpticalFlowMap_words_witness :
  let c := Demo.comb true true in
  let fb := set_kValues (Demo.frame 1 1) (fresh 1%Q 6370) in
  let rgb := yiqToRgbFrame (E := Demo.externals) c Demo.ramp 0 in
  let linePointer := fun l => (fieldWidth (configuration c) * 3 * l) * 2 in
  let out := overlayOpticalFlowMap c fb rgb in
  let k := at_ 0%Q (kValues fb) ((2 * 910) + 4) in
  length out = length rgb
  ∧ quint16At out (linePointer 2) ((4 * 3) + 1) = quint16At rgb (linePointer 2) ((4 * 3) + 2)
  ∧ ((k == 0)%Q →
       quint16At out (linePointer 2) (4 * 3) = quint16At rgb (linePointer 2) (4 * 3)
       ∧ quint16At out (linePointer 2) ((4 * 3) + 2)
         = quint16At rgb (linePointer 2) ((4 * 3) + 2))
  ∧ ((k == 1)%Q →
       quint16At out (linePointer 2) (4 * 3) = 65535
       ∧ quint16At out (linePointer 2) ((4 * 3) + 2) = 65535)
  ∧ ∀ l' k', 0 <= l' < frameHeight c → 0 <= k' < fieldWidth (configuration c) * 3 →
      in_range (firstVisibleFrameLine (configuration c)) (frameHeight c) l'
      && in_range (activeVideoStart (configuration c) * 3)
                  (activeVideoEnd (configuration c) * 3) k' = false →
      quint16At out (linePointer l') k' = quint16At rgb (linePointer l') k'.
Proof.
  intros c fb rgb.
  apply (overlayOpticalFlowMap_words (E := Demo.externals) c fb rgb 2 4).
  - vm_compute. discriminate.
  - vm_compute. discriminate.
  - vm_compute. discriminate.
  - vm_compute. discriminate.
  - vm_compute. discriminate.
  - vm_compute. reflexivity.
  - vm_compute. reflexivity.
Defined.

(** Line 2 of the demo frame before and after the overlay with motion
    value 1 everywhere: the overlay of column 4 rewrites words 12 to 14,
    word 13 taking the old word 14; words 18 to 20, beyond the columns
    overlaid, stay. *)
Example overlayOpticalFlowMap_demo :
  let c := Demo.comb true true in
  let rgb := yiqToRgbFrame (E := Demo.externals) c Demo.ramp 0 in
  let out := overlayOpticalFlowMap c
               (set_kValues (Demo.frame 1 1) (fresh 1%Q 6370)) rgb in
  map (quint16At rgb ((8 * 3 * 2) * 2)) [12; 13; 14; 18; 19; 20]
  = [204; 202; 200; 208; 202; 202]
  ∧ map (quint16At out ((8 * 3 * 2) * 2)) [12; 13; 14; 18; 19; 20]
    = [65535; 200; 65535; 208; 202; 202].
Proof. vm_compute. split; reflexivity. Qed.

(** ** The interlacing loop of process *)

Lemma at_app_l {A} (d : A) (a b : list A) i :
  i < Z.of_nat (length a) → at_ d (a ++ b) i = at_ d a i.
Proof.
  intros H. unfold at_. destruct (Z.ltb_spec i 0); [reflexivity|].
  rewrite lookup_app_l by lia. reflexivity.
Qed.

Lemma at_app_r {A} (d : A) (a b : list A) i :
  Z.of_nat (length a) <= i → at_ d (a ++ b) i = at_ d b (i - Z.of_nat (length a)).
Proof.
  intros H. unfold at_.
  destruct (Z.ltb_spec i 0); [lia|].
  destruct (Z.ltb_spec (i - Z.of_nat (length a)) 0); [lia|].
  rewrite lookup_app_r by lia. f_equal. f_equal. lia.
Qed.

Lemma length_mid a pos len :
  0 <= pos → 0 <= len → pos + len <= Z.of_nat (length a) →
  Z.of_nat (length (mid a pos len)) = len.
Proof. intros H0 H1 H2. unfold mid. rewrite length_take, length_drop. lia. Qed.

Lemma at_mid d a pos len x :
  0 <= pos → 0 <= x < len → at_ d (mid a pos len) x = at_ d a (pos + x).
Proof.
  intros H0 H1. unfold at_, mid.
  destruct (Z.ltb_spec x 0); [lia|]. destruct (Z.ltb_spec (pos + x) 0); [lia|].
  rewrite lookup_take_lt by lia. rewrite lookup_drop. f_equal. f_equal. lia.
Qed.

Section MoreProcess.
Context {E : Externals}.
Implicit Types (c : Comb E) (fb : FrameBuffer).

Lemma interlace_bytes c f1 f2 :
  0 <= fieldWidth (configuration c) →
  (frameHeight c + 1) / 2 * (fieldWidth (configuration c) * 2) <= Z.of_nat (length f1) →
  (frameHeight c + 1) / 2 * (fieldWidth (configuration c) * 2) <= Z.of_nat (length f2) →
  Z.of_nat (length (interlace c f1 f2))
  = Z.max 0 ((frameHeight c + 1) / 2) * 2 * (fieldWidth (configuration c) * 2)
  ∧ ∀ j x, 0 <= j < (frameHeight c + 1) / 2 →
           0 <= x < fieldWidth (configuration c) * 2 →
      at_ x00 (interlace c f1 f2) (2 * j * (fieldWidth (configuration c) * 2) + x)
      = at_ x00 f1 (j * (fieldWidth (configuration c) * 2) + x)
      ∧ at_ x00 (interlace c f1 f2) ((2 * j + 1) * (fieldWidth (configuration c) * 2) + x)
        = at_ x00 f2 (j * (fieldWidth (configuration c) * 2) + x).
Proof.
  intros HW H1 H2. unfold interlace.
  set (W := fieldWidth (configuration c)) in *.
  set (N := (frameHeight c + 1) / 2) in *.
  destruct (Z_le_gt_dec 0 N) as [HN|HN].
  2:{ rewrite for_range_nil by lia. split; [simpl; lia|]. intros j x Hj. lia. }
  rewrite Z.max_r by lia.
  apply (for_range_ind
           (fun n (raw : QByteArray) =>
              Z.of_nat (length raw) = n * 2 * (W * 2)
              ∧ ∀ j x, 0 <= j < n → 0 <= x < W * 2 →
                  at_ x00 raw (2 * j * (W * 2) + x) = at_ x00 f1 (j * (W * 2) + x)
                  ∧ at_ x00 raw ((2 * j + 1) * (W * 2) + x) = at_ x00 f2 (j * (W * 2) + x)));
    [assumption| |].
  - split; [reflexivity|]. intros j x Hj. lia.
  - intros n raw Hn [Hlen Hb].
    replace (n * W * 2) with (n * (W * 2)) by lia.
    assert (Hm1 : Z.of_nat (length (mid f1 (n * (W * 2)) (W * 2))) = W * 2)
      by (apply length_mid; nia).
    assert (Hm2 : Z.of_nat (length (mid f2 (n * (W * 2)) (W * 2))) = W * 2)
      by (apply length_mid; nia).
    split; [rewrite !length_app; lia|].
    intros j x Hj Hx.
    destruct (Z.eq_dec j n) as [->|Hne].
    + split.
      * rewrite at_app_l by (rewrite length_app; lia).
        rewrite at_app_r by lia. rewrite Hlen.
        replace (2 * n * (W * 2) + x - n * 2 * (W * 2)) with x by lia.
        apply at_mid; nia.
      * rewrite at_app_r by (rewrite length_app; lia).
        rewrite length_app, Nat2Z.inj_add, Hlen, Hm1.
        replace ((2 * n + 1) * (W * 2) + x - (n * 2 * (W * 2) + W * 2)) with x by lia.
        apply at_mid; nia.
    + assert (Hj' : 0 <= j < n) by lia.
      destruct (Hb j x Hj' Hx) as [Ha Hc].
      assert (Hin : (2 * j + 1) * (W * 2) + x < n * 2 * (W * 2)) by nia.
      split.
      * rewrite at_app_l by (rewrite length_app; nia).
        rewrite at_app_l by nia. exact Ha.
      * rewrite at_app_l by (rewrite length_app; lia).
        rewrite at_app_l by lia. exact Hc.
Qed.

(** The interlaced frame, sample by sample.  When each field buffer
    holds at least [(frameHeight + 1) / 2] lines of [fieldWidth] 16-bit
    samples, frame line [2 j] is line [j] of the first field and frame
    line [2 j + 1] is line [j] of the second field, for every [j] below
    [(frameHeight + 1) / 2]; the raw buffer holds
    [2 * ((frameHeight + 1) / 2)] lines, one more than [frameHeight]
    when [frameHeight] is odd. *)
Theorem interlace_lines c f1 f2 :
  0 <= fieldWidth (configuration c) →
  (frameHeight c + 1) / 2 * (fieldWidth (configuration c) * 2) <= Z.of_nat (length f1) →
  (frameHeight c + 1) / 2 * (fieldWidth (configuration c) * 2) <= Z.of_nat (length f2) →
  Z.of_nat (length (interlace c f1 f2))
  = Z.max 0 ((frameHeight c + 1) / 2) * 2 * (fieldWidth (configuration c) * 2)
  ∧ ∀ j h, 0 <= j < (frameHeight c + 1) / 2 → 0 <= h < fieldWidth (configuration c) →
      quint16At (interlace c f1 f2) (((2 * j) * fieldWidth (configuration c)) * 2) h
      = quint16At f1 ((j * fieldWidth (configuration c)) * 2) h
      ∧ quint16At (interlace c f1 f2) (((2 * j + 1) * fieldWidth (configuration c)) * 2) h
        = quint16At f2 ((j * fieldWidth (configuration c)) * 2) h.
Proof.
  intros HW H1 H2. destruct (interlace_bytes c f1 f2 HW H1 H2) as [Hlen Hb].
  split; [exact Hlen|]. intros j h Hj Hh. unfold quint16At.
  set (W := fieldWidth (configuration c)) in *.
  destruct (Hb j (2 * h) Hj ltac:(lia)) as [Ha0 Hc0].
  destruct (Hb j (2 * h + 1) Hj ltac:(lia)) as [Ha1 Hc1].
  replace (2 * j * W * 2 + 2 * h + 1) with (2 * j * (W * 2) + (2 * h + 1)) by lia.
  replace (2 * j * W * 2 + 2 * h) with (2 * j * (W * 2) + 2 * h) by lia.
  replace ((2 * j + 1) * W * 2 + 2 * h + 1) with ((2 * j + 1) * (W * 2) + (2 * h + 1)) by lia.
  replace ((2 * j + 1) * W * 2 + 2 * h) with ((2 * j + 1) * (W * 2) + 2 * h) by lia.
  replace (j * W * 2 + 2 * h + 1) with (j * (W * 2) + (2 * h + 1)) by lia.
  replace (j * W * 2 + 2 * h) with (j * (W * 2) + 2 * h) by lia.
  rewrite Ha0, Ha1, Hc0, Hc1. split; reflexivity.
Qed.

Lemma interlace_same_but_colorlpf c1 c2 f1 f2 :
  same_but_colorlpf c1 c2 → interlace c1 f1 f2 = interlace c2 f1 f2.
Proof. intros H. unfold interlace. same_but_colorlpf_tac H. Qed.

Lemma split1D_same_but_colorlpf c1 c2 fb :
  same_but_colorlpf c1 c2 → split1D c1 fb = split1D c2 fb.
Proof.
  intros H. unfold split1D, split1D_line, split1D_pixel, split1D_raw, rawSample.
  same_but_colorlpf_tac H.
Qed.

Lemma split2D_same_but_colorlpf c1 c2 fb :
  same_but_colorlpf c1 c2 → split2D c1 fb = split2D c2 fb.
Proof.
  intros H. unfold split2D, split2D_line, split2D_pixel, split2D_value, split2D_weights.
  same_but_colorlpf_tac H.
Qed.

Lemma splitIQ_same_but_colorlpf c1 c2 fb :
  same_but_colorlpf c1 c2 → splitIQ c1 fb = splitIQ c2 fb.
Proof.
  intros H. unfold splitIQ, splitIQ_line, splitIQ_pixel, splitIQ_cavg, rawSample.
  same_but_colorlpf_tac H.
Qed.

Lemma postProcess_temp c fb :
  fst (postProcess c fb)
  = doCNR c (doYNR c (adjustY c (yiqBuffer fb) (firstFieldPhaseID fb)
                               (secondFieldPhaseID fb)))
  ∧ burstLevel (snd (postProcess c fb)) = burstLevel fb.
Proof.
  unfold postProcess. cbn [fst snd]. split; [reflexivity|].
  destruct (colorlpf (configuration c)); reflexivity.
Qed.

Lemma passes_same_but_colorlpf c1 c2 b id1 id2 :
  same_but_colorlpf c1 c2 →
  doCNR c1 (doYNR c1 (adjustY c1 b id1 id2)) = doCNR c2 (doYNR c2 (adjustY c2 b id1 id2)).
Proof.
  intros H. unfold adjustY, adjustY_line, doYNR, doCNR.
  same_but_colorlpf_tac H.
Qed.

Lemma yiqToRgbFrame_same_but_colorlpf c1 c2 b burst :
  same_but_colorlpf c1 c2 → yiqToRgbFrame c1 b burst = yiqToRgbFrame c2 b burst.
Proof.
  intros H. unfold yiqToRgbFrame, yiqToRgbFrame_pixel. same_but_colorlpf_tac H.
Qed.

(** With 3D mode off the two chroma low-pass flags have no effect on
    the picture: two objects whose configurations differ at most in
    [colorlpf] and [colorlpf_hq] return the same RGB bytes for the same
    input.  [filterIQ] runs on the frame's own YIQ buffer, after the
    copy that the RGB conversion reads was taken. *)
Theorem process_2D_ignores_colorlpf (c1 c2 : Comb E)
    (firstFieldInputBuffer secondFieldInputBuffer : QByteArray)
    (burstMedianIre : Q) (firstFieldPhaseID secondFieldPhaseID : Z) :
  same_but_colorlpf c1 c2 →
  use3D (configuration c1) = false →
  fst (process c1 firstFieldInputBuffer secondFieldInputBuffer
               burstMedianIre firstFieldPhaseID secondFieldPhaseID)
  = fst (process c2 firstFieldInputBuffer secondFieldInputBuffer
                 burstMedianIre firstFieldPhaseID secondFieldPhaseID).
Proof.
  intros Hs H3D.
  assert (H3D' : use3D (configuration c2) = false).
  { destruct Hs as (_ & _ & _ & _ & _ & _ & _ & _ & _ & <- & _). exact H3D. }
  unfold process. rewrite H3D, H3D'. cbn [negb].
  rewrite (interlace_same_but_colorlpf c1 c2) by assumption.
  rewrite (split1D_same_but_colorlpf c1 c2) by assumption.
  rewrite (split2D_same_but_colorlpf c1 c2) by assumption.
  rewrite (splitIQ_same_but_colorlpf c1 c2) by assumption.
  set (fb3 := splitIQ c2 _).
  destruct (postProcess_temp c1 fb3) as [Ht1 Hb1].
  destruct (postProcess_temp c2 fb3) as [Ht2 Hb2].
  destruct (postProcess c1 fb3) as [t1 g1], (postProcess c2 fb3) as [t2 g2].
  cbn [fst snd] in *. rewrite Hb1, Hb2, Ht1, Ht2.
  rewrite (passes_same_but_colorlpf c1 c2) by assumption.
  apply yiqToRgbFrame_same_but_colorlpf. assumption.
Qed.

Lemma split3D_frame c fb prev :
  rawbuffer (split3D c fb prev) = rawbuffer fb
  ∧ length (clpbuffer (split3D c fb prev)) = length (clpbuffer fb)
  ∧ burstLevel (split3D c fb prev) = burstLevel fb
  ∧ firstFieldPhaseID (split3D c fb prev) = firstFieldPhaseID fb
  ∧ secondFieldPhaseID (split3D c fb prev) = secondFieldPhaseID fb.
Proof.
  destruct (split3D_spec c fb prev) as [(Hr & Hl & _ & _ & _ & Hb & H1 & H2) _].
  repeat split; assumption.
Qed.

Lemma postProcess_ids c fb :
  firstFieldPhaseID (snd (postProcess c fb)) = firstFieldPhaseID fb
  ∧ secondFieldPhaseID (snd (postProcess c fb)) = secondFieldPhaseID fb
  ∧ kValues (snd (postProcess c fb)) = kValues fb.
Proof.
  unfold postProcess. cbn [snd]. destruct (colorlpf (configuration c)); repeat split.
Qed.

Lemma splitIQ_ids c fb :
  burstLevel (splitIQ c fb) = burstLevel fb
  ∧ firstFieldPhaseID (splitIQ c fb) = firstFieldPhaseID fb
  ∧ secondFieldPhaseID (splitIQ c fb) = secondFieldPhaseID fb
  ∧ kValues (splitIQ c fb) = kValues fb.
Proof. destruct (splitIQ_spec c fb) as (b' & -> & _). repeat split. Qed.

(** The object after a 3D call. *)
Lemma process_3D_kept c f1 f2 burst id1 id2 :
  use3D (configuration c) = true →
  let c' := snd (process c f1 f2 burst id1 id2) in
  let kept := previousFrameBuffer c' in
  configuration c' = configuration c
  ∧ irescale c' = irescale c
  ∧ frameHeight c' = frameHeight c
  ∧ rawbuffer kept = interlace c f1 f2
  ∧ burstLevel kept = burst
  ∧ firstFieldPhaseID kept = id1
  ∧ secondFieldPhaseID kept = id2
  ∧ length (clpbuffer kept) = 3%nat
  ∧ ∀ l h, in_window c l h = true →
      clp kept 2 l h
      = qreal_of (Z.quot (rawSample c (previousFrameBuffer c) l h - rawSample c kept l h) 2).
Proof.
  intros H3D. cbv zeta. unfold process. rewrite H3D. cbn [negb].
  set (fb0 := mkFrameBuffer (interlace c f1 f2) (fresh PixelLine_default 3) []
                YiqBuffer_clear burst id1 id2).
  set (fb3 := splitIQ c (split2D c (split1D c fb0))).
  pose proof (postProcess_frame c fb3) as [Hr4 Hc4].
  pose proof (postProcess_temp c fb3) as [_ Hb4].
  pose proof (postProcess_ids c fb3) as (Hi4 & Hj4 & _).
  destruct (postProcess c fb3) as [t1 fb4]. cbn [snd] in Hr4, Hc4, Hb4, Hi4, Hj4.
  destruct (denseOpticalFlow _ _ _) as [o k].
  set (fb5 := set_kValues fb4 k).
  set (fb6 := split3D c fb5 (previousFrameBuffer c)).
  pose proof (postProcess_frame c (splitIQ c fb6)) as [Hr8 Hc8].
  pose proof (postProcess_temp c (splitIQ c fb6)) as [_ Hb8].
  pose proof (postProcess_ids c (splitIQ c fb6)) as (Hi8 & Hj8 & _).
  destruct (postProcess c (splitIQ c fb6)) as [t2 fb8].
  cbn [snd fst previousFrameBuffer configuration irescale frameHeight] in *.
  destruct (splitIQ_frame c fb6) as [Hr7 Hc7].
  destruct (splitIQ_ids c fb6) as (Hb7 & Hi7 & Hj7 & _).
  destruct (split3D_frame c fb5 (previousFrameBuffer c)) as (Hr6 & Hl6 & Hb6 & Hi6 & Hj6).
  fold fb6 in Hr6, Hl6, Hb6, Hi6, Hj6.
  destruct (splitIQ_frame c (split2D c (split1D c fb0))) as [Hr3 Hc3].
  destruct (splitIQ_ids c (split2D c (split1D c fb0))) as (Hb3 & Hi3 & Hj3 & _).
  fold fb3 in Hr3, Hc3, Hb3, Hi3, Hj3.
  destruct (split2D_spec c (split1D c fb0)) as [(Hr2 & Hl2 & _ & _ & _ & Hb2 & Hi2 & Hj2) _].
  destruct (split1D_spec c fb0) as [(Hr1 & Hl1 & _ & _ & _ & Hb1 & Hi1 & Hj1) _].
  assert (Hraw5 : rawbuffer fb5 = interlace c f1 f2).
  { unfold fb5. cbn [set_kValues rawbuffer]. rewrite Hr4, Hr3, Hr2, Hr1. reflexivity. }
  assert (Hlen5 : length (clpbuffer fb5) = 3%nat).
  { unfold fb5. cbn [set_kValues clpbuffer]. rewrite Hc4, Hc3, Hl2, Hl1. reflexivity. }
  split; [reflexivity|]. split; [reflexivity|]. split; [reflexivity|].
  split; [rewrite Hr8, Hr7, Hr6; exact Hraw5|].
  split.
  { rewrite Hb8, Hb7, Hb6. unfold fb5. cbn [set_kValues burstLevel].
    rewrite Hb4, Hb3, Hb2, Hb1. reflexivity. }
  split.
  { rewrite Hi8, Hi7, Hi6. unfold fb5. cbn [set_kValues firstFieldPhaseID].
    rewrite Hi4, Hi3, Hi2, Hi1. reflexivity. }
  split.
  { rewrite Hj8, Hj7, Hj6. unfold fb5. cbn [set_kValues secondFieldPhaseID].
    rewrite Hj4, Hj3, Hj2, Hj1. reflexivity. }
  split; [rewrite Hc8, Hc7, Hl6; exact Hlen5|].
  intros l h Hin.
  unfold clp at 1. rewrite Hc8, Hc7. fold (clp fb6 2 l h).
  destruct (split3D_spec c fb5 (previousFrameBuffer c)) as [_ Hv].
  fold fb6 in Hv. rewrite Hv.
  replace (has_plane fb5 2) with true
    by (unfold has_plane; rewrite Hlen5; reflexivity).
  apply in_window_spec in Hin. destruct Hin as [Hl Hh].
  apply in_range_spec in Hl. apply in_range_spec in Hh. rewrite Hl, Hh. cbn [andb].
  f_equal. f_equal. f_equal. apply rawSample_raw.
  rewrite Hr8, Hr7, Hr6. reflexivity.
Qed.

(** What a 3D call leaves in the object, when the frame it retained
    and the interlaced input both cover the window (so not for the
    first call of an object, whose retained buffer is empty).  The
    configuration and the two values derived from it stay.  The
    retained frame is the frame just processed: its raw buffer is the
    interlaced input and covers the window again, its burst level and
    phase IDs are the arguments, it has three comb planes, and its
    plane 2 holds, at every visible line and active column, half the
    difference (truncated towards zero) between the sample of the frame
    retained before the call and the sample of this frame. *)
Theorem process_3D_retains c f1 f2 burst id1 id2 :
  use3D (configuration c) = true →
  covers_window c (previousFrameBuffer c) = true →
  fieldWidth (configuration c) * frameHeight c * 2
  <= Z.of_nat (length (interlace c f1 f2)) →
  let c' := snd (process c f1 f2 burst id1 id2) in
  let kept := previousFrameBuffer c' in
  configuration c' = configuration c
  ∧ irescale c' = irescale c
  ∧ frameHeight c' = frameHeight c
  ∧ rawbuffer kept = interlace c f1 f2
  ∧ covers_window c' kept = true
  ∧ burstLevel kept = burst
  ∧ firstFieldPhaseID kept = id1
  ∧ secondFieldPhaseID kept = id2
  ∧ length (clpbuffer kept) = 3%nat
  ∧ ∀ l h, in_window c l h = true →
      clp kept 2 l h
      = qreal_of (Z.quot (rawSample c (previousFrameBuffer c) l h - rawSample c kept l h) 2).
Proof.
  intros H3D Hcov Hlen.
  pose proof (process_3D_kept c f1 f2 burst id1 id2 H3D) as H. cbv zeta in H |- *.
  destruct H as (Hcfg & Hir & Hfh & Hraw & Hb & Hi1 & Hi2 & Hcl & Hv).
  repeat (split; [assumption|]).
  split; [|repeat (split; [assumption|]); exact Hv].
  unfold covers_window in Hcov |- *. rewrite Hcfg, Hfh, Hraw.
  rewrite !andb_true_iff in Hcov. destruct Hcov as [[[Hf Hs] He] _].
  rewrite Hf, Hs, He. cbn [andb]. apply Z.leb_le. exact Hlen.
Qed.



(** [setConfiguration] takes any configuration: its range checks only
    log.  [getConfiguration] returns what was set, a second
    [setConfiguration] overrides the first completely, setting what
    [getConfiguration] returns changes nothing, and the frame retained
    by earlier calls and the optical-flow state are not reset. *)
Theorem setConfiguration_roundtrip c p q :
  getConfiguration (setConfiguration c p) = p
  ∧ setConfiguration (setConfiguration c p) q = setConfiguration c q
  ∧ setConfiguration (setConfiguration c p) (getConfiguration (setConfiguration c p))
    = setConfiguration c p
  ∧ frameHeight (setConfiguration c p) = fieldHeight p * 2 - 1
  ∧ previousFrameBuffer (setConfiguration c p) = previousFrameBuffer c
  ∧ opticalFlow (setConfiguration c p) = opticalFlow c.
Proof. repeat split. Qed.

End MoreProcess.

Lemma interlace_lines_witness :
  Z.of_nat (length (interlace (E := Demo.externals) (Demo.comb true false)
                      Demo.firstField Demo.firstField))
  = Z.max 0 ((frameHeight (Demo.comb true false) + 1) / 2) * 2
    * (fieldWidth (configuration (Demo.comb true false)) * 2)
  ∧ ∀ j h, 0 <= j < (frameHeight (Demo.comb true false) + 1) / 2 →
           0 <= h < fieldWidth (configuration (Demo.comb true false)) →
      quint16At (interlace (E := Demo.externals) (Demo.comb true false)
                   Demo.firstField Demo.firstField)
                (((2 * j) * fieldWidth (configuration (Demo.comb true false))) * 2) h
      = quint16At Demo.firstField
                  ((j * fieldWidth (configuration (Demo.comb true false))) * 2) h
      ∧ quint16At (interlace (E := Demo.externals) (Demo.comb true false)
                     Demo.firstField Demo.firstField)
                  (((2 * j + 1) * fieldWidth (configuration (Demo.comb true false))) * 2) h
        = quint16At Demo.firstField
                    ((j * fieldWidth (configuration (Demo.comb true false))) * 2) h.
Proof.
  apply (interlace_lines (E := Demo.externals) (Demo.comb true false)
           Demo.firstField Demo.firstField).
  - vm_compute. discriminate.
  - vm_compute. discriminate.
  - vm_compute. discriminate.
Defined.

Lemma process_2D_ignores_colorlpf_witness :
  fst (process (E := Demo.externals) (Demo.comb true false)
               Demo.firstField Demo.secondField 0 1 1)
  = fst (process (E := Demo.externals)
           (setConfiguration (E := Demo.externals) (Comb_new (E := Demo.externals) tt)
              (mkConfiguration false false false false 8 4 2 6 0 0 100 false false))
           Demo.firstField Demo.secondField 0 1 1).
Proof.
  apply (process_2D_ignores_colorlpf (E := Demo.externals) (Demo.comb true false)
           (setConfiguration (E := Demo.externals) (Comb_new (E := Demo.externals) tt)
              (mkConfiguration false false false false 8 4 2 6 0 0 100 false false))
           Demo.firstField Demo.secondField 0 1 1).
  - unfold same_but_colorlpf. repeat split; reflexivity.
  - reflexivity.
Defined.

Lemma process_3D_retains_witness :
  let c' := snd (process (E := Demo.externals) (Demo.comb_after true true (Demo.frame 2 3))
                   Demo.firstField Demo.secondField 0 1 1) in
  let kept := previousFrameBuffer c' in
  configuration c' = configuration (Demo.comb_after true true (Demo.frame 2 3))
  ∧ irescale c' = irescale (Demo.comb_after true true (Demo.frame 2 3))
  ∧ frameHeight c' = frameHeight (Demo.comb_after true true (Demo.frame 2 3))
  ∧ rawbuffer kept = interlace (E := Demo.externals)
                       (Demo.comb_after true true (Demo.frame 2 3))
                       Demo.firstField Demo.secondField
  ∧ covers_window c' kept = true
  ∧ burstLevel kept = 0%Q
  ∧ firstFieldPhaseID kept = 1
  ∧ secondFieldPhaseID kept = 1
  ∧ length (clpbuffer kept) = 3%nat
  ∧ ∀ l h, in_window (Demo.comb_after true true (Demo.frame 2 3)) l h = true →
      clp kept 2 l h
      = qreal_of (Z.quot (rawSample (Demo.comb_after true true (Demo.frame 2 3))
                            (previousFrameBuffer
                               (Demo.comb_after true true (Demo.frame 2 3))) l h
                          - rawSample (Demo.comb_after true true (Demo.frame 2 3)) kept l h)
                         2).
Proof.
  apply (process_3D_retains (E := Demo.externals)
           (Demo.comb_after true true (Demo.frame 2 3))
           Demo.firstField Demo.secondField 0 1 1).
  - reflexivity.
  - vm_compute. reflexivity.
  - vm_compute. discriminate.
Defined.

(** ** The phase-inversion flag in closed form *)

Lemma lineInvertphase_second first id1 id2 :
  lineInvertphase first id1 id2 (first + 1)
  = negb (if Z.rem (first + 1) 2 =? 0
          then (id1 =? 2) || (id1 =? 3) else (id2 =? 1) || (id2 =? 4)).
Proof.
  unfold lineInvertphase.
  rewrite (for_range_last first (first + 1)) by lia.
  rewrite (for_range_last first first) by lia.
  rewrite for_range_nil by lia.
  unfold trackLine, initTracker.
  destruct (Z.eqb_spec (Z.rem first 2) 0) as [H0|H0],
           (Z.eqb_spec (Z.rem (first + 1) 2) 0) as [H1|H1];
    cbn [topInvertphase bottomInvertphase invertphase]; try reflexivity;
    exfalso; revert H0 H1; Z.quot_rem_to_equations; lia.
Qed.

Lemma rem2_even x : (Z.rem x 2 =? 0) = Z.even x.
Proof.
  destruct (Z.eqb_spec (Z.rem x 2) 0) as [H|H], (Z.even x) eqn:He; try reflexivity;
    exfalso.
  - apply (f_equal negb) in He. rewrite Z.negb_even in He. cbn [negb] in He.
    apply Z.odd_spec in He. destruct He as [k ->].
    revert H. Z.quot_rem_to_equations. lia.
  - apply Z.even_spec in He. destruct He as [k ->].
    revert H. Z.quot_rem_to_equations. lia.
Qed.

(** The flag a pass holds on frame line [l], for [l] from
    [firstVisibleFrameLine] on: the initial flag of the field of [l]
    (top field for even [l], set by first-field phase IDs 2 and 3;
    bottom field for odd [l], set by second-field phase IDs 1 and 4),
    inverted once for every line of that field from
    [firstVisibleFrameLine] to [l].  It does not depend on the other
    field's phase ID. *)
Theorem lineInvertphase_closed_form first id1 id2 l :
  first <= l →
  lineInvertphase first id1 id2 l
  = xorb (if Z.even l then (id1 =? 2) || (id1 =? 3) else (id2 =? 1) || (id2 =? 4))
         (Z.even ((l - first) / 2)).
Proof.
  intros Hl.
  assert (Hgen : ∀ n : nat,
             lineInvertphase first id1 id2 (first + 2 * Z.of_nat n)
             = xorb (if Z.even (first + 2 * Z.of_nat n)
                     then (id1 =? 2) || (id1 =? 3) else (id2 =? 1) || (id2 =? 4))
                    (Z.even (Z.of_nat n))
             ∧ lineInvertphase first id1 id2 (first + 1 + 2 * Z.of_nat n)
               = xorb (if Z.even (first + 1 + 2 * Z.of_nat n)
                       then (id1 =? 2) || (id1 =? 3) else (id2 =? 1) || (id2 =? 4))
                      (Z.even (Z.of_nat n))).
  { induction n as [|n [IH0 IH1]].
    - replace (first + 2 * Z.of_nat 0) with first by lia.
      replace (first + 1 + 2 * Z.of_nat 0) with (first + 1) by lia.
      rewrite lineInvertphase_first, lineInvertphase_second, !rem2_even.
      cbn [Z.of_nat Z.even]. rewrite !xorb_true_r. split; reflexivity.
    - replace (first + 2 * Z.of_nat (S n)) with (first + 2 * Z.of_nat n + 2) by lia.
      replace (first + 1 + 2 * Z.of_nat (S n)) with (first + 1 + 2 * Z.of_nat n + 2) by lia.
      rewrite !lineInvertphase_alternates by lia. rewrite IH0, IH1.
      replace (Z.of_nat (S n)) with (Z.succ (Z.of_nat n)) by lia.
      rewrite Z.even_succ, <- Z.negb_even.
      replace (first + 2 * Z.of_nat n + 2) with (Z.succ (Z.succ (first + 2 * Z.of_nat n)))
        by lia.
      replace (first + 1 + 2 * Z.of_nat n + 2)
        with (Z.succ (Z.succ (first + 1 + 2 * Z.of_nat n))) by lia.
      rewrite !Z.even_succ_succ.
      split; [destruct (if Z.even (first + 2 * Z.of_nat n) then _ else _)
             | destruct (if Z.even (first + 1 + 2 * Z.of_nat n) then _ else _)];
        destruct (Z.even (Z.of_nat n)); reflexivity. }
  pose proof (Z.div_mod (l - first) 2 ltac:(lia)) as Hd.
  pose proof (Z.mod_pos_bound (l - first) 2 ltac:(lia)) as Hm.
  assert (Hq : 0 <= (l - first) / 2) by (apply Z.div_pos; lia).
  destruct (Hgen (Z.to_nat ((l - first) / 2))) as [G0 G1].
  rewrite Z2Nat.id in G0, G1 by lia.
  destruct (Z.eq_dec ((l - first) mod 2) 0) as [He|Ho].
  - replace (first + 2 * ((l - first) / 2)) with l in G0 by lia. exact G0.
  - replace (first + 1 + 2 * ((l - first) / 2)) with l in G1 by lia. exact G1.
Qed.

Lemma lineInvertphase_closed_form_witness :
  lineInvertphase 3 2 1 8
  = xorb (if Z.even 8 then (2 =? 2) || (2 =? 3) else (1 =? 1) || (1 =? 4))
         (Z.even ((8 - 3) / 2)).
Proof. apply (lineInvertphase_closed_form 3 2 1 8). lia. Defined.

(** ** The borders of the picture *)

Section MoreBorders.
Context {E : Externals}.
Implicit Types (c : Comb E) (fb : FrameBuffer).

(** The frame [process] returns is what [yiqToRgbFrame] made, with the
    overlay on top when 3D mode and the motion map are both on. *)
Lemma process_rgb c f1 f2 burst id1 id2 :
  ∃ t b fb,
    fst (process c f1 f2 burst id1 id2)
    = if use3D (configuration c) && showOpticalFlowMap (configuration c)
      then overlayOpticalFlowMap c fb (yiqToRgbFrame c t b)
      else yiqToRgbFrame c t b.
Proof.
  unfold process. destruct (use3D (configuration c)); cbn [negb andb].
  - destruct (postProcess c _) as [t1 fb4].
    destruct (denseOpticalFlow _ _ _) as [o k].
    destruct (postProcess c _) as [t2 fb8]. cbn [fst].
    exists t2, (burstLevel fb8), fb8. reflexivity.
  - destruct (postProcess c _) as [t1 fb4]. cbn [fst].
    exists t1, (burstLevel fb4), fb4. reflexivity.
Qed.

(** The picture has black borders.  With the active columns and the
    two-pixel offset inside the line, every word of the returned frame
    that lies on a line above the first visible one, or left of the
    first window pixel, or right of the last one, is zero.  The window
    starts at word [3 * activeVideoStart + 6], and at word
    [3 * activeVideoStart] when the motion map is overlaid. *)
Theorem process_borders_black c f1 f2 burst id1 id2 l k :
  0 <= firstVisibleFrameLine (configuration c) →
  0 <= activeVideoStart (configuration c) →
  activeVideoEnd (configuration c) + 2 <= fieldWidth (configuration c) →
  0 <= l < frameHeight c →
  0 <= k < fieldWidth (configuration c) * 3 →
  in_range (firstVisibleFrameLine (configuration c)) (frameHeight c) l
  && in_range (if use3D (configuration c) && showOpticalFlowMap (configuration c)
               then activeVideoStart (configuration c) * 3
               else activeVideoStart (configuration c) * 3 + 6)
              (activeVideoEnd (configuration c) * 3 + 6) k = false →
  quint16At (fst (process c f1 f2 burst id1 id2))
            ((fieldWidth (configuration c) * 3 * l) * 2) k = 0.
Proof.
  intros Hf Hs He _ Hk Hout.
  destruct (process_rgb c f1 f2 burst id1 id2) as (t & b & fb & ->).
  assert (Hrgb : in_range (firstVisibleFrameLine (configuration c)) (frameHeight c) l
                 && in_range (activeVideoStart (configuration c) * 3 + 6)
                             (activeVideoEnd (configuration c) * 3 + 6) k = false →
                 quint16At (yiqToRgbFrame c t b)
                           ((fieldWidth (configuration c) * 3 * l) * 2) k = 0).
  { intros H. rewrite yiqToRgbFrame_word by assumption. unfold rgb_word.
    rewrite H. reflexivity. }
  destruct (use3D (configuration c) && showOpticalFlowMap (configuration c));
    [|apply Hrgb; exact Hout].
  assert (Hout' : in_range (firstVisibleFrameLine (configuration c)) (frameHeight c) l
                  && in_range (activeVideoStart (configuration c) * 3 + 6)
                              (activeVideoEnd (configuration c) * 3 + 6) k = false).
  { apply andb_false_iff in Hout. apply andb_false_iff.
    destruct Hout as [H|H]; [left; exact H|right].
    apply in_range_false in H. apply in_range_false. lia. }
  destruct (Z_le_gt_dec (frameHeight c) (firstVisibleFrameLine (configuration c)))
    as [Hfh|Hfh].
  { unfold overlayOpticalFlowMap. rewrite for_range_nil by lia. apply Hrgb, Hout'. }
  destruct (overlayOpticalFlowMap_word c fb (yiqToRgbFrame c t b) l k) as [_ Hw];
    try assumption; try lia.
  { rewrite length_yiqToRgbFrame. rewrite Z2Nat.id; [reflexivity|]. nia. }
  cbv zeta in Hw. rewrite Hw.
  replace (in_range (firstVisibleFrameLine (configuration c)) (frameHeight c) l
           && in_range (activeVideoStart (configuration c) * 3)
                       (activeVideoEnd (configuration c) * 3) k) with false.
  - apply Hrgb, Hout'.
  - symmetry. apply andb_false_iff in Hout. apply andb_false_iff.
    destruct Hout as [H|H]; [left; exact H|right].
    apply in_range_false in H. apply in_range_false. lia.
Qed.

End MoreBorders.

Lemma process_borders_black_witness :
  quint16At (fst (process (E := Demo.externals) (Demo.comb_from 2 true false)
                    Demo.firstField Demo.secondField 0 1 1))
            ((fieldWidth (configuration (Demo.comb_from 2 true false)) * 3 * 3) * 2) 11
  = 0.
Proof.
  apply (process_borders_black (E := Demo.externals) (Demo.comb_from 2 true false)
           Demo.firstField Demo.secondField 0 1 1 3 11).
  - vm_compute. discriminate.
  - vm_compute. discriminate.
  - vm_compute. discriminate.
  - vm_compute. split; [discriminate | reflexivity].
  - vm_compute. split; [discriminate | reflexivity].
  - vm_compute. reflexivity.
Defined.

